(** * World Cup strength-of-schedule: the tournament probability engine

    A shallow embedding of the probability code of the repository:
    - [lib/sosCalculator.js]: the Elo rating model, the closed-form playoff
      resolvers and the group-only Monte Carlo simulator;
    - [lib/bracketSimulator.js]: the full-tournament Monte Carlo simulator;
    - [public/app.js]: the interactive bracket with its override map.

    Numbers.  Ratings are the integers that [parseRankings] reads with
    [parseInt] (or the rounded expected rating of a playoff winner); they are
    kept in [Z].  Probabilities are JavaScript doubles in the source; here
    they are real numbers, so every statement about them is a statement of
    exact arithmetic and says nothing about IEEE rounding.  [Math.pow(10, x)]
    is [Rpower 10 x], named [pow10].  [Math.random()] is a sequence of reals that the
    simulators consume in order. *)

From Stdlib Require Import Reals Lra Lia ZArith List Ascii String Permutation Sorted.
From Stdlib Require Import FunctionalExtensionality.
From stdpp Require Import gmap strings.
Import ListNotations.

Local Open Scope Z_scope.

(** ** JavaScript idioms shared by the three files *)
Module Js.

(** [ratings[code] || d]: a missing entry, [NaN] and [0] are all falsy. *)
Definition orDefault (v : option Z) (d : Z) : Z :=
  match v with
  | Some r => if r =? 0 then d else r
  | None => d
  end.

(** [Math.pow(10, x)].  The definition is sealed, so that computing the
    discrete parts of the model leaves the analytic function alone;
    [pow10_unseal] gives the definition back. *)
Definition pow10_def (x : R) : R := Rpower 10 x.
Definition pow10_aux : seal (@pow10_def).
Proof. by eexists. Qed.
Definition pow10 : R -> R := pow10_aux.(unseal).

(** [Math.round]: the nearest integer, halves going up. *)
Definition Math_round (x : R) : Z := Int_part (x + / 2)%R.

(** [Array.prototype.sort(cmp)] with a consistent comparator is a stable
    sort.  [after a b] stands for [cmp(a, b) > 0], "a goes after b". *)
Section Sort.
Context {A : Type} (after : A -> A -> bool).

Fixpoint insertSorted (x : A) (l : list A) : list A :=
  match l with
  | [] => [x]
  | y :: l' => if after x y then y :: insertSorted x l' else x :: l
  end.

Definition sort (l : list A) : list A := fold_right insertSorted [] l.
End Sort.

(** [a < b] on reals as a boolean, for comparators and random draws. *)
Definition Rltb (a b : R) : bool := if Rlt_dec a b then true else false.

(** A team as the simulators receive it: [{ code, name, elo, isPlayoff }]. *)
Record Team := { code : string; name : string; elo : Z; isPlayoff : bool }.

(** The result of a group match, seen from the first team. *)
Inductive Outcome := win | draw | loss.

(** [for (i...) for (j = i + 1...)]: every pair of a list, the earlier
    element first, in the order the nested loops visit them. *)
Fixpoint pairsInOrder {A : Type} (l : list A) : list (A * A) :=
  match l with
  | [] => []
  | x :: rest => map (pair x) rest ++ pairsInOrder rest
  end.

(** [arr.forEach((x, index) => ...)] *)
Definition indexed {A : Type} (l : list A) : list (nat * A) :=
  combine (seq 0 (length l)) l.

End Js.

(** ** lib/sosCalculator.js *)
Module SosCalculator.
Import Js.

Record Bracket := {
  seeded : string;
  unseeded : list string;
  bracket_destinationGroup : string
}.

Record Path := {
  path_teams : list string;
  path_destinationGroup : string
}.

(** An entry of [teamProbs]: [{ code, elo, prob }].  The code of a
    missing array element is [undefined], here [None]. *)
Record PlayoffTeam := {
  pt_code : option string;
  pt_elo : Z;
  pt_prob : R
}.

Record PlayoffResult := {
  expectedElo : Z;
  minElo : Z;
  maxElo : Z;
  teams : list PlayoffTeam
}.

(** [ratings[code]], where [code] may be [undefined]. *)
Definition rating (ratings : gmap string Z) (code : option string) : option Z :=
  match code with
  | Some c => ratings !! c
  | None => None
  end.

Definition eloWinProbability (rating1 rating2 : R) : R :=
  (1 / (1 + pow10 ((rating2 - rating1) / 400)))%R.

(** [teamProbs.sort((a, b) => b.prob - a.prob)] *)
Definition byProbDesc (a b : PlayoffTeam) : bool := Rltb (pt_prob a) (pt_prob b).

Definition simulateBracket (bracket : Bracket) (ratings : gmap string Z) : PlayoffResult :=
  let seededCode := Some (seeded bracket) in
  let seededElo := orDefault (rating ratings seededCode) 1400 in
  let unseededCodes := unseeded bracket in
  let team1Elo := orDefault (rating ratings (unseededCodes !! 0%nat)) 1400 in
  let team2Elo := orDefault (rating ratings (unseededCodes !! 1%nat)) 1400 in
  let team1WinProb := eloWinProbability (IZR team1Elo) (IZR team2Elo) in
  let semifinalWinnerElo :=
    (team1WinProb * IZR team1Elo + (1 - team1WinProb) * IZR team2Elo)%R in
  let seededWinProb := eloWinProbability (IZR seededElo) semifinalWinnerElo in
  let expectedWinnerElo :=
    (seededWinProb * IZR seededElo + (1 - seededWinProb) * semifinalWinnerElo)%R in
  let teamProbs :=
    [ {| pt_code := seededCode; pt_elo := seededElo; pt_prob := seededWinProb |};
      {| pt_code := unseededCodes !! 0%nat; pt_elo := team1Elo;
         pt_prob := ((1 - seededWinProb) * team1WinProb)%R |};
      {| pt_code := unseededCodes !! 1%nat; pt_elo := team2Elo;
         pt_prob := ((1 - seededWinProb) * (1 - team1WinProb))%R |} ] in
  {| expectedElo := Math_round expectedWinnerElo;
     minElo := Z.min (Z.min seededElo team1Elo) team2Elo;
     maxElo := Z.max (Z.max seededElo team1Elo) team2Elo;
     teams := sort byProbDesc teamProbs |}.

(** [{ code, elo }], an entry of [teamElos]. *)
Record TeamElo := { te_code : string; te_elo : Z }.

(** [[...teamElos].sort((a, b) => b.elo - a.elo)] *)
Definition byEloDesc (a b : TeamElo) : bool := te_elo a <? te_elo b.

Definition withProb (t : TeamElo) (p : R) : PlayoffTeam :=
  {| pt_code := Some (te_code t); pt_elo := te_elo t; pt_prob := p |}.

(** [None] is the [TypeError] of reading [.elo] of [undefined], which is
    what a path of fewer than four teams runs into. *)
Definition simulateUEFAPath (path : Path) (ratings : gmap string Z) : option PlayoffResult :=
  let teamElos :=
    map (fun code => {| te_code := code; te_elo := orDefault (ratings !! code) 1400 |})
        (path_teams path) in
  let sorted := sort byEloDesc teamElos in
  match sorted with
  | t1 :: t2 :: t3 :: t4 :: _ =>
      let e1 := IZR (te_elo t1) in
      let e2 := IZR (te_elo t2) in
      let e3 := IZR (te_elo t3) in
      let e4 := IZR (te_elo t4) in
      let sf1_t1Win := eloWinProbability e1 e4 in
      let sf2_t2Win := eloWinProbability e2 e3 in
      let t1WinsProb :=
        (sf1_t1Win * (sf2_t2Win * eloWinProbability e1 e2
                      + (1 - sf2_t2Win) * eloWinProbability e1 e3))%R in
      let t4WinsProb :=
        ((1 - sf1_t1Win) * (sf2_t2Win * eloWinProbability e4 e2
                            + (1 - sf2_t2Win) * eloWinProbability e4 e3))%R in
      let t2WinsProb :=
        (sf2_t2Win * (sf1_t1Win * eloWinProbability e2 e1
                      + (1 - sf1_t1Win) * eloWinProbability e2 e4))%R in
      let t3WinsProb :=
        ((1 - sf2_t2Win) * (sf1_t1Win * eloWinProbability e3 e1
                            + (1 - sf1_t1Win) * eloWinProbability e3 e4))%R in
      let teamProbs :=
        [ withProb t1 t1WinsProb; withProb t2 t2WinsProb;
          withProb t3 t3WinsProb; withProb t4 t4WinsProb ] in
      let expected :=
        fold_left (fun sum t => (sum + IZR (pt_elo t) * pt_prob t)%R) teamProbs 0%R in
      Some {| expectedElo := Math_round expected;
              minElo := fold_right Z.min (te_elo t1) (map te_elo teamElos);
              maxElo := fold_right Z.max (te_elo t1) (map te_elo teamElos);
              teams := sort byProbDesc teamProbs |}
  | _ => None
  end.

Definition getDifficultyLabel (elo : Z) : string :=
  if 1700 <=? elo then "Hard"
  else if 1500 <=? elo then "Medium"
  else "Easy".

Record MatchProbabilities := { winProb : R; drawProb : R; lossProb : R }.

Definition getMatchProbabilities (teamElo oppElo : R) : MatchProbabilities :=
  let winExpectancy := (1 / (1 + pow10 ((oppElo - teamElo) / 400)))%R in
  let eloDiff := Rabs (teamElo - oppElo) in
  let drawProb := Rmax 0.15 (0.27 - eloDiff * 0.0004) in
  let winProb := (winExpectancy * (1 - drawProb))%R in
  let lossProb := ((1 - winExpectancy) * (1 - drawProb))%R in
  {| winProb := winProb; drawProb := drawProb; lossProb := lossProb |}.

Section GroupMonteCarlo.
(** The values returned by successive calls of [Math.random()]. *)
Variable random : nat -> R.

Definition simulateMatch (teamElo oppElo : Z) (n : nat) : Outcome * nat :=
  let p := getMatchProbabilities (IZR teamElo) (IZR oppElo) in
  let rand := random n in
  (if Rltb rand (winProb p) then win
   else if Rltb rand (winProb p + drawProb p) then draw
   else loss,
   S n).

(** [stats[code]]: totals over all simulations and the count of finishes
    in each of the four positions. *)
Record Stats := {
  wins : Z;
  draws : Z;
  losses : Z;
  points : Z;
  positions : list Z
}.

Definition emptyStats : Stats :=
  {| wins := 0; draws := 0; losses := 0; points := 0; positions := [0; 0; 0; 0] |}.

(** The four per-simulation objects [simPoints], [simWins], [simDraws],
    [simLosses]. *)
Record Tally := {
  simPoints : gmap string Z;
  simWins : gmap string Z;
  simDraws : gmap string Z;
  simLosses : gmap string Z
}.

Definition zeros (teams : list Team) : gmap string Z :=
  fold_left (fun m team => <[code team := 0]> m) teams ∅.

Definition initTally (teams : list Team) : Tally :=
  {| simPoints := zeros teams; simWins := zeros teams;
     simDraws := zeros teams; simLosses := zeros teams |}.

(** [obj[code] += k] *)
Definition bump (k : Z) (c : string) (m : gmap string Z) : gmap string Z :=
  alter (fun v => v + k) c m.

(** [obj[code]] of an object whose keys are the codes of the teams. *)
Definition get (m : gmap string Z) (c : string) : Z := default 0 (m !! c).

Definition playMatch (acc : Tally * nat) (m : Team * Team) : Tally * nat :=
  let '(t, n) := acc in
  let '(teamA, teamB) := m in
  let '(result, n') := simulateMatch (elo teamA) (elo teamB) n in
  match result with
  | win =>
      ({| simPoints := bump 3 (code teamA) (simPoints t);
          simWins := bump 1 (code teamA) (simWins t);
          simDraws := simDraws t;
          simLosses := bump 1 (code teamB) (simLosses t) |}, n')
  | loss =>
      ({| simPoints := bump 3 (code teamB) (simPoints t);
          simWins := bump 1 (code teamB) (simWins t);
          simDraws := simDraws t;
          simLosses := bump 1 (code teamA) (simLosses t) |}, n')
  | draw =>
      ({| simPoints := bump 1 (code teamB) (bump 1 (code teamA) (simPoints t));
          simWins := simWins t;
          simDraws := bump 1 (code teamB) (bump 1 (code teamA) (simDraws t));
          simLosses := simLosses t |}, n')
  end.

Definition accumulate (t : Tally) (stats : gmap string Stats) (team : Team) : gmap string Stats :=
  alter (fun s => {| wins := wins s + get (simWins t) (code team);
                     draws := draws s + get (simDraws t) (code team);
                     losses := losses s + get (simLosses t) (code team);
                     points := points s + get (simPoints t) (code team);
                     positions := positions s |})
        (code team) stats.

(** [{ code, points }], an entry of the standings of one simulation. *)
Record Standing := { st_code : string; st_points : Z }.

(** [.sort((a, b) => b.points - a.points)] *)
Definition byPointsDesc (a b : Standing) : bool := st_points a <? st_points b.

Definition standingsOf (teams : list Team) (t : Tally) : list Standing :=
  sort byPointsDesc
       (map (fun team => {| st_code := code team;
                            st_points := get (simPoints t) (code team) |}) teams).

(** [stats[team.code].positions[index]++].  Past the fourth position the
    source stores NaN in a new array cell that nothing reads; the four
    counters stay as they are, which is what [alter] on a list does. *)
Definition countPosition (stats : gmap string Stats) (it : nat * Standing) : gmap string Stats :=
  let '(index, team) := it in
  alter (fun s => {| wins := wins s; draws := draws s; losses := losses s;
                     points := points s;
                     positions := alter Z.succ index (positions s) |})
        (st_code team) stats.

Definition oneSimulation (teams : list Team) (acc : gmap string Stats * nat)
  : gmap string Stats * nat :=
  let '(stats, n) := acc in
  let matches := pairsInOrder teams in
  let '(t, n') := fold_left playMatch matches (initTally teams, n) in
  let stats1 := fold_left (accumulate t) teams stats in
  let standings := standingsOf teams t in
  (fold_left countPosition (indexed standings) stats1, n').

Definition initStats (teams : list Team) : gmap string Stats :=
  fold_left (fun m team => <[code team := emptyStats]> m) teams ∅.

(** A row of the result of [simulateGroupMonteCarlo]. *)
Record GroupRow := {
  row_code : string;
  row_name : string;
  row_elo : Z;
  row_isPlayoff : bool;
  row_wins : R;
  row_draws : R;
  row_losses : R;
  row_points : R;
  pos1Prob : R;
  pos2Prob : R;
  pos3Prob : R;
  pos4Prob : R;
  qualifyProb : R;
  r16Prob : R
}.

Definition THIRD_PLACE_QUALIFY_RATE : R := (8 / 12)%R.
Definition AVG_R32_OPPONENT_ELO : R := 1650%R.

Definition position (s : Stats) (i : nat) : Z := default 0 (positions s !! i).

(** The function has no length check and no statement that can raise on a
    list of team records: it returns one row per team. *)
Definition simulateGroupMonteCarlo (teams : list Team) (simulations : nat) (n0 : nat)
  : list GroupRow :=
  let '(stats, _) := Nat.iter simulations (oneSimulation teams) (initStats teams, n0) in
  let sims := INR simulations in
  map (fun team =>
         let s := default emptyStats (stats !! code team) in
         let pos1Prob := (IZR (position s 0) / sims)%R in
         let pos2Prob := (IZR (position s 1) / sims)%R in
         let pos3Prob := (IZR (position s 2) / sims)%R in
         let pos4Prob := (IZR (position s 3) / sims)%R in
         let qualifyProb := (pos1Prob + pos2Prob + pos3Prob * THIRD_PLACE_QUALIFY_RATE)%R in
         let r32WinProb :=
           (1 / (1 + pow10 ((AVG_R32_OPPONENT_ELO - IZR (elo team)) / 400)))%R in
         let r16Prob := (qualifyProb * r32WinProb)%R in
         {| row_code := code team; row_name := name team; row_elo := elo team;
            row_isPlayoff := isPlayoff team;
            row_wins := (IZR (wins s) / sims)%R;
            row_draws := (IZR (draws s) / sims)%R;
            row_losses := (IZR (losses s) / sims)%R;
            row_points := (IZR (points s) / sims)%R;
            pos1Prob := pos1Prob; pos2Prob := pos2Prob;
            pos3Prob := pos3Prob; pos4Prob := pos4Prob;
            qualifyProb := qualifyProb; r16Prob := r16Prob |})
      teams.

End GroupMonteCarlo.

(** [arr.reduce((sum, t) => sum + (ratings[t] || 0), 0)] *)
Definition sumElo (ratings : gmap string Z) (codes : list string) : Z :=
  fold_left (fun sum t => sum + orDefault (ratings !! t) 0) codes 0.

(** The opponents that are counted: not the team itself and not the
    placeholder of an undecided playoff place. *)
Definition calculateGroupOpponentSoS (teamCode : string) (groupTeams : list string)
  (ratings : gmap string Z) : Z :=
  let opponents :=
    List.filter (fun t => negb (String.eqb t teamCode)
                          && negb (String.prefix "UEFA_" t)
                          && negb (String.prefix "FIFA_" t)) groupTeams in
  if (length opponents =? 0)%nat then 0
  else Math_round (IZR (sumElo ratings opponents) / INR (length opponents)).

Definition calculateGroupStrength (groupTeams : list string) (ratings : gmap string Z) : Z :=
  let confirmedTeams :=
    List.filter (fun t => negb (String.prefix "UEFA_" t) && negb (String.prefix "FIFA_" t))
                groupTeams in
  if (length confirmedTeams =? 0)%nat then 0
  else Math_round (IZR (sumElo ratings confirmedTeams) / INR (length confirmedTeams)).

End SosCalculator.

(** ** lib/bracketSimulator.js *)
Module BracketSimulator.
Import Js.

Record MatchProbabilities := { winProb : R; drawProb : R; lossProb : R }.

Definition getMatchProbabilities (teamElo oppElo : R) : MatchProbabilities :=
  let winExpectancy := (1 / (1 + pow10 ((oppElo - teamElo) / 400)))%R in
  let eloDiff := Rabs (teamElo - oppElo) in
  let drawProb := Rmax 0.15 (0.27 - eloDiff * 0.0004) in
  let winProb := (winExpectancy * (1 - drawProb))%R in
  let lossProb := ((1 - winExpectancy) * (1 - drawProb))%R in
  {| winProb := winProb; drawProb := drawProb; lossProb := lossProb |}.

(** [stats[code] = { points, gd, elo }] *)
Record GroupStat := { s_points : Z; s_gd : Z; s_elo : Z }.

(** An object whose entries are enumerated: the keys in insertion order
    (team codes are not array indices, which JavaScript would move to the
    front). *)
Fixpoint statsSet (k : string) (v : GroupStat) (l : list (string * GroupStat))
  : list (string * GroupStat) :=
  match l with
  | [] => [(k, v)]
  | (k', v') :: l' => if String.eqb k k' then (k', v) :: l' else (k', v') :: statsSet k v l'
  end.

Fixpoint statsAlter (f : GroupStat -> GroupStat) (k : string) (l : list (string * GroupStat))
  : list (string * GroupStat) :=
  match l with
  | [] => []
  | (k', v') :: l' =>
      if String.eqb k k' then (k', f v') :: l' else (k', v') :: statsAlter f k l'
  end.

Definition addPoints (d : Z) (s : GroupStat) : GroupStat :=
  {| s_points := s_points s + d; s_gd := s_gd s; s_elo := s_elo s |}.

Definition addGd (d : Z) (s : GroupStat) : GroupStat :=
  {| s_points := s_points s; s_gd := s_gd s + d; s_elo := s_elo s |}.

(** A team as it moves through one simulated tournament: an entry of a
    group's standings, [{ code, points, gd, elo }]; a third-place entry
    also carries its [group]. *)
Record Entrant := {
  e_code : string;
  e_points : Z;
  e_gd : Z;
  e_elo : Z;
  e_group : option string
}.

(** The comparator of both sorts: points, then goal difference, then
    rating, each descending.  [rankedAfter a b] is [cmp(a, b) > 0]. *)
Definition rankedAfter (a b : Entrant) : bool :=
  if negb (e_points b =? e_points a) then e_points a <? e_points b
  else if negb (e_gd b =? e_gd a) then e_gd a <? e_gd b
  else e_elo a <? e_elo b.

Inductive Slot :=
| PoolSlot (pool : list string)
| GroupSlot (pos : option Z) (group : option string).

(** [parseInt] of a one-character string ([None] is NaN). *)
Definition parseDigit (c : option ascii) : option Z :=
  match c with
  | Some a =>
      let n := Z.of_nat (nat_of_ascii a) - 48 in
      if (0 <=? n) && (n <=? 9) then Some n else None
  | None => None
  end.

Fixpoint chars (s : string) : list string :=
  match s with
  | EmptyString => []
  | String a s' => String a EmptyString :: chars s'
  end.

Definition parseSlot (slot : string) : Slot :=
  match slot with
  | String "3"%char rest => PoolSlot (chars rest)
  | _ =>
      GroupSlot (parseDigit (String.get 0 slot))
                (option_map (fun a => String a EmptyString) (String.get 1 slot))
  end.

Record R32Match := { r32_match : Z; team1 : string; team2 : string }.
Record KnockoutMatch := { ko_match : Z; prevMatches : list Z }.

Record Knockout := {
  r32 : list R32Match;
  r16 : list KnockoutMatch;
  qf : list KnockoutMatch;
  sf : list KnockoutMatch;
  final : list KnockoutMatch
}.

(** [groupData]: the groups in the order of [Object.entries], each with
    its team codes, and the knockout structure. *)
Record GroupData := {
  groups : list (string * list string);
  knockout : Knockout
}.

(** [teamStats[code]] *)
Record TeamStats := {
  ts_code : string;
  ts_name : string;
  ts_elo : Z;
  ts_isPlayoff : bool;
  groupWins : Z;
  groupDraws : Z;
  groupLosses : Z;
  groupPoints : Z;
  positions : list Z;
  r32Count : Z;
  r16Count : Z;
  qfCount : Z;
  sfCount : Z;
  finalCount : Z;
  winCount : Z
}.

(** The counters that a simulation increments. *)
Inductive Counter := CR32 | CR16 | CQF | CSF | CFinal | CWin.

#[global] Instance Counter_eq_dec : EqDecision Counter.
Proof. solve_decision. Defined.

Definition increment (k : Counter) (s : TeamStats) : TeamStats :=
  {| ts_code := ts_code s; ts_name := ts_name s; ts_elo := ts_elo s;
     ts_isPlayoff := ts_isPlayoff s;
     groupWins := groupWins s; groupDraws := groupDraws s;
     groupLosses := groupLosses s; groupPoints := groupPoints s;
     positions := positions s;
     r32Count := match k with CR32 => r32Count s + 1 | _ => r32Count s end;
     r16Count := match k with CR16 => r16Count s + 1 | _ => r16Count s end;
     qfCount := match k with CQF => qfCount s + 1 | _ => qfCount s end;
     sfCount := match k with CSF => sfCount s + 1 | _ => sfCount s end;
     finalCount := match k with CFinal => finalCount s + 1 | _ => finalCount s end;
     winCount := match k with CWin => winCount s + 1 | _ => winCount s end |}.

Definition countPosition (pos : nat) (s : TeamStats) : TeamStats :=
  {| ts_code := ts_code s; ts_name := ts_name s; ts_elo := ts_elo s;
     ts_isPlayoff := ts_isPlayoff s;
     groupWins := groupWins s; groupDraws := groupDraws s;
     groupLosses := groupLosses s; groupPoints := groupPoints s;
     positions := alter Z.succ pos (positions s);
     r32Count := r32Count s; r16Count := r16Count s; qfCount := qfCount s;
     sfCount := sfCount s; finalCount := finalCount s; winCount := winCount s |}.

(** [teamStats[code].<counter>++] *)
Definition credit (k : Counter) (c : string) (ts : gmap string TeamStats)
  : gmap string TeamStats :=
  alter (increment k) c ts.

(** [code.replace('_', ' ')]: the first underscore only. *)
Fixpoint replaceUnderscore (s : string) : string :=
  match s with
  | EmptyString => EmptyString
  | String "_"%char s' => String " "%char s'
  | String a s' => String a (replaceUnderscore s')
  end.

Definition isPlayoffCode (c : string) : bool :=
  String.prefix "UEFA_" c || String.prefix "FIFA_" c.

(** [teamNames[code] || code]: a missing or empty name is falsy. *)
Definition nameOr (v : option string) (c : string) : string :=
  match v with
  | Some EmptyString | None => c
  | Some n => n
  end.

Definition makeTeam (ratings expectedElos : gmap string Z) (teamNames : gmap string string)
  (c : string) : Team :=
  let isPlayoff := isPlayoffCode c in
  {| code := c;
     name := if isPlayoff then replaceUnderscore c else nameOr (teamNames !! c) c;
     elo := if isPlayoff then orDefault (expectedElos !! c) 1400
            else orDefault (ratings !! c) 1400;
     isPlayoff := isPlayoff |}.

Definition newTeamStats (t : Team) : TeamStats :=
  {| ts_code := code t; ts_name := name t; ts_elo := elo t; ts_isPlayoff := isPlayoff t;
     groupWins := 0; groupDraws := 0; groupLosses := 0; groupPoints := 0;
     positions := [0; 0; 0; 0];
     r32Count := 0; r16Count := 0; qfCount := 0; sfCount := 0;
     finalCount := 0; winCount := 0 |}.

(** [if (!teamStats[code]) teamStats[code] = {...}] *)
Definition initTeam (ts : gmap string TeamStats) (t : Team) : gmap string TeamStats :=
  match ts !! code t with
  | Some _ => ts
  | None => <[code t := newTeamStats t]> ts
  end.

(** A row of the result. *)
Record TournamentRow := {
  row_code : string;
  row_name : string;
  row_elo : Z;
  row_isPlayoff : bool;
  pos1Prob : R;
  pos2Prob : R;
  pos3Prob : R;
  pos4Prob : R;
  r32Prob : R;
  r16Prob : R;
  qfProb : R;
  sfProb : R;
  finalProb : R;
  rowWinProb : R
}.

(** [.sort((a, b) => b.r32Prob - a.r32Prob)] *)
Definition byR32Desc (a b : TournamentRow) : bool := Rltb (r32Prob a) (r32Prob b).

Section Simulation.
(** The values returned by successive calls of [Math.random()]. *)
Variable random : nat -> R.

Definition simulateGroupMatch (teamElo oppElo : Z) (n : nat) : Outcome * nat :=
  let p := getMatchProbabilities (IZR teamElo) (IZR oppElo) in
  let rand := random n in
  (if Rltb rand (winProb p) then win
   else if Rltb rand (winProb p + drawProb p) then draw
   else loss,
   S n).

Definition simulateKnockoutMatch (team1Elo team2Elo : Z) (n : nat) : Z * nat :=
  let winProb := (1 / (1 + pow10 ((IZR team2Elo - IZR team1Elo) / 400)))%R in
  (if Rltb (random n) winProb then 1 else 2, S n).

(** The body of the two nested loops of [simulateGroup]. *)
Definition playPair (ti tj : Team) (acc : list (string * GroupStat) * nat)
  : list (string * GroupStat) * nat :=
  let '(stats, n) := acc in
  let '(result, n') := simulateGroupMatch (elo ti) (elo tj) n in
  match result with
  | win =>
      (statsAlter (addGd (-1)) (code tj)
         (statsAlter (addGd 1) (code ti)
            (statsAlter (addPoints 3) (code ti) stats)), n')
  | loss =>
      (statsAlter (addGd (-1)) (code ti)
         (statsAlter (addGd 1) (code tj)
            (statsAlter (addPoints 3) (code tj) stats)), n')
  | draw =>
      (statsAlter (addPoints 1) (code tj)
         (statsAlter (addPoints 1) (code ti) stats), n')
  end.

(** [for (i...) for (j = i + 1...)] over [teams]. *)
Fixpoint groupLoop (teams : list Team) (acc : list (string * GroupStat) * nat)
  : list (string * GroupStat) * nat :=
  match teams with
  | [] => acc
  | ti :: rest => groupLoop rest (fold_left (fun acc tj => playPair ti tj acc) rest acc)
  end.

Definition initGroupStats (teams : list Team) : list (string * GroupStat) :=
  fold_left (fun st t => statsSet (code t) {| s_points := 0; s_gd := 0; s_elo := elo t |} st)
            teams [].

Definition toEntrant (e : string * GroupStat) : Entrant :=
  {| e_code := fst e; e_points := s_points (snd e); e_gd := s_gd (snd e);
     e_elo := s_elo (snd e); e_group := None |}.

Definition simulateGroup (teams : list Team) (n : nat) : list Entrant * nat :=
  let '(stats, n') := groupLoop teams (initGroupStats teams, n) in
  (sort rankedAfter (map toEntrant stats), n').

(** Step 1 of an iteration, for one group: simulate it, record it in
    [groupStandings], count the positions, credit the first two with the
    Round of 32 and collect the third. *)
Record GroupStage := {
  groupStandings : gmap string (list Entrant);
  thirdPlaceTeams : list Entrant;
  gs_teamStats : gmap string TeamStats;
  gs_next : nat
}.

Definition recordStanding (ts : gmap string TeamStats) (it : nat * Entrant)
  : gmap string TeamStats :=
  let '(pos, team) := it in
  let ts1 := alter (countPosition pos) (e_code team) ts in
  if (pos =? 0)%nat || (pos =? 1)%nat then credit CR32 (e_code team) ts1 else ts1.

Definition withGroup (g : string) (e : Entrant) : Entrant :=
  {| e_code := e_code e; e_points := e_points e; e_gd := e_gd e;
     e_elo := e_elo e; e_group := Some g |}.

Definition groupStep (st : GroupStage) (g : string * list Team) : GroupStage :=
  let '(groupName, teams) := g in
  let '(standings, n') := simulateGroup teams (gs_next st) in
  {| groupStandings := <[groupName := standings]> (groupStandings st);
     thirdPlaceTeams :=
       match standings !! 2%nat with
       | Some third => thirdPlaceTeams st ++ [withGroup groupName third]
       | None => thirdPlaceTeams st
       end;
     gs_teamStats := fold_left recordStanding (indexed standings) (gs_teamStats st);
     gs_next := n' |}.

(** Step 2: the best eight third-place teams. *)
Definition qualifiers (thirds : list Entrant) : list Entrant :=
  take 8 (sort rankedAfter thirds).

Definition creditAll (k : Counter) (l : list Entrant) (ts : gmap string TeamStats)
  : gmap string TeamStats :=
  fold_left (fun ts t => credit k (e_code t) ts) l ts.

(** [groupStandings[slot.group][i]]; the outer [None] is the [TypeError]
    of indexing [undefined] when the group is unknown. *)
Definition standingAt (gs : gmap string (list Entrant)) (group : option string) (i : nat)
  : option (option Entrant) :=
  match group with
  | Some g =>
      match gs !! g with
      | Some standings => Some (standings !! i)
      | None => None
      end
  | None => None
  end.

(** [slot.pool.includes(t.group)] *)
Definition inPool (pool : list string) (t : Entrant) : bool :=
  match e_group t with
  | Some g => existsb (String.eqb g) pool
  | None => false
  end.

(** [find] the first element that satisfies [p] and [splice] it out. *)
Fixpoint takeFirst {A : Type} (p : A -> bool) (l : list A) : option (A * list A) :=
  match l with
  | [] => None
  | x :: l' =>
      if p x then Some (x, l')
      else match takeFirst p l' with
           | Some (y, rest) => Some (y, x :: rest)
           | None => None
           end
  end.

(** The first slot of a Round-of-32 match: only positions 1 and 2 are
    looked at. *)
Definition resolveTeam1 (gs : gmap string (list Entrant)) (slot1 : Slot)
  : option (option Entrant) :=
  match slot1 with
  | GroupSlot (Some 2) g => standingAt gs g 1
  | GroupSlot (Some 1) g => standingAt gs g 0
  | _ => Some None
  end.

(** The second slot, which may also take a third-place team out of the
    qualifiers. *)
Definition resolveTeam2 (gs : gmap string (list Entrant)) (slot2 : Slot)
  (qualifyingThirds : list Entrant) : option (option Entrant * list Entrant) :=
  match slot2 with
  | GroupSlot (Some 2) g => option_map (fun t => (t, qualifyingThirds)) (standingAt gs g 1)
  | GroupSlot (Some 1) g => option_map (fun t => (t, qualifyingThirds)) (standingAt gs g 0)
  | PoolSlot pool =>
      match takeFirst (inPool pool) qualifyingThirds with
      | Some (matchingThird, rest) => Some (Some matchingThird, rest)
      | None => Some (None, qualifyingThirds)
      end
  | _ => Some (None, qualifyingThirds)
  end.

(** The state of the knockout loops: the winners of the round being
    played, the statistics and the next random draw. *)
Record Round := {
  winners : gmap Z Entrant;
  rd_teamStats : gmap string TeamStats;
  rd_next : nat
}.

(** [if (team1 && team2) { ... }] *)
Definition playKnockout (k : Counter) (id : Z) (team1 team2 : option Entrant) (rd : Round)
  : Round :=
  match team1, team2 with
  | Some t1, Some t2 =>
      let '(winner, n') := simulateKnockoutMatch (e_elo t1) (e_elo t2) (rd_next rd) in
      let w := if winner =? 1 then t1 else t2 in
      {| winners := <[id := w]> (winners rd);
         rd_teamStats := credit k (e_code w) (rd_teamStats rd);
         rd_next := n' |}
  | _, _ => rd
  end.

(** Step 3, one Round-of-32 match. *)
Definition r32Step (gs : gmap string (list Entrant))
  (acc : option (list Entrant * Round)) (m : R32Match) : option (list Entrant * Round) :=
  match acc with
  | None => None
  | Some (qualifyingThirds, rd) =>
      match resolveTeam1 gs (parseSlot (team1 m)) with
      | None => None
      | Some t1 =>
          match resolveTeam2 gs (parseSlot (team2 m)) qualifyingThirds with
          | None => None
          | Some (t2, rest) => Some (rest, playKnockout CR16 (r32_match m) t1 t2 rd)
          end
      end
  end.

(** Steps 4 to 6, one match of a later round. *)
Definition roundStep (k : Counter) (prev : gmap Z Entrant) (rd : Round) (m : KnockoutMatch)
  : Round :=
  let team1 := prevMatches m !! 0%nat ≫= (prev !!.) in
  let team2 := prevMatches m !! 1%nat ≫= (prev !!.) in
  playKnockout k (ko_match m) team1 team2 rd.

Definition playRound (k : Counter) (ms : list KnockoutMatch) (prev : Round) : Round :=
  fold_left (roundStep k (winners prev)) ms
            {| winners := ∅; rd_teamStats := rd_teamStats prev; rd_next := rd_next prev |}.

(** One iteration of the simulation loop.  [None] is a [TypeError]: a slot
    that names an unknown group, or a knockout structure without a final. *)
Definition iteration (allTeams : list (string * list Team)) (ko : Knockout)
  (acc : option (gmap string TeamStats * nat)) : option (gmap string TeamStats * nat) :=
  match acc with
  | None => None
  | Some (teamStats, n) =>
      let st := fold_left groupStep allTeams
                  {| groupStandings := ∅; thirdPlaceTeams := [];
                     gs_teamStats := teamStats; gs_next := n |} in
      let qualifyingThirds := qualifiers (thirdPlaceTeams st) in
      let ts2 := creditAll CR32 qualifyingThirds (gs_teamStats st) in
      match fold_left (r32Step (groupStandings st)) (r32 ko)
              (Some (qualifyingThirds,
                     {| winners := ∅; rd_teamStats := ts2; rd_next := gs_next st |})) with
      | None => None
      | Some (_, r32Winners) =>
          let r16Winners := playRound CQF (r16 ko) r32Winners in
          let qfWinners := playRound CSF (qf ko) r16Winners in
          let sfWinners := playRound CFinal (sf ko) qfWinners in
          match final ko !! 0%nat with
          | None => None
          | Some finalMatch =>
              let done := playRound CWin [finalMatch] sfWinners in
              Some (rd_teamStats done, rd_next done)
          end
      end
  end.

Definition position (s : TeamStats) (i : nat) : Z := default 0 (positions s !! i).

Definition toRow (teamStats : gmap string TeamStats) (simulations : nat) (team : Team)
  : TournamentRow :=
  let s := default (newTeamStats team) (teamStats !! code team) in
  let sims := INR simulations in
  {| row_code := code team; row_name := name team; row_elo := elo team;
     row_isPlayoff := isPlayoff team;
     pos1Prob := (IZR (position s 0) / sims)%R;
     pos2Prob := (IZR (position s 1) / sims)%R;
     pos3Prob := (IZR (position s 2) / sims)%R;
     pos4Prob := (IZR (position s 3) / sims)%R;
     r32Prob := (IZR (r32Count s) / sims)%R;
     r16Prob := (IZR (r16Count s) / sims)%R;
     qfProb := (IZR (qfCount s) / sims)%R;
     sfProb := (IZR (sfCount s) / sims)%R;
     finalProb := (IZR (finalCount s) / sims)%R;
     rowWinProb := (IZR (winCount s) / sims)%R |}.

Definition buildTeams (groupData : GroupData) (ratings expectedElos : gmap string Z)
  (teamNames : gmap string string) : list (string * list Team) :=
  map (fun g => (fst g, map (makeTeam ratings expectedElos teamNames) (snd g)))
      (groups groupData).

Definition initTeamStats (allTeams : list (string * list Team)) : gmap string TeamStats :=
  fold_left (fun ts g => fold_left initTeam (snd g) ts) allTeams ∅.

Definition simulateTournament (groupData : GroupData) (ratings expectedElos : gmap string Z)
  (teamNames : gmap string string) (simulations : nat) (n0 : nat)
  : option (list (string * list TournamentRow)) :=
  let allTeams := buildTeams groupData ratings expectedElos teamNames in
  match Nat.iter simulations (iteration allTeams (knockout groupData))
          (Some (initTeamStats allTeams, n0)) with
  | None => None
  | Some (teamStats, _) =>
      Some (map (fun g => (fst g, sort byR32Desc (map (toRow teamStats simulations) (snd g))))
                allTeams)
  end.

End Simulation.

End BracketSimulator.
(** ** public/app.js: the interactive bracket *)
Module App.
Import Js.

(** A team object of the bracket.  The resolved slot of a group position
    carries [baseProb] and [slot], a third-place placeholder carries
    [isThirdPlace] and [pool], a projected winner carries [winProb]; an
    override is [{ code, name, elo }] alone. *)
Record BracketTeam := {
  bt_code : string;
  bt_name : string;
  bt_elo : Z;
  isThirdPlace : bool;
  bt_pool : option string;
  baseProb : option R;
  bt_slot : option string;
  bt_winProb : option R
}.

(** [{ code: team.code, name: team.name, elo: team.elo }] *)
Definition lockOf (team : BracketTeam) : BracketTeam :=
  {| bt_code := bt_code team; bt_name := bt_name team; bt_elo := bt_elo team;
     isThirdPlace := false; bt_pool := None; baseProb := None;
     bt_slot := None; bt_winProb := None |}.

(** [{ ...team, winProb: p }] *)
Definition withWinProb (team : BracketTeam) (p : R) : BracketTeam :=
  {| bt_code := bt_code team; bt_name := bt_name team; bt_elo := bt_elo team;
     isThirdPlace := isThirdPlace team; bt_pool := bt_pool team;
     baseProb := baseProb team; bt_slot := bt_slot team; bt_winProb := Some p |}.

(** A match of the knockout structure as the bracket reads it: a
    Round-of-32 match has the two slots, a later match has [prevMatches]. *)
Record Match := {
  match_id : Z;
  team1 : option string;
  team2 : option string;
  prevMatches : option (list Z)
}.

Record Knockout := {
  r32 : list Match;
  r16 : list Match;
  qf : list Match;
  sf : list Match;
  final : list Match
}.

(** [sosData]: the group simulation received from the server (the output
    of the tournament simulator) and the knockout structure. *)
Record SosData := {
  groupSimulation : option (gmap string (list BracketSimulator.TournamentRow));
  sd_knockout : Knockout
}.

Definition knockoutWinProb (elo1 elo2 : Z) : R :=
  (1 / (1 + pow10 ((IZR elo2 - IZR elo1) / 400)))%R.

Definition posProbOf (pos : option Z) (row : BracketSimulator.TournamentRow) : R :=
  match pos with
  | Some 1 => BracketSimulator.pos1Prob row
  | _ => BracketSimulator.pos2Prob row
  end.

Definition hasCode (teamCode : string) (t : BracketTeam) : bool :=
  String.eqb (bt_code t) teamCode.

(** The teams that are not [null]. *)
Definition present (t : option BracketTeam) : list BracketTeam :=
  match t with
  | Some x => [x]
  | None => []
  end.

Definition allMatches (knockout : Knockout) : list Match :=
  r32 knockout ++ r16 knockout ++ qf knockout ++ sf knockout ++ final knockout.

Definition findMatch (matchId : Z) (knockout : Knockout) : option Match :=
  find (fun m => match_id m =? matchId) (allMatches knockout).

(** [match.prevMatches && match.prevMatches.includes(matchId)] *)
Definition feeds (matchId : Z) (m : Match) : bool :=
  match prevMatches m with
  | Some prevs => existsb (Z.eqb matchId) prevs
  | None => false
  end.

Definition laterMatches (knockout : Knockout) : list Match :=
  r16 knockout ++ qf knockout ++ sf knockout ++ final knockout.

(** [delete bracketOverrides[match.match]] for every match that depends on
    [matchId].  [None] stands for the recursion that does not end when the
    structure has a cycle. *)
Fixpoint clearDownstreamOverrides (fuel : nat) (matchId : Z) (knockout : Knockout)
  (ov : gmap Z BracketTeam) : option (gmap Z BracketTeam) :=
  match fuel with
  | O => None
  | S f =>
      fold_left
        (fun acc m =>
           match acc with
           | None => None
           | Some ov' =>
               if feeds matchId m
               then clearDownstreamOverrides f (match_id m) knockout (delete (match_id m) ov')
               else Some ov'
           end)
        (laterMatches knockout) (Some ov)
  end.

Definition resetBracket : gmap Z BracketTeam := ∅.

(** [Object.entries(bracketOverrides)]: integer keys in ascending order. *)
Definition entries (ov : gmap Z BracketTeam) : list (Z * BracketTeam) :=
  sort (fun a b => fst b <? fst a) (map_to_list ov).

Section Bracket.
Variable sosData : SosData.

(** [None] is the [TypeError] of a missing slot notation or of an empty
    group; [Some None] is [null]. *)
Definition resolveBracketSlot (slot : option string) : option (option BracketTeam) :=
  match groupSimulation sosData with
  | None => Some None
  | Some groupSim =>
      match slot with
      | None => None
      | Some (String "3"%char pool) =>
          Some (Some {| bt_code := "3rd-" ++ pool;
                        bt_name := "3rd (" ++ pool ++ ")";
                        bt_elo := 1600;
                        isThirdPlace := true;
                        bt_pool := Some pool;
                        baseProb := Some 0.67%R;
                        bt_slot := None;
                        bt_winProb := None |})
      | Some slot =>
          let pos := BracketSimulator.parseDigit (String.get 0 slot) in
          let group := option_map (fun a => String a EmptyString) (String.get 1 slot) in
          match group ≫= (groupSim !!.) with
          | None => Some None
          | Some groupData =>
              if match pos with
                 | Some p => Z.of_nat (length groupData) <? p
                 | None => false
                 end
              then Some None
              else
                let sortedByPos :=
                  sort (fun a b => Rltb (posProbOf pos a) (posProbOf pos b)) groupData in
                match sortedByPos with
                | [] => None
                | team :: _ =>
                    Some (Some {| bt_code := BracketSimulator.row_code team;
                                  bt_name := BracketSimulator.row_name team;
                                  bt_elo := BracketSimulator.row_elo team;
                                  isThirdPlace := false;
                                  bt_pool := None;
                                  baseProb := Some (posProbOf pos team);
                                  bt_slot := Some slot;
                                  bt_winProb := None |})
                end
          end
      end
  end.

(** One fuel unit per level of recursion on [prevMatches]; [None] is an
    exception (a [TypeError] of [resolveBracketSlot], or the recursion
    running out). *)
Fixpoint getPossibleTeamsFromMatch (fuel : nat) (matchId : Z) (knockout : Knockout)
  (ov : gmap Z BracketTeam) : option (list BracketTeam) :=
  match fuel with
  | O => None
  | S f =>
      match findMatch matchId knockout with
      | None => Some []
      | Some m =>
          match ov !! matchId with
          | Some override => Some [override]
          | None =>
              if matchId <=? 16 then
                t1 ← resolveBracketSlot (team1 m);
                t2 ← resolveBracketSlot (team2 m);
                Some (present t1 ++ present t2)
              else
                match prevMatches m with
                | Some prevs =>
                    fold_left
                      (fun acc prevMatchId =>
                         teams ← acc;
                         more ← getPossibleTeamsFromMatch f prevMatchId knockout ov;
                         Some (teams ++ more))
                      prevs (Some [])
                | None => Some []
                end
          end
      end
  end.

(** The helper of [findUpstreamMatches]: the first match of a round whose
    possible teams include the code.  Matches after it are not looked at. *)
Fixpoint findTeamInRound (fuel : nat) (teamCode : string) (matches : list Match)
  (knockout : Knockout) (ov : gmap Z BracketTeam) : option (option Match) :=
  match matches with
  | [] => Some None
  | m :: rest =>
      possibleTeams ← getPossibleTeamsFromMatch fuel (match_id m) knockout ov;
      if existsb (hasCode teamCode) possibleTeams then Some (Some m)
      else findTeamInRound fuel teamCode rest knockout ov
  end.

(** The loop over the rounds, with its [break] at the target match. *)
Fixpoint upstreamLoop (fuel : nat) (teamCode : string) (targetMatchId : Z)
  (rounds : list (list Match)) (knockout : Knockout) (ov : gmap Z BracketTeam)
  (upstreamPath : list Z) : option (list Z) :=
  match rounds with
  | [] => Some upstreamPath
  | matches :: rest =>
      found ← findTeamInRound fuel teamCode matches knockout ov;
      match found with
      | Some m =>
          if match_id m =? targetMatchId then Some (upstreamPath ++ [match_id m])
          else upstreamLoop fuel teamCode targetMatchId rest knockout ov
                 (upstreamPath ++ [match_id m])
      | None => upstreamLoop fuel teamCode targetMatchId rest knockout ov upstreamPath
      end
  end.

Definition findUpstreamMatches (fuel : nat) (teamCode : string) (targetMatchId : Z)
  (knockout : Knockout) (ov : gmap Z BracketTeam) : option (list Z) :=
  upstreamLoop fuel teamCode targetMatchId
    [r32 knockout; r16 knockout; qf knockout; sf knockout; final knockout]
    knockout ov [].

(** The override map after a click on [team] in match [matchId]; [None]
    when the handler ends in an exception. *)
Definition handleBracketClick (fuel : nat) (matchId : Z) (team : option BracketTeam)
  (ov : gmap Z BracketTeam) : option (gmap Z BracketTeam) :=
  match team with
  | None => Some ov
  | Some team =>
      let knockout := sd_knockout sosData in
      let selected :=
        match ov !! matchId with
        | Some o => String.eqb (bt_code o) (bt_code team)
        | None => false
        end in
      upstreamPath ← findUpstreamMatches fuel (bt_code team) matchId knockout ov;
      let ov1 :=
        if selected
        then fold_left (fun o mId => delete mId o) upstreamPath ov
        else fold_left (fun o mId => <[mId := lockOf team]> o) upstreamPath ov in
      clearDownstreamOverrides fuel matchId knockout ov1
  end.

(** [prob1 >= 0.5 ? { ...a, winProb: prob1 } : { ...b, winProb: 1 - prob1 }] *)
Definition favourite (a b : BracketTeam) : BracketTeam :=
  let prob1 := knockoutWinProb (bt_elo a) (bt_elo b) in
  if Rle_dec 0.5 prob1 then withWinProb a prob1 else withWinProb b (1 - prob1)%R.

Fixpoint getMatchWinner (fuel : nat) (ov : gmap Z BracketTeam) (knockout : Knockout)
  (matchId : Z) : option (option BracketTeam) :=
  match fuel with
  | O => None
  | S f =>
      match ov !! matchId with
      | Some override => Some (Some override)
      | None =>
          match findMatch matchId knockout with
          | None => Some None
          | Some m =>
              if matchId <=? 16 then
                t1 ← resolveBracketSlot (team1 m);
                t2 ← resolveBracketSlot (team2 m);
                match t1, t2 with
                | Some a, Some b => Some (Some (favourite a b))
                | _, _ => Some None
                end
              else
                match prevMatches m with
                | Some prevs =>
                    prev1 ← from_option (getMatchWinner f ov knockout) (Some None)
                              (prevs !! 0%nat);
                    prev2 ← from_option (getMatchWinner f ov knockout) (Some None)
                              (prevs !! 1%nat);
                    match prev1, prev2 with
                    | Some a, Some b => Some (Some (favourite a b))
                    | _, _ => Some None
                    end
                | None => Some None
                end
          end
      end
  end.

Definition getMatchTeamsWithProb (fuel : nat) (matchId : Z) (knockout : Knockout)
  (ov : gmap Z BracketTeam) : option (option BracketTeam * option BracketTeam) :=
  match findMatch matchId knockout with
  | None => Some (None, None)
  | Some m =>
      if matchId <=? 16 then
        t1 ← resolveBracketSlot (team1 m);
        t2 ← resolveBracketSlot (team2 m);
        Some (t1, t2)
      else
        match prevMatches m with
        | Some prevs =>
            w1 ← from_option (getMatchWinner fuel ov knockout) (Some None) (prevs !! 0%nat);
            w2 ← from_option (getMatchWinner fuel ov knockout) (Some None) (prevs !! 1%nat);
            Some (w1, w2)
        | None => Some (None, None)
        end
  end.

(** The first loop of [getTeamElo], over the Round-of-32 matches. *)
Fixpoint eloFromSlots (teamCode : string) (r32Matches : list Match) : option (option Z) :=
  match r32Matches with
  | [] => Some None
  | m :: rest =>
      t1 ← resolveBracketSlot (team1 m);
      t2 ← resolveBracketSlot (team2 m);
      match t1 with
      | Some a =>
          if hasCode teamCode a then Some (Some (bt_elo a))
          else match t2 with
               | Some b =>
                   if hasCode teamCode b then Some (Some (bt_elo b))
                   else eloFromSlots teamCode rest
               | None => eloFromSlots teamCode rest
               end
      | None =>
          match t2 with
          | Some b =>
              if hasCode teamCode b then Some (Some (bt_elo b))
              else eloFromSlots teamCode rest
          | None => eloFromSlots teamCode rest
          end
      end
  end.

Definition getTeamElo (teamCode : string) (knockout : Knockout) (ov : gmap Z BracketTeam)
  : option Z :=
  fromSlots ← eloFromSlots teamCode (r32 knockout);
  match fromSlots with
  | Some e => Some e
  | None =>
      match find (fun e => hasCode teamCode (snd e) && negb (bt_elo (snd e) =? 0))
                 (entries ov) with
      | Some e => Some (bt_elo (snd e))
      | None => Some 1500
      end
  end.

(** [getCumulativeProbWin], [getProbOfReaching] and [getWeightedWinProb]
    call one another; one fuel unit per call. *)
Fixpoint getCumulativeProbWin (fuel : nat) (teamCode : string) (matchId : Z)
  (knockout : Knockout) (ov : gmap Z BracketTeam) {struct fuel} : option R :=
  match fuel with
  | O => None
  | S f =>
      match findMatch matchId knockout with
      | None => Some 0%R
      | Some m =>
          match ov !! matchId with
          | Some override =>
              if String.eqb (bt_code override) teamCode
              then getProbOfReaching f teamCode matchId knockout ov
              else Some 0%R
          | None =>
              reachProb ← getProbOfReaching f teamCode matchId knockout ov;
              if Req_dec_T reachProb 0 then Some 0%R
              else if matchId <=? 16 then
                teams ← getMatchTeamsWithProb f matchId knockout ov;
                match teams with
                | (Some t1, Some t2) =>
                    let team := if hasCode teamCode t1 then t1 else t2 in
                    let opponent := if hasCode teamCode t1 then t2 else t1 in
                    Some (reachProb * knockoutWinProb (bt_elo team) (bt_elo opponent))%R
                | _ => Some reachProb
                end
              else
                teamElo ← getTeamElo teamCode knockout ov;
                weightedWinProb ← getWeightedWinProb f teamCode teamElo matchId knockout ov;
                Some (reachProb * weightedWinProb)%R
          end
      end
  end
with getProbOfReaching (fuel : nat) (teamCode : string) (matchId : Z)
  (knockout : Knockout) (ov : gmap Z BracketTeam) {struct fuel} : option R :=
  match fuel with
  | O => None
  | S f =>
      match findMatch matchId knockout with
      | None => Some 0%R
      | Some m =>
          if matchId <=? 16 then
            t1 ← resolveBracketSlot (team1 m);
            t2 ← resolveBracketSlot (team2 m);
            if existsb (hasCode teamCode) (present t1 ++ present t2)
            then Some 1%R else Some 0%R
          else
            match prevMatches m with
            | Some prevs =>
                (fix loop (l : list Z) : option R :=
                   match l with
                   | [] => Some 0%R
                   | prevMatchId :: rest =>
                       match ov !! prevMatchId with
                       | Some prevOverride =>
                           if String.eqb (bt_code prevOverride) teamCode
                           then getProbOfReaching f teamCode prevMatchId knockout ov
                           else
                             possibleTeams ←
                               getPossibleTeamsFromMatch f prevMatchId knockout ov;
                             if existsb (hasCode teamCode) possibleTeams
                             then getCumulativeProbWin f teamCode prevMatchId knockout ov
                             else loop rest
                       | None =>
                           possibleTeams ←
                             getPossibleTeamsFromMatch f prevMatchId knockout ov;
                           if existsb (hasCode teamCode) possibleTeams
                           then getCumulativeProbWin f teamCode prevMatchId knockout ov
                           else loop rest
                       end
                   end) prevs
            | None => Some 0%R
            end
      end
  end
with getWeightedWinProb (fuel : nat) (teamCode : string) (teamElo : Z) (matchId : Z)
  (knockout : Knockout) (ov : gmap Z BracketTeam) {struct fuel} : option R :=
  match fuel with
  | O => None
  | S f =>
      match findMatch matchId knockout ≫= prevMatches with
      | None => Some 0.5%R
      | Some prevs =>
          (** [teamPrevMatchId] is assigned and never read. *)
          opponentPrevMatchId ←
            fold_left
              (fun acc prevMatchId =>
                 opp ← acc;
                 possibleTeams ← getPossibleTeamsFromMatch f prevMatchId knockout ov;
                 if existsb (hasCode teamCode) possibleTeams then Some opp
                 else Some (Some prevMatchId))
              prevs (Some None);
          match opponentPrevMatchId with
          | None | Some 0 => Some 0.5%R
          | Some opp =>
              possibleOpponents ← getPossibleTeamsFromMatch f opp knockout ov;
              match possibleOpponents with
              | [] => Some 0.5%R
              | _ =>
                  sums ←
                    fold_left
                      (fun acc opponent =>
                         '(totalWeight, weightedProb) ← acc;
                         oppReachProb ←
                           getCumulativeProbWin f (bt_code opponent) opp knockout ov;
                         if Rlt_dec 0 oppReachProb then
                           let winProb := knockoutWinProb teamElo (bt_elo opponent) in
                           Some ((totalWeight + oppReachProb)%R,
                                 (weightedProb + oppReachProb * winProb)%R)
                         else Some (totalWeight, weightedProb))
                      possibleOpponents (Some (0%R, 0%R));
                  let '(totalWeight, weightedProb) := sums in
                  if Rlt_dec 0 totalWeight then Some (weightedProb / totalWeight)%R
                  else Some 0.5%R
              end
          end
      end
  end.

(** [isTeamLockedUpstream]: the team is the override of one of the matches
    that feed [matchId], one level up only. *)
Definition isTeamLockedUpstream (teamCode : string) (matchId : Z) (knockout : Knockout)
  (ov : gmap Z BracketTeam) : bool :=
  match findMatch matchId knockout ≫= prevMatches with
  | None => false
  | Some prevs =>
      existsb (fun prevMatchId =>
                 match ov !! prevMatchId with
                 | Some override => String.eqb (bt_code override) teamCode
                 | None => false
                 end) prevs
  end.

(** [getTeamBracketPath]: the matches, in the order of the rounds, that the
    team may play in. *)
Fixpoint bracketPathLoop (fuel : nat) (teamCode : string) (matches : list Match)
  (knockout : Knockout) (ov : gmap Z BracketTeam) : option (list Z) :=
  match matches with
  | [] => Some []
  | m :: rest =>
      possibleTeams ← getPossibleTeamsFromMatch fuel (match_id m) knockout ov;
      path ← bracketPathLoop fuel teamCode rest knockout ov;
      Some (if existsb (hasCode teamCode) possibleTeams then match_id m :: path else path)
  end.

Definition getTeamBracketPath (fuel : nat) (teamCode : string) (knockout : Knockout)
  (ov : gmap Z BracketTeam) : option (list Z) :=
  bracketPathLoop fuel teamCode (allMatches knockout) knockout ov.

(** [getMatchTeams], the pair that a match displays. *)
Definition getMatchTeams (fuel : nat) (m : Match) (knockout : Knockout)
  (ov : gmap Z BracketTeam) : option (option BracketTeam * option BracketTeam) :=
  if match_id m <=? 16 then
    t1 ← resolveBracketSlot (team1 m);
    t2 ← resolveBracketSlot (team2 m);
    Some (t1, t2)
  else
    match prevMatches m with
    | Some prevs =>
        w1 ← from_option (getMatchWinner fuel ov knockout) (Some None) (prevs !! 0%nat);
        w2 ← from_option (getMatchWinner fuel ov knockout) (Some None) (prevs !! 1%nat);
        Some (w1, w2)
    | None => Some (None, None)
    end.

End Bracket.

(** [getSoSClass]: the third of the range [min, max] that a value falls in. *)
Definition getSoSClass (value min max : R) : string :=
  let range := (max - min)%R in
  let third := (range / 3)%R in
  if Rle_dec (min + 2 * third) value then "sos-hard"
  else if Rle_dec (min + third) value then "sos-medium"
  else "sos-easy".

End App.
(** * Specification vocabulary *)

(** ** The rating model in the words of the specification *)
Module RatingModelSpec.
Local Open Scope R_scope.

Definition winExpectancy (ratingA ratingB : R) : R :=
  1 / (1 + Js.pow10 ((ratingB - ratingA) / 400)).

Definition drawProbability (ratingA ratingB : R) : R :=
  Rmax 0.15 (0.27 - Rabs (ratingA - ratingB) * 0.0004).

(** [knockoutWinProbability] is the win expectancy alone. *)
Definition knockoutWinProbability (ratingA ratingB : R) : R :=
  winExpectancy ratingA ratingB.

(** The seeded team's chance as the specification words it: a sum over
    the two semifinal outcomes. *)
Definition seededBySemifinalOutcomes (s u1 u2 : R) : R :=
  knockoutWinProbability u1 u2 * knockoutWinProbability s u1
  + knockoutWinProbability u2 u1 * knockoutWinProbability s u2.
End RatingModelSpec.

(** The sum of the win probabilities of a list of playoff entries. *)
Definition totalProb (l : list SosCalculator.PlayoffTeam) : R :=
  fold_right (fun t s => (SosCalculator.pt_prob t + s)%R) 0%R l.

(** The resolver's three entries, whatever order the final sort leaves
    them in: the seeded team meets the expected rating of the semifinal
    winner. *)
Definition bracketEntries (bracket : SosCalculator.Bracket) (ratings : gmap string Z)
  : list SosCalculator.PlayoffTeam :=
  let s := Js.orDefault (ratings !! SosCalculator.seeded bracket) 1400 in
  let u1 := SosCalculator.unseeded bracket !! 0%nat in
  let u2 := SosCalculator.unseeded bracket !! 1%nat in
  let e1 := Js.orDefault (SosCalculator.rating ratings u1) 1400 in
  let e2 := Js.orDefault (SosCalculator.rating ratings u2) 1400 in
  let p := RatingModelSpec.knockoutWinProbability (IZR e1) (IZR e2) in
  let ps := RatingModelSpec.knockoutWinProbability (IZR s)
              (p * IZR e1 + (1 - p) * IZR e2)%R in
  [ {| SosCalculator.pt_code := Some (SosCalculator.seeded bracket);
       SosCalculator.pt_elo := s; SosCalculator.pt_prob := ps |};
    {| SosCalculator.pt_code := u1; SosCalculator.pt_elo := e1;
       SosCalculator.pt_prob := ((1 - ps) * p)%R |};
    {| SosCalculator.pt_code := u2; SosCalculator.pt_elo := e2;
       SosCalculator.pt_prob := ((1 - ps) * (1 - p))%R |} ].

Definition jensenBracket : SosCalculator.Bracket :=
  {| SosCalculator.seeded := "S"; SosCalculator.unseeded := ["U1"; "U2"];
     SosCalculator.bracket_destinationGroup := "A" |}.

Definition jensenRatings : gmap string Z :=
  <["S" := 1800]> (<["U1" := 1800]> (<["U2" := 1000]> ∅)).


(** ** Rankings in the words of the specification *)





(** A random source that always returns 0. *)
Definition zeroRandom : nat -> R := fun _ => 0%R.

Definition team (c : string) (e : Z) : Js.Team :=
  {| Js.code := c; Js.name := c; Js.elo := e; Js.isPlayoff := false |}.


Definition fourTeams : list Js.Team :=
  [team "BRA" 2000; team "SRB" 1700; team "SUI" 1750; team "CMR" 1600].

(** ** Round-reached counters *)

Definition counterOf (k : BracketSimulator.Counter) (s : BracketSimulator.TeamStats) : Z :=
  match k with
  | BracketSimulator.CR32 => BracketSimulator.r32Count s
  | BracketSimulator.CR16 => BracketSimulator.r16Count s
  | BracketSimulator.CQF => BracketSimulator.qfCount s
  | BracketSimulator.CSF => BracketSimulator.sfCount s
  | BracketSimulator.CFinal => BracketSimulator.finalCount s
  | BracketSimulator.CWin => BracketSimulator.winCount s
  end.

(** The value of a counter of a team code; 0 for a code without statistics. *)
Definition counter (k : BracketSimulator.Counter) (ts : gmap string BracketSimulator.TeamStats)
  (c : string) : Z :=
  from_option (counterOf k) 0 (ts !! c).

(** How many entries of a list carry the code. *)
Definition countCode (c : string) (l : list BracketSimulator.Entrant) : Z :=
  Z.of_nat (length (List.filter (fun e => String.eqb (BracketSimulator.e_code e) c) l)).

(** The state in which the group stage of an iteration starts. *)
Definition groupStageStart (teamStats : gmap string BracketSimulator.TeamStats) (n : nat)
  : BracketSimulator.GroupStage :=
  {| BracketSimulator.groupStandings := ∅;
     BracketSimulator.thirdPlaceTeams := [];
     BracketSimulator.gs_teamStats := teamStats;
     BracketSimulator.gs_next := n |}.



(** ** A third-place pool in the first slot *)

Definition entrant (c : string) (p g e : Z) (grp : option string) : BracketSimulator.Entrant :=
  {| BracketSimulator.e_code := c; BracketSimulator.e_points := p;
     BracketSimulator.e_gd := g; BracketSimulator.e_elo := e;
     BracketSimulator.e_group := grp |}.

Definition poolStandings : gmap string (list BracketSimulator.Entrant) :=
  <["A" := [entrant "A1" 9 3 1800 None; entrant "A2" 6 1 1700 None;
            entrant "A3" 3 (-1) 1600 None]]>
  (<["C" := [entrant "C1" 9 3 1800 None; entrant "C2" 6 1 1700 None;
             entrant "C3" 3 (-1) 1600 None]]> ∅).

Definition poolQualifiers : list BracketSimulator.Entrant :=
  [entrant "A3" 3 (-1) 1600 (Some "A")].

Definition poolFirst : BracketSimulator.R32Match :=
  {| BracketSimulator.r32_match := 1;
     BracketSimulator.team1 := "3AB";
     BracketSimulator.team2 := "1C" |}.

(** ** The knockout structure as the bracket relies on it *)

(** [k] is strictly downstream of [m]: some chain of [prevMatches] leads
    from [k] back to [m]. *)
Inductive downstream (knockout : App.Knockout) (m : Z) : Z -> Prop :=
| downstream_direct mt :
    In mt (App.laterMatches knockout) -> App.feeds m mt = true ->
    downstream knockout m (App.match_id mt)
| downstream_step k mt :
    downstream knockout m k ->
    In mt (App.laterMatches knockout) -> App.feeds k mt = true ->
    downstream knockout m (App.match_id mt).

(** The numbering that the source tests with [matchId <= 16]: Round-of-32
    matches are numbered up to 16, later matches above 16 and up to
    [bound], and every match is numbered above the matches that feed it. *)
Record wellNumbered (knockout : App.Knockout) (bound : Z) : Prop := {
  r32_numbers : Forall (fun m => App.match_id m <= 16) (App.r32 knockout);
  later_numbers :
    Forall (fun m => 16 < App.match_id m <= bound) (App.laterMatches knockout);
  fed_from_below :
    Forall (fun m => forall p, App.feeds p m = true -> p < App.match_id m)
           (App.laterMatches knockout)
}.

(** A bracket of two Round-of-32 matches and the match that their winners
    play, over four one-team groups of equal rating. *)
Definition demoRow (c : string) : BracketSimulator.TournamentRow :=
  {| BracketSimulator.row_code := c; BracketSimulator.row_name := c;
     BracketSimulator.row_elo := 1500; BracketSimulator.row_isPlayoff := false;
     BracketSimulator.pos1Prob := 1; BracketSimulator.pos2Prob := 0;
     BracketSimulator.pos3Prob := 0; BracketSimulator.pos4Prob := 0;
     BracketSimulator.r32Prob := 1; BracketSimulator.r16Prob := 0;
     BracketSimulator.qfProb := 0; BracketSimulator.sfProb := 0;
     BracketSimulator.finalProb := 0; BracketSimulator.rowWinProb := 0 |}.

Definition demoKnockout : App.Knockout :=
  {| App.r32 := [ {| App.match_id := 1; App.team1 := Some "1A"; App.team2 := Some "1B";
                     App.prevMatches := None |};
                  {| App.match_id := 2; App.team1 := Some "1C"; App.team2 := Some "1D";
                     App.prevMatches := None |} ];
     App.r16 := [ {| App.match_id := 17; App.team1 := None; App.team2 := None;
                     App.prevMatches := Some [1; 2] |} ];
     App.qf := []; App.sf := []; App.final := [] |}.

Definition demoData : App.SosData :=
  {| App.groupSimulation :=
       Some (<["A" := [demoRow "ARG"]]> (<["B" := [demoRow "BEL"]]>
            (<["C" := [demoRow "CRO"]]> (<["D" := [demoRow "DEN"]]> ∅))));
     App.sd_knockout := demoKnockout |}.

Definition demoTeam (c : string) (slot : string) : App.BracketTeam :=
  {| App.bt_code := c; App.bt_name := c; App.bt_elo := 1500;
     App.isThirdPlace := false; App.bt_pool := None;
     App.baseProb := Some 1%R; App.bt_slot := Some slot; App.bt_winProb := None |}.

Definition demoLock (c : string) : App.BracketTeam :=
  {| App.bt_code := c; App.bt_name := c; App.bt_elo := 1500;
     App.isThirdPlace := false; App.bt_pool := None;
     App.baseProb := None; App.bt_slot := None; App.bt_winProb := None |}.

(** Croatia locked as the winner of match 17, and so of match 2. *)
Definition croatiaThrough : gmap Z App.BracketTeam :=
  <[2 := demoLock "CRO"]> (<[17 := demoLock "CRO"]> ∅).

(** ** Who can be credited with a round *)

(** How many keys of a map of entrants hold an entrant with the code. *)
Definition holders `{Countable K} (c : string) (W : gmap K BracketSimulator.Entrant) : Z :=
  countCode c (map snd (map_to_list W)).

(** How often a code is listed. *)
Definition occurrences (c : string) (l : list string) : Z :=
  Z.of_nat (length (List.filter (String.eqb c) l)).

(** The matches whose winners a later match brings together: the first
    two entries of [prevMatches], listed once when they are the same match;
    a match with fewer than two entries is never played. *)
Definition feeders (m : BracketSimulator.KnockoutMatch) : list Z :=
  match BracketSimulator.prevMatches m !! 0%nat, BracketSimulator.prevMatches m !! 1%nat with
  | Some a, Some b => if decide (a = b) then [a] else [a; b]
  | _, _ => []
  end.

(** Each match feeds at most one match of the next round. *)
Definition feedersUsedOnce (ms : list BracketSimulator.KnockoutMatch) : Prop :=
  NoDup (concat (map feeders ms)).

(** The group position that a slot notation names: the group and the index
    into its standings. *)
Definition positionSlot (s : BracketSimulator.Slot) : option (string * nat) :=
  match s with
  | BracketSimulator.GroupSlot (Some 1) (Some g) => Some (g, 0%nat)
  | BracketSimulator.GroupSlot (Some 2) (Some g) => Some (g, 1%nat)
  | _ => None
  end.

Definition matchSlots (m : BracketSimulator.R32Match) : list (string * nat) :=
  match positionSlot (BracketSimulator.parseSlot (BracketSimulator.team1 m)),
        positionSlot (BracketSimulator.parseSlot (BracketSimulator.team2 m)) with
  | Some a, Some b => if decide (a = b) then [a] else [a; b]
  | Some a, None => [a]
  | None, Some b => [b]
  | None, None => []
  end.

(** Each group-position slot is placed in at most one Round-of-32 match. *)
Definition slotsUsedOnce (ms : list BracketSimulator.R32Match) : Prop :=
  NoDup (concat (map matchSlots ms)).

(** The occupant of a group position. *)
Definition occupant (gs : gmap string (list BracketSimulator.Entrant)) (s : string * nat)
  : option BracketSimulator.Entrant :=
  gs !! fst s ≫= (fun standings => standings !! snd s).

(** The codes of all teams of all groups. *)
Definition allCodes (allTeams : list (string * list Js.Team)) : list string :=
  concat (map (fun g => map Js.code (snd g)) allTeams).

(** The chain of the round probabilities of a row. *)
Definition monotoneRow (row : BracketSimulator.TournamentRow) : Prop :=
  (0 <= BracketSimulator.rowWinProb row
   /\ BracketSimulator.rowWinProb row <= BracketSimulator.finalProb row
   /\ BracketSimulator.finalProb row <= BracketSimulator.sfProb row
   /\ BracketSimulator.sfProb row <= BracketSimulator.qfProb row
   /\ BracketSimulator.qfProb row <= BracketSimulator.r16Prob row
   /\ BracketSimulator.r16Prob row <= BracketSimulator.r32Prob row
   /\ BracketSimulator.r32Prob row <= 1)%R.

(** ** Two small tournaments over four one-team groups *)

Definition fourGroups : list (string * list string) :=
  [("A", ["ARG"]); ("B", ["BEL"]); ("C", ["CRO"]); ("D", ["DEN"])].

Definition twoR32 : list BracketSimulator.R32Match :=
  [ {| BracketSimulator.r32_match := 1; BracketSimulator.team1 := "1A";
       BracketSimulator.team2 := "1B" |};
    {| BracketSimulator.r32_match := 2; BracketSimulator.team1 := "1C";
       BracketSimulator.team2 := "1D" |} ].

Definition lateMatch (id : Z) (prevs : list Z) : BracketSimulator.KnockoutMatch :=
  {| BracketSimulator.ko_match := id; BracketSimulator.prevMatches := prevs |}.

(** The winners of matches 1 and 2 meet in match 17. *)
Definition smallTournament : BracketSimulator.GroupData :=
  {| BracketSimulator.groups := fourGroups;
     BracketSimulator.knockout :=
       {| BracketSimulator.r32 := twoR32;
          BracketSimulator.r16 := [lateMatch 17 [1; 2]];
          BracketSimulator.qf := []; BracketSimulator.sf := [];
          BracketSimulator.final := [lateMatch 31 [29; 30]] |} |}.

(** The same, but matches 1 and 2 feed both match 17 and match 18. *)
Definition replayTournament : BracketSimulator.GroupData :=
  {| BracketSimulator.groups := fourGroups;
     BracketSimulator.knockout :=
       {| BracketSimulator.r32 := twoR32;
          BracketSimulator.r16 := [lateMatch 17 [1; 2]; lateMatch 18 [1; 2]];
          BracketSimulator.qf := []; BracketSimulator.sf := [];
          BracketSimulator.final := [lateMatch 31 [29; 30]] |} |}.

(** ** The round counters through the simulation loop *)

(** From one state of the statistics to the next, the six counters of a
    code grow in step: each by no more than the counter of the round
    before, the Round-of-32 counter by at most [bound]. *)
Definition advances (bound : Z) (ts ts' : gmap string BracketSimulator.TeamStats) (c : string)
  : Prop :=
  exists d32 d16 dqf dsf dfin dwin,
    (0 <= dwin /\ dwin <= dfin /\ dfin <= dsf /\ dsf <= dqf /\ dqf <= d16 /\ d16 <= d32
     /\ d32 <= bound)
    /\ counter BracketSimulator.CR32 ts' c = counter BracketSimulator.CR32 ts c + d32
    /\ counter BracketSimulator.CR16 ts' c = counter BracketSimulator.CR16 ts c + d16
    /\ counter BracketSimulator.CQF ts' c = counter BracketSimulator.CQF ts c + dqf
    /\ counter BracketSimulator.CSF ts' c = counter BracketSimulator.CSF ts c + dsf
    /\ counter BracketSimulator.CFinal ts' c = counter BracketSimulator.CFinal ts c + dfin
    /\ counter BracketSimulator.CWin ts' c = counter BracketSimulator.CWin ts c + dwin.

(** The counters of a code form a chain below [bound]. *)
Definition chained (bound : Z) (ts : gmap string BracketSimulator.TeamStats) (c : string)
  : Prop :=
  0 <= counter BracketSimulator.CWin ts c
  /\ counter BracketSimulator.CWin ts c <= counter BracketSimulator.CFinal ts c
  /\ counter BracketSimulator.CFinal ts c <= counter BracketSimulator.CSF ts c
  /\ counter BracketSimulator.CSF ts c <= counter BracketSimulator.CQF ts c
  /\ counter BracketSimulator.CQF ts c <= counter BracketSimulator.CR16 ts c
  /\ counter BracketSimulator.CR16 ts c <= counter BracketSimulator.CR32 ts c
  /\ counter BracketSimulator.CR32 ts c <= bound.

(** A slot notation that the Round of 32 reads without indexing a missing
    group: a slot of position 1 or 2 names one of the groups. *)
Definition slotResolves (names : list string) (s : BracketSimulator.Slot) : Prop :=
  match s with
  | BracketSimulator.GroupSlot (Some 1) g
  | BracketSimulator.GroupSlot (Some 2) g => exists name, g = Some name /\ In name names
  | _ => True
  end.

Definition r32Resolves (groupData : BracketSimulator.GroupData) : Prop :=
  Forall (fun m =>
            slotResolves (map fst (BracketSimulator.groups groupData))
              (BracketSimulator.parseSlot (BracketSimulator.team1 m))
            /\ slotResolves (map fst (BracketSimulator.groups groupData))
                 (BracketSimulator.parseSlot (BracketSimulator.team2 m)))
         (BracketSimulator.r32 (BracketSimulator.knockout groupData)).

(** Two groups that list the same team, and no knockout match but a final
    that is never reached. *)
Definition sharedCodeTournament : BracketSimulator.GroupData :=
  {| BracketSimulator.groups := [("A", ["ARG"]); ("B", ["ARG"])];
     BracketSimulator.knockout :=
       {| BracketSimulator.r32 := []; BracketSimulator.r16 := [];
          BracketSimulator.qf := []; BracketSimulator.sf := [];
          BracketSimulator.final := [lateMatch 31 [29; 30]] |} |}.

(** ** Totals over the standings of a group *)

(** The sum of a column of the standings. *)
Definition totalOf (f : BracketSimulator.Entrant -> Z) (l : list BracketSimulator.Entrant)
  : Z :=
  fold_right (fun e s => f e + s) 0 l.

(** ** One simulation of the group-only simulator, seen from one team *)

(** Whether a pairing involves the code. *)
Definition involves (c : string) (p : Js.Team * Js.Team) : bool :=
  String.eqb (Js.code (fst p)) c || String.eqb (Js.code (snd p)) c.

(** The sum of the four position counters of a team of the group-only
    simulator. *)
Definition groupPositionTotal (s : SosCalculator.Stats) : Z :=
  SosCalculator.position s 0 + SosCalculator.position s 1
  + SosCalculator.position s 2 + SosCalculator.position s 3.

(** What [k] simulations of a group of [n] teams leave in the statistics of
    a team: [n - 1] matches per simulation, three points for a win and one
    for a draw, and four counters that are never negative. *)
Record playedOut (k : Z) (n : nat) (s : SosCalculator.Stats) : Prop := {
  po_matches :
    SosCalculator.wins s + SosCalculator.draws s + SosCalculator.losses s
    = k * (Z.of_nat n - 1);
  po_points : SosCalculator.points s = 3 * SosCalculator.wins s + SosCalculator.draws s;
  po_results :
    0 <= SosCalculator.wins s /\ 0 <= SosCalculator.draws s /\ 0 <= SosCalculator.losses s;
  po_length : length (SosCalculator.positions s) = 4%nat;
  po_counters : Forall (fun x => 0 <= x) (SosCalculator.positions s);
  po_positions : (n <= 4)%nat -> groupPositionTotal s = k
}.

(** The tally of a code within one simulation: its matches so far, three
    points for a win and one for a draw. *)
Definition tallied (t : SosCalculator.Tally) (c : string) (k : Z) : Prop :=
  (is_Some (SosCalculator.simPoints t !! c) /\ is_Some (SosCalculator.simWins t !! c)
   /\ is_Some (SosCalculator.simDraws t !! c) /\ is_Some (SosCalculator.simLosses t !! c))
  /\ SosCalculator.get (SosCalculator.simWins t) c
     + SosCalculator.get (SosCalculator.simDraws t) c
     + SosCalculator.get (SosCalculator.simLosses t) c = k
  /\ SosCalculator.get (SosCalculator.simPoints t) c
     = 3 * SosCalculator.get (SosCalculator.simWins t) c
       + SosCalculator.get (SosCalculator.simDraws t) c
  /\ 0 <= SosCalculator.get (SosCalculator.simWins t) c
  /\ 0 <= SosCalculator.get (SosCalculator.simDraws t) c
  /\ 0 <= SosCalculator.get (SosCalculator.simLosses t) c.

(** How many pairings of a list involve the code. *)
Fixpoint involving (c : string) (pairs : list (Js.Team * Js.Team)) : Z :=
  match pairs with
  | [] => 0
  | p :: rest => (if involves c p then 1 else 0) + involving c rest
  end.

(** The statistics of a team after the results of one simulation are
    added, and after one more finish in position [i] is counted. *)
Definition withResults (w d l : Z) (s : SosCalculator.Stats) : SosCalculator.Stats :=
  {| SosCalculator.wins := SosCalculator.wins s + w;
     SosCalculator.draws := SosCalculator.draws s + d;
     SosCalculator.losses := SosCalculator.losses s + l;
     SosCalculator.points := SosCalculator.points s + (3 * w + d);
     SosCalculator.positions := SosCalculator.positions s |}.

Definition placed (i : nat) (s : SosCalculator.Stats) : SosCalculator.Stats :=
  {| SosCalculator.wins := SosCalculator.wins s;
     SosCalculator.draws := SosCalculator.draws s;
     SosCalculator.losses := SosCalculator.losses s;
     SosCalculator.points := SosCalculator.points s;
     SosCalculator.positions := alter Z.succ i (SosCalculator.positions s) |}.

(** ** Position counters of the tournament simulator *)

(** The counter of position [i] of a code; 0 for a code without
    statistics. *)
Definition posCounter (i : nat) (ts : gmap string BracketSimulator.TeamStats) (c : string)
  : Z :=
  from_option (fun s => BracketSimulator.position s i) 0 (ts !! c).

(** Every team has its four position counters. *)
Definition fourCounters (ts : gmap string BracketSimulator.TeamStats) : Prop :=
  forall c s, ts !! c = Some s -> length (BracketSimulator.positions s) = 4%nat.

(** In how many groups a code is listed. *)
Definition groupsListing (c : string) (allTeams : list (string * list Js.Team)) : Z :=
  Z.of_nat (length (List.filter
                      (fun g => existsb (String.eqb c) (map Js.code (snd g))) allTeams)).

(** What the simulation loop keeps true of the counters of a code after
    [k] iterations: no counter negative, the Round-of-32 counter between
    the first two positions and the first three, and, with [m] the number
    of groups that list the code, [k * m] finishes in the first four
    positions when no group has more than four teams. *)
Record placedOut (k : Z) (m : Z) (small : Prop)
  (ts : gmap string BracketSimulator.TeamStats) (c : string) : Prop := {
  pl_nonneg : forall i, (i < 4)%nat -> 0 <= posCounter i ts c;
  pl_r32_lower :
    posCounter 0 ts c + posCounter 1 ts c <= counter BracketSimulator.CR32 ts c;
  pl_r32_upper :
    counter BracketSimulator.CR32 ts c
    <= posCounter 0 ts c + posCounter 1 ts c + posCounter 2 ts c;
  pl_total :
    small ->
    posCounter 0 ts c + posCounter 1 ts c + posCounter 2 ts c + posCounter 3 ts c = k * m
}.
(** * Proofs *)

(** ** Sorting *)
Section SortFacts.
Context {A : Type} (after : A -> A -> bool).

Lemma insertSorted_perm x l : Permutation (Js.insertSorted after x l) (x :: l).
Proof.
  induction l as [|y l IH]; simpl; [reflexivity|].
  destruct (after x y); [|reflexivity].
  rewrite IH. apply perm_swap.
Qed.

Lemma sort_perm l : Permutation (Js.sort after l) l.
Proof.
  induction l as [|x l IH]; simpl; [reflexivity|].
  rewrite insertSorted_perm. now constructor.
Qed.

Lemma sort_length l : length (Js.sort after l) = length l.
Proof. apply Permutation_length, sort_perm. Qed.

Lemma sort_In x l : In x (Js.sort after l) <-> In x l.
Proof.
  split; apply Permutation_in; [|symmetry]; apply sort_perm.
Qed.



Hypothesis after_asym : forall a b, after a b = true -> after b a = false.
Hypothesis after_ntrans :
  forall a b c, after a b = false -> after b c = false -> after a c = false.

Lemma insertSorted_sorted x l :
  StronglySorted (fun a b => after a b = false) l ->
  StronglySorted (fun a b => after a b = false) (Js.insertSorted after x l).
Proof.
  induction 1 as [|y l Hs IH Hy]; simpl.
  - repeat constructor.
  - destruct (after x y) eqn:Hxy.
    + constructor; [exact IH|].
      apply List.Forall_forall. intros z Hz.
      apply (Permutation_in _ (insertSorted_perm x l)) in Hz.
      destruct Hz as [<-|Hz]; [now apply after_asym|].
      rewrite List.Forall_forall in Hy. now apply Hy.
    + constructor; [now constructor|].
      constructor; [exact Hxy|].
      rewrite List.Forall_forall in Hy |- *. intros z Hz.
      apply after_ntrans with y; [exact Hxy | now apply Hy].
Qed.

Lemma sort_sorted l : StronglySorted (fun a b => after a b = false) (Js.sort after l).
Proof.
  induction l as [|x l IH]; simpl; [constructor|].
  now apply insertSorted_sorted.
Qed.
End SortFacts.

Lemma StronglySorted_impl {A : Type} (R1 R2 : A -> A -> Prop) l :
  (forall a b, R1 a b -> R2 a b) -> StronglySorted R1 l -> StronglySorted R2 l.
Proof.
  intros H. induction 1 as [|x l Hs IH Hx]; constructor; [exact IH|].
  rewrite List.Forall_forall in Hx |- *. auto.
Qed.

(** ** The Elo curve *)
Section EloFacts.
Local Open Scope R_scope.

Lemma pow10_unseal x : Js.pow10 x = Rpower 10 x.
Proof. unfold Js.pow10. now rewrite (seal_eq Js.pow10_aux). Qed.

Lemma pow10_pos x : 0 < Js.pow10 x.
Proof. rewrite pow10_unseal. unfold Rpower. apply exp_pos. Qed.

Lemma pow10_opp x : Js.pow10 (- x) = / Js.pow10 x.
Proof. rewrite !pow10_unseal. apply Rpower_Ropp. Qed.

Lemma pow10_0 : Js.pow10 0 = 1.
Proof. rewrite pow10_unseal. apply Rpower_O. lra. Qed.

Lemma eloWinProbability_pos a b : 0 < SosCalculator.eloWinProbability a b.
Proof.
  unfold SosCalculator.eloWinProbability.
  pose proof (pow10_pos ((b - a) / 400)).
  apply Rdiv_lt_0_compat; lra.
Qed.

Lemma eloWinProbability_complement a b :
  SosCalculator.eloWinProbability a b + SosCalculator.eloWinProbability b a = 1.
Proof.
  unfold SosCalculator.eloWinProbability.
  replace ((a - b) / 400) with (- ((b - a) / 400)) by lra.
  rewrite pow10_opp.
  pose proof (pow10_pos ((b - a) / 400)) as Hu.
  set (u := Js.pow10 ((b - a) / 400)) in *.
  field. split; lra.
Qed.

Lemma eloWinProbability_lt_1 a b : SosCalculator.eloWinProbability a b < 1.
Proof.
  pose proof (eloWinProbability_complement a b).
  pose proof (eloWinProbability_pos b a). lra.
Qed.

Lemma totalProb_perm l l' : Permutation l l' -> totalProb l = totalProb l'.
Proof.
  induction 1; simpl; try lra; congruence.
Qed.
End EloFacts.

(** ** Closed-form playoff resolvers *)

(** C1: the three win probabilities returned by the 3-team resolver sum to 1
    for every bracket and rating map, and the four returned by the 4-team
    resolver sum to 1 for every path of four teams, in exact arithmetic. *)
Theorem closed_form_probabilities_sum_to_one :
  (forall bracket ratings,
      let r := SosCalculator.simulateBracket bracket ratings in
      length (SosCalculator.teams r) = 3%nat
      /\ totalProb (SosCalculator.teams r) = 1%R)
  /\ (forall a b c d dest ratings,
         exists r,
           SosCalculator.simulateUEFAPath
             {| SosCalculator.path_teams := [a; b; c; d];
                SosCalculator.path_destinationGroup := dest |} ratings = Some r
           /\ length (SosCalculator.teams r) = 4%nat
           /\ totalProb (SosCalculator.teams r) = 1%R).
Proof.
  split.
  - intros bracket ratings r. subst r. unfold SosCalculator.simulateBracket.
    cbv zeta. cbn [SosCalculator.teams]. split.
    + now rewrite sort_length.
    + rewrite (totalProb_perm _ _ (sort_perm _ _)).
      unfold totalProb; simpl. lra.
  - intros a b c d dest ratings.
    unfold SosCalculator.simulateUEFAPath. cbv zeta.
    cbn [SosCalculator.path_teams].
    set (teamElos := map _ [a; b; c; d]).
    assert (Hlen : length (Js.sort SosCalculator.byEloDesc teamElos) = 4%nat)
      by now rewrite sort_length.
    destruct (Js.sort SosCalculator.byEloDesc teamElos)
      as [|t1 [|t2 [|t3 [|t4 [|t5 rest]]]]]; try discriminate Hlen.
    eexists. split; [reflexivity|]. cbn [SosCalculator.teams]. split.
    + now rewrite sort_length.
    + rewrite (totalProb_perm _ _ (sort_perm _ _)).
      unfold totalProb, SosCalculator.withProb; simpl.
      pose proof (eloWinProbability_complement (IZR (SosCalculator.te_elo t1))
                    (IZR (SosCalculator.te_elo t2))) as H12.
      pose proof (eloWinProbability_complement (IZR (SosCalculator.te_elo t1))
                    (IZR (SosCalculator.te_elo t3))) as H13.
      pose proof (eloWinProbability_complement (IZR (SosCalculator.te_elo t4))
                    (IZR (SosCalculator.te_elo t2))) as H42.
      pose proof (eloWinProbability_complement (IZR (SosCalculator.te_elo t4))
                    (IZR (SosCalculator.te_elo t3))) as H43.
      set (p := SosCalculator.eloWinProbability (IZR (SosCalculator.te_elo t1))
                  (IZR (SosCalculator.te_elo t4))) in *.
      set (q := SosCalculator.eloWinProbability (IZR (SosCalculator.te_elo t2))
                  (IZR (SosCalculator.te_elo t3))) in *.
      set (x12 := SosCalculator.eloWinProbability (IZR (SosCalculator.te_elo t1))
                    (IZR (SosCalculator.te_elo t2))) in *.
      set (x13 := SosCalculator.eloWinProbability (IZR (SosCalculator.te_elo t1))
                    (IZR (SosCalculator.te_elo t3))) in *.
      set (x42 := SosCalculator.eloWinProbability (IZR (SosCalculator.te_elo t4))
                    (IZR (SosCalculator.te_elo t2))) in *.
      set (x43 := SosCalculator.eloWinProbability (IZR (SosCalculator.te_elo t4))
                    (IZR (SosCalculator.te_elo t3))) in *.
      replace (SosCalculator.eloWinProbability (IZR (SosCalculator.te_elo t2))
                 (IZR (SosCalculator.te_elo t1))) with (1 - x12)%R by lra.
      replace (SosCalculator.eloWinProbability (IZR (SosCalculator.te_elo t3))
                 (IZR (SosCalculator.te_elo t1))) with (1 - x13)%R by lra.
      replace (SosCalculator.eloWinProbability (IZR (SosCalculator.te_elo t2))
                 (IZR (SosCalculator.te_elo t4))) with (1 - x42)%R by lra.
      replace (SosCalculator.eloWinProbability (IZR (SosCalculator.te_elo t3))
                 (IZR (SosCalculator.te_elo t4))) with (1 - x43)%R by lra.
      ring.
Qed.

Section SeededFinal.
Local Open Scope R_scope.

Lemma ln_10_gt_2 : 2 < ln 10.
Proof.
  apply exp_lt_inv. rewrite exp_ln by lra.
  replace 2 with (1 + 1) by lra. rewrite exp_plus.
  pose proof exp_le_3 as H3. pose proof (exp_pos 1) as Hp. nra.
Qed.

Lemma elo_1800_1000 : SosCalculator.eloWinProbability 1800 1000 = 100 / 101.
Proof.
  unfold SosCalculator.eloWinProbability.
  replace ((1000 - 1800) / 400) with (- INR 2) by (simpl; lra).
  rewrite pow10_unseal, Rpower_Ropp, Rpower_pow by lra. simpl. field.
Qed.

Lemma elo_equal a : SosCalculator.eloWinProbability a a = 1 / 2.
Proof.
  unfold SosCalculator.eloWinProbability.
  replace ((a - a) / 400) with 0 by lra.
  rewrite pow10_0. lra.
Qed.

Lemma elo_vs_expected_semifinalist :
  105 / 206 < SosCalculator.eloWinProbability 1800 (100 / 101 * 1800 + (1 - 100 / 101) * 1000).
Proof.
  unfold SosCalculator.eloWinProbability.
  replace ((100 / 101 * 1800 + (1 - 100 / 101) * 1000 - 1800) / 400)
    with (- (2 / 101)) by lra.
  rewrite pow10_unseal, Rpower_Ropp. unfold Rpower.
  pose proof ln_10_gt_2 as Hln.
  assert (Hy : 2 / 101 * ln 10 <> 0) by lra.
  pose proof (exp_ineq1 _ Hy) as Hexp.
  set (e := exp (2 / 101 * ln 10)) in *.
  assert (He : 105 / 101 < e) by lra.
  assert (Hinv : / e < 101 / 105).
  { replace (101 / 105) with (/ (105 / 101)) by lra.
    apply Rinv_lt_contravar; [nra | exact He]. }
  assert (Hpos : 0 < / e) by (apply Rinv_0_lt_compat; lra).
  apply Rmult_lt_reg_r with (1 + / e); [lra|].
  unfold Rdiv at 2. rewrite Rmult_assoc, Rinv_l by lra. lra.
Qed.
End SeededFinal.

(** C2, as stated, fails: with ratings 1800 (seeded), 1800 and 1000 the
    seeded team's returned probability is not the sum over the two
    semifinal outcomes. *)
Lemma seeded_probability_is_not_a_sum_over_semifinal_outcomes :
  exists t,
    In t (SosCalculator.teams (SosCalculator.simulateBracket jensenBracket jensenRatings))
    /\ SosCalculator.pt_code t = Some "S"
    /\ SosCalculator.pt_prob t
       <> RatingModelSpec.seededBySemifinalOutcomes 1800 1800 1000.
Proof.
  exists {| SosCalculator.pt_code := Some "S"; SosCalculator.pt_elo := 1800;
            SosCalculator.pt_prob :=
              SosCalculator.eloWinProbability 1800
                (SosCalculator.eloWinProbability 1800 1000 * 1800
                 + (1 - SosCalculator.eloWinProbability 1800 1000) * 1000)%R |}.
  split; [|split].
  - unfold SosCalculator.simulateBracket. cbv zeta. cbn [SosCalculator.teams].
    apply sort_In. left. reflexivity.
  - reflexivity.
  - cbn [SosCalculator.pt_prob].
    unfold RatingModelSpec.seededBySemifinalOutcomes,
      RatingModelSpec.knockoutWinProbability.
    change RatingModelSpec.winExpectancy with SosCalculator.eloWinProbability.
    pose proof (eloWinProbability_complement 1800 1000) as Hc.
    rewrite elo_equal. rewrite elo_1800_1000 in *.
    pose proof elo_vs_expected_semifinalist as Hlt.
    replace (SosCalculator.eloWinProbability 1000 1800) with (1 / 101)%R by lra.
    lra.
Qed.

(** C2, amended: the seeded team plays the final against the expected
    rating of the semifinal winner, p * rating(U1) + (1 - p) * rating(U2)
    with p the chance that U1 wins the semifinal; the unseeded teams get the
    remainder times p and times 1 - p. *)
Theorem seeded_probability_uses_expected_semifinal_rating :
  forall bracket ratings,
    Permutation
      (SosCalculator.teams (SosCalculator.simulateBracket bracket ratings))
      (bracketEntries bracket ratings).
Proof.
  intros bracket ratings.
  unfold SosCalculator.simulateBracket. cbv zeta. cbn [SosCalculator.teams].
  rewrite sort_perm. reflexivity.
Qed.

(** ** Match outcome probabilities *)

(** C5: [getMatchProbabilities] returns the draw probability
    max(0.15, 0.27 - |a - b| * 0.0004), the win expectancy scaled by
    1 - drawProb as win probability and its complement scaled the same way
    as loss probability; at 2000 against 1500 the draw probability is 0.15,
    and the three always sum to 1. *)
Theorem match_outcome_probabilities :
  (forall ratingA ratingB,
      let r := SosCalculator.getMatchProbabilities ratingA ratingB in
      let we := RatingModelSpec.winExpectancy ratingA ratingB in
      let dp := RatingModelSpec.drawProbability ratingA ratingB in
      SosCalculator.drawProb r = dp
      /\ SosCalculator.winProb r = (we * (1 - dp))%R
      /\ SosCalculator.lossProb r = ((1 - we) * (1 - dp))%R
      /\ (SosCalculator.winProb r + SosCalculator.drawProb r
          + SosCalculator.lossProb r)%R = 1%R)
  /\ SosCalculator.drawProb (SosCalculator.getMatchProbabilities 2000 1500) = 0.15%R.
Proof.
  split.
  - intros a b r we dp. subst r we dp.
    unfold SosCalculator.getMatchProbabilities, RatingModelSpec.winExpectancy,
      RatingModelSpec.drawProbability.
    cbn [SosCalculator.drawProb SosCalculator.winProb SosCalculator.lossProb].
    repeat split; try reflexivity. ring.
  - unfold SosCalculator.getMatchProbabilities. cbn [SosCalculator.drawProb].
    replace (2000 - 1500)%R with 500%R by lra.
    rewrite Rabs_pos_eq by lra.
    apply Rmax_left. lra.
Qed.

(** ** Group rankings *)






Section Pairings.
Variable random : nat -> R.

Lemma fold_left_pairs_with {S : Type} (f : Js.Team -> Js.Team -> S -> S) ti rest acc :
  fold_left (fun acc p => f (fst p) (snd p) acc) (map (pair ti) rest) acc
  = fold_left (fun acc tj => f ti tj acc) rest acc.
Proof.
  revert acc. induction rest as [|tj rest IH]; intros acc; simpl; [reflexivity|].
  apply IH.
Qed.

Lemma groupLoop_pairs teams acc :
  BracketSimulator.groupLoop random teams acc
  = fold_left (fun acc p => BracketSimulator.playPair random (fst p) (snd p) acc)
              (Js.pairsInOrder teams) acc.
Proof.
  revert acc. induction teams as [|ti rest IH]; intros acc; simpl; [reflexivity|].
  rewrite fold_left_app, IH.
  now rewrite (fold_left_pairs_with (BracketSimulator.playPair random)).
Qed.
End Pairings.

(** ** The group simulator and the length of its input *)



(** ** The standings of a simulated group *)
Section GroupStandings.
Variable random : nat -> R.

Lemma statsAlter_keys f k l :
  map fst (BracketSimulator.statsAlter f k l) = map fst l.
Proof.
  induction l as [|[k' v'] l IH]; simpl; [reflexivity|].
  destruct (String.eqb k k'); simpl; [reflexivity | now rewrite IH].
Qed.

Lemma statsSet_keys k v l :
  map fst (BracketSimulator.statsSet k v l)
  = if existsb (String.eqb k) (map fst l) then map fst l else map fst l ++ [k].
Proof.
  induction l as [|[k' v'] l IH]; simpl; [reflexivity|].
  destruct (String.eqb k k'); simpl; [reflexivity|].
  rewrite IH. now destruct (existsb _ _).
Qed.

Lemma existsb_eqb_In k (l : list string) :
  existsb (String.eqb k) l = true <-> In k l.
Proof.
  rewrite existsb_exists. split.
  - intros (x & Hx & Hk). apply String.eqb_eq in Hk. now subst.
  - intros H. exists k. split; [exact H | apply String.eqb_refl].
Qed.

Lemma initGroupStats_from_keys teams st :
  NoDup (map fst st) ->
  let st' := fold_left
               (fun st t => BracketSimulator.statsSet (Js.code t)
                              {| BracketSimulator.s_points := 0;
                                 BracketSimulator.s_gd := 0;
                                 BracketSimulator.s_elo := Js.elo t |} st)
               teams st in
  NoDup (map fst st')
  /\ (forall c, In c (map fst st') <-> In c (map fst st) \/ In c (map Js.code teams))
  /\ (NoDup (map fst st ++ map Js.code teams) ->
      map fst st' = map fst st ++ map Js.code teams).
Proof.
  revert st. induction teams as [|t teams IH]; intros st Hnd; simpl.
  - split; [exact Hnd|]. split; [tauto|]. intros _. now rewrite app_nil_r.
  - set (st1 := BracketSimulator.statsSet _ _ st).
    assert (Hk1 : map fst st1
                  = if existsb (String.eqb (Js.code t)) (map fst st)
                    then map fst st else map fst st ++ [Js.code t])
      by apply statsSet_keys.
    assert (Hnd1 : NoDup (map fst st1)).
    { rewrite Hk1. destruct (existsb _ _) eqn:He; [exact Hnd|].
      apply NoDup_app. split; [exact Hnd|]. split.
      - intros x Hx Hx'. apply list_elem_of_In in Hx, Hx'.
        destruct Hx' as [Hx'|[]]. subst x.
        apply existsb_eqb_In in Hx. congruence.
      - repeat constructor. intros []%list_elem_of_In. }
    destruct (IH st1 Hnd1) as (H1 & H2 & H3). split; [exact H1|]. split.
    + intros c. rewrite H2, Hk1.
      destruct (existsb _ _) eqn:He.
      * apply existsb_eqb_In in He. intuition (subst; auto).
      * rewrite in_app_iff. simpl. intuition (subst; auto).
    + intros Hall. rewrite H3.
      * rewrite Hk1.
        assert (He : existsb (String.eqb (Js.code t)) (map fst st) = false).
        { destruct (existsb _ _) eqn:He; [|reflexivity].
          apply existsb_eqb_In in He.
          apply NoDup_app in Hall as (_ & Hdisj & _).
          exfalso. apply (Hdisj (Js.code t)); apply list_elem_of_In; [exact He | now left]. }
        rewrite He, <- app_assoc. reflexivity.
      * rewrite Hk1.
        assert (He : existsb (String.eqb (Js.code t)) (map fst st) = false).
        { destruct (existsb _ _) eqn:He; [|reflexivity].
          apply existsb_eqb_In in He.
          apply NoDup_app in Hall as (_ & Hdisj & _).
          exfalso. apply (Hdisj (Js.code t)); apply list_elem_of_In; [exact He | now left]. }
        rewrite He, <- app_assoc. exact Hall.
Qed.

Lemma initGroupStats_NoDup teams :
  NoDup (map fst (BracketSimulator.initGroupStats teams)).
Proof.
  apply (initGroupStats_from_keys teams []). constructor.
Qed.

Lemma initGroupStats_In teams c :
  In c (map fst (BracketSimulator.initGroupStats teams)) <-> In c (map Js.code teams).
Proof.
  destruct (initGroupStats_from_keys teams [] (NoDup_nil_2 (A := string))) as (_ & H & _).
  rewrite (H c). simpl. tauto.
Qed.


Lemma playPair_keys ti tj acc :
  map fst (fst (BracketSimulator.playPair random ti tj acc)) = map fst (fst acc).
Proof.
  destruct acc as [stats n]. unfold BracketSimulator.playPair.
  destruct (BracketSimulator.simulateGroupMatch _ _ _ _) as [[] n'];
    simpl; now rewrite !statsAlter_keys.
Qed.

Lemma groupLoop_keys teams acc :
  map fst (fst (BracketSimulator.groupLoop random teams acc)) = map fst (fst acc).
Proof.
  rewrite groupLoop_pairs. revert acc.
  induction (Js.pairsInOrder teams) as [|p l IH]; intros acc; simpl; [reflexivity|].
  now rewrite IH, playPair_keys.
Qed.

Lemma simulateGroup_codes teams n :
  Permutation (map BracketSimulator.e_code
                   (fst (BracketSimulator.simulateGroup random teams n)))
              (map fst (BracketSimulator.initGroupStats teams)).
Proof.
  unfold BracketSimulator.simulateGroup.
  pose proof (groupLoop_keys teams (BracketSimulator.initGroupStats teams, n)) as Hk.
  destruct (BracketSimulator.groupLoop _ _ _) as [stats n']. simpl in *.
  rewrite sort_perm, map_map. simpl. now rewrite <- Hk.
Qed.

Lemma simulateGroup_NoDup teams n :
  NoDup (map BracketSimulator.e_code
             (fst (BracketSimulator.simulateGroup random teams n))).
Proof.
  rewrite simulateGroup_codes. apply initGroupStats_NoDup.
Qed.

End GroupStandings.

(** ** Rankings and pairings *)



(** ** Counters *)
Section Counters.
Import BracketSimulator.

Lemma counterOf_increment k k' s :
  counterOf k' (increment k s)
  = counterOf k' s + (if decide (k = k') then 1 else 0).
Proof.
  destruct (decide (k = k')) as [->|Hne].
  - destruct k'; simpl; lia.
  - destruct k, k'; simpl; try lia; congruence.
Qed.

Lemma counter_credit k k' c c' ts :
  counter k' (credit k c ts) c'
  = counter k' ts c'
    + (if decide (k = k' /\ c = c' /\ is_Some (ts !! c')) then 1 else 0).
Proof.
  unfold counter, credit. rewrite lookup_alter.
  destruct (decide (c = c')) as [->|Hne].
  - destruct (ts !! c') as [s|] eqn:Hs; simpl.
    + rewrite counterOf_increment.
      repeat case_decide; try lia; exfalso; intuition eauto.
    + case_decide as H; [|lia]. destruct H as (_ & _ & [? ?]). discriminate.
  - case_decide as H; [tauto|]. lia.
Qed.

Lemma credit_tracked k c ts c' : is_Some (credit k c ts !! c') <-> is_Some (ts !! c').
Proof.
  unfold credit. rewrite lookup_alter. case_decide; [subst|reflexivity].
  destruct (ts !! c'); simpl; split; intros [? ?]; eauto; discriminate.
Qed.

Lemma creditAll_tracked k l ts c : is_Some (creditAll k l ts !! c) <-> is_Some (ts !! c).
Proof.
  unfold creditAll. revert ts. induction l as [|t l IH]; intros ts; simpl; [reflexivity|].
  rewrite IH. apply credit_tracked.
Qed.

Lemma countCode_cons c e l :
  countCode c (e :: l) = (if String.eqb (e_code e) c then 1 else 0) + countCode c l.
Proof.
  unfold countCode. simpl. destruct (String.eqb _ _); simpl; lia.
Qed.

Lemma countCode_nonneg c l : 0 <= countCode c l.
Proof. unfold countCode. lia. Qed.

Lemma countCode_app c l1 l2 : countCode c (l1 ++ l2) = countCode c l1 + countCode c l2.
Proof.
  induction l1 as [|e l1 IH]; [unfold countCode; simpl; lia|].
  simpl. rewrite !countCode_cons, IH. lia.
Qed.

Lemma countCode_perm c l1 l2 : Permutation l1 l2 -> countCode c l1 = countCode c l2.
Proof.
  induction 1; rewrite ?countCode_cons; lia.
Qed.

Lemma counter_creditAll k k' l ts c :
  counter k' (creditAll k l ts) c
  = counter k' ts c
    + (if decide (k = k' /\ is_Some (ts !! c)) then countCode c l else 0).
Proof.
  unfold creditAll. revert ts. induction l as [|t l IH]; intros ts; simpl.
  - unfold countCode. simpl. case_decide; lia.
  - rewrite IH, counter_credit, countCode_cons.
    pose proof (credit_tracked k (e_code t) ts c) as Htr.
    destruct (String.eqb_spec (e_code t) c);
      repeat case_decide; try lia; exfalso; intuition eauto.
Qed.
End Counters.

(** ** Third-place qualification *)


Section ThirdPlace.
Variable random : nat -> R.
Import BracketSimulator.


End ThirdPlace.



(** ** Round-of-32 slots *)

Lemma pool_slot_first_is_unresolved gs pool :
  BracketSimulator.resolveTeam1 gs (BracketSimulator.PoolSlot pool) = Some None.
Proof. reflexivity. Qed.

(** C8: a third-place pool written in the first slot of a Round-of-32 match
    is not resolved, although a qualifier of the pool is waiting and the
    same notation in the second slot takes it: the match is skipped and the
    qualifier stays in the list. *)
Theorem pool_in_first_slot_is_dropped :
  BracketSimulator.resolveTeam1 poolStandings
    (BracketSimulator.parseSlot (BracketSimulator.team1 poolFirst)) = Some None
  /\ BracketSimulator.resolveTeam2 poolStandings
       (BracketSimulator.parseSlot (BracketSimulator.team1 poolFirst)) poolQualifiers
     = Some (Some (entrant "A3" 3 (-1) 1600 (Some "A")), [])
  /\ forall random rd,
       BracketSimulator.r32Step random poolStandings (Some (poolQualifiers, rd)) poolFirst
       = Some (poolQualifiers, rd).
Proof.
  split; [reflexivity|]. split; [reflexivity|].
  intros random rd. reflexivity.
Qed.

(** ** Evaluating runs that compare reals

    [vm_compute] evaluates the discrete part of a run and stops at each
    comparison of reals; the comparison is then settled by [lra], with the
    Elo curve at equal ratings rewritten to its value. *)

Lemma pow10_at_zero x : x = 0%R -> Js.pow10 x = 1%R.
Proof. intros ->. apply pow10_0. Qed.

Ltac fold_pow10 := change (unseal Js.pow10_aux) with Js.pow10 in *.

Ltac pow10_to_1 :=
  repeat match goal with
  | H : context [Js.pow10 ?x] |- _ => rewrite (pow10_at_zero x) in H by field
  | |- context [Js.pow10 ?x] => rewrite (pow10_at_zero x) by field
  end.

Ltac settle := exfalso; pow10_to_1; lra.

Ltac decide_real :=
  match goal with
  | |- context [Req_dec_T ?a ?b] =>
      destruct (Req_dec_T a b); [try settle | try settle]
  | |- context [Rlt_dec ?a ?b] =>
      destruct (Rlt_dec a b); [try settle | try settle]
  | |- context [Rle_dec ?a ?b] =>
      destruct (Rle_dec a b); [try settle | try settle]
  end.

Ltac real_eval := repeat (vm_compute; fold_pow10; decide_real).

(** ** The override map *)
Section Overrides.
Variable sosData : App.SosData.
Let knockout := App.sd_knockout sosData.

Lemma possible_r32 f k ov :
  k <= 16 ->
  App.getPossibleTeamsFromMatch sosData (S f) k knockout ov
  = match App.findMatch k knockout with
    | None => Some []
    | Some m =>
        match ov !! k with
        | Some override => Some [override]
        | None =>
            t1 ← App.resolveBracketSlot sosData (App.team1 m);
            t2 ← App.resolveBracketSlot sosData (App.team2 m);
            Some (App.present t1 ++ App.present t2)
        end
    end.
Proof.
  intros Hk. simpl. destruct (App.findMatch k knockout); [|reflexivity].
  destruct (ov !! k); [reflexivity|].
  apply Z.leb_le in Hk. now rewrite Hk.
Qed.

Lemma possible_r32_agree fuel k ov1 ov2 :
  k <= 16 -> ov1 !! k = ov2 !! k ->
  App.getPossibleTeamsFromMatch sosData fuel k knockout ov1
  = App.getPossibleTeamsFromMatch sosData fuel k knockout ov2.
Proof.
  intros Hk Hov. destruct fuel as [|f]; [reflexivity|].
  rewrite !possible_r32 by exact Hk. now rewrite Hov.
Qed.

Lemma findTeamInRound_found fuel c ms ov m :
  App.findTeamInRound sosData fuel c ms knockout ov = Some (Some m) ->
  In m ms
  /\ exists ts,
       App.getPossibleTeamsFromMatch sosData fuel (App.match_id m) knockout ov = Some ts
       /\ existsb (App.hasCode c) ts = true.
Proof.
  induction ms as [|m0 ms IH]; simpl; [discriminate|].
  destruct (App.getPossibleTeamsFromMatch sosData fuel (App.match_id m0) knockout ov)
    as [ts|] eqn:Hts; simpl; [|discriminate].
  destruct (existsb (App.hasCode c) ts) eqn:Hex.
  - intros [= <-]. split; [now left|]. eauto.
  - intros H. destruct (IH H) as (Hin & Hrest). split; [now right | exact Hrest].
Qed.

Lemma possible_locked f k ov lock ts :
  App.getPossibleTeamsFromMatch sosData (S f) k knockout ov = Some ts ->
  ts <> [] ->
  App.getPossibleTeamsFromMatch sosData (S f) k knockout (<[k := lock]> ov) = Some [lock].
Proof.
  simpl. destruct (App.findMatch k knockout); [|intros [= <-]; congruence].
  intros _ _. now rewrite lookup_insert_eq.
Qed.

Lemma findTeamInRound_locked fuel c ms ov m lock :
  Forall (fun m => App.match_id m <= 16) ms ->
  App.findTeamInRound sosData fuel c ms knockout ov = Some (Some m) ->
  App.bt_code lock = c ->
  App.findTeamInRound sosData fuel c ms knockout (<[App.match_id m := lock]> ov)
  = Some (Some m).
Proof.
  intros Hms Hfound Hcode. induction ms as [|m0 ms IH]; simpl in *; [discriminate|].
  inversion Hms as [|? ? Hm0 Hrest]; subst.
  destruct (App.getPossibleTeamsFromMatch sosData fuel (App.match_id m0) knockout ov)
    as [ts|] eqn:Hts; simpl in Hfound; [|discriminate].
  destruct (existsb (App.hasCode (App.bt_code lock)) ts) eqn:Hex.
  - injection Hfound as <-.
    destruct fuel as [|f]; [discriminate|].
    rewrite (possible_locked f _ ov lock ts Hts).
    + simpl. unfold App.hasCode. now rewrite String.eqb_refl.
    + intros ->. discriminate.
  - destruct (findTeamInRound_found _ _ _ _ _ Hfound) as (_ & ts' & Hts' & Hex').
    assert (Hne : App.match_id m <> App.match_id m0).
    { intros Heq. rewrite Heq in Hts'. congruence. }
    rewrite (possible_r32_agree fuel (App.match_id m0) _ ov) by
      (try exact Hm0; now rewrite lookup_insert_ne).
    rewrite Hts. simpl. rewrite Hex. now apply IH.
Qed.

Lemma upstream_of_r32 fuel c M ov m :
  App.findTeamInRound sosData fuel c (App.r32 knockout) knockout ov = Some (Some m) ->
  App.match_id m = M ->
  App.findUpstreamMatches sosData fuel c M knockout ov = Some [M].
Proof.
  intros Hfound <-. unfold App.findUpstreamMatches. simpl.
  rewrite Hfound. simpl. now rewrite Z.eqb_refl.
Qed.

(** Every match on an upstream path is one whose possible teams include
    the code. *)
Lemma upstreamLoop_members fuel c target rounds ov acc path :
  App.upstreamLoop sosData fuel c target rounds knockout ov acc = Some path ->
  forall k, In k path ->
    In k acc
    \/ exists ts,
         App.getPossibleTeamsFromMatch sosData fuel k knockout ov = Some ts
         /\ existsb (App.hasCode c) ts = true.
Proof.
  revert acc. induction rounds as [|ms rounds IH]; intros acc; simpl.
  - intros [= <-] k Hk. now left.
  - destruct (App.findTeamInRound sosData fuel c ms knockout ov) as [found|] eqn:Hf;
      simpl; [|discriminate].
    destruct found as [m|].
    + destruct (findTeamInRound_found _ _ _ _ _ Hf) as (_ & Hm).
      destruct (App.match_id m =? target).
      * intros [= <-] k Hk. apply in_app_or in Hk as [Hk|[<-|[]]]; auto.
      * intros H k Hk. destruct (IH _ H k Hk) as [Hacc|Hts]; [|now right].
        apply in_app_or in Hacc as [Hacc|[<-|[]]]; auto.
    + apply IH.
Qed.

Lemma fold_insert_other (path : list Z) (lock : App.BracketTeam)
  (ov : gmap Z App.BracketTeam) k :
  ~ In k path ->
  fold_left (fun o mId => <[mId := lock]> o) path ov !! k = ov !! k.
Proof.
  revert ov. induction path as [|p path IH]; intros ov Hk; simpl; [reflexivity|].
  rewrite IH by (intros H; apply Hk; now right).
  apply lookup_insert_ne. intros ->. apply Hk. now left.
Qed.

Lemma fold_delete_other (path : list Z) (ov : gmap Z App.BracketTeam) k :
  ~ In k path ->
  fold_left (fun o mId => delete mId o) path ov !! k = ov !! k.
Proof.
  revert ov. induction path as [|p path IH]; intros ov Hk; simpl; [reflexivity|].
  rewrite IH by (intros H; apply Hk; now right).
  apply lookup_delete_ne. intros ->. apply Hk. now left.
Qed.

Lemma downstream_trans m a k :
  downstream knockout m a -> downstream knockout a k -> downstream knockout m k.
Proof.
  intros Hma. induction 1 as [mt Hin Hf|k' mt Hd IH Hin Hf].
  - now apply downstream_step with a.
  - now apply downstream_step with k'.
Qed.

Lemma clear_lookup fuel : forall m ov ov',
  App.clearDownstreamOverrides fuel m knockout ov = Some ov' ->
  forall k, ov' !! k = ov !! k \/ (ov' !! k = None /\ downstream knockout m k).
Proof.
  induction fuel as [|f IHf]; intros m ov ov'; simpl; [discriminate|].
  assert (Hfold : forall l acc,
             (forall mt, In mt l -> In mt (App.laterMatches knockout)) ->
             fold_left
               (fun acc mt =>
                  match acc with
                  | None => None
                  | Some ov' =>
                      if App.feeds m mt
                      then App.clearDownstreamOverrides f (App.match_id mt) knockout
                             (delete (App.match_id mt) ov')
                      else Some ov'
                  end) l acc = Some ov' ->
             exists ov0, acc = Some ov0
               /\ forall k, ov' !! k = ov0 !! k
                            \/ (ov' !! k = None /\ downstream knockout m k)).
  { induction l as [|mt l IHl]; intros acc Hl; simpl.
    - intros ->. exists ov'. split; [reflexivity|]. now left.
    - intros H. destruct (IHl _ (fun x Hx => Hl x (or_intror Hx)) H) as (ov1 & Hacc & Hk).
      destruct acc as [ov0|]; [|discriminate].
      exists ov0. split; [reflexivity|]. intros k.
      destruct (App.feeds m mt) eqn:Hfeeds.
      + pose proof (downstream_direct knockout m mt (Hl mt (or_introl eq_refl)) Hfeeds)
          as Hd.
        destruct (Hk k) as [Hk1|Hk1]; [|now right].
        destruct (IHf _ _ _ Hacc k) as [Hk2|[Hk2 Hd2]].
        * rewrite Hk2 in Hk1.
          destruct (decide (App.match_id mt = k)) as [<-|Hne].
          -- right. rewrite lookup_delete_eq in Hk1. now split.
          -- left. now rewrite lookup_delete_ne in Hk1.
        * right. split; [congruence|]. now apply downstream_trans with (App.match_id mt).
      + injection Hacc as <-. apply Hk. }
  intros H. destruct (Hfold _ _ (fun x Hx => Hx) H) as (ov0 & [= <-] & Hk). exact Hk.
Qed.

Lemma downstream_above bound m k :
  wellNumbered knockout bound -> downstream knockout m k -> m < k /\ 16 < k <= bound.
Proof.
  intros [_ Hlater Hfed] Hd.
  rewrite List.Forall_forall in Hlater, Hfed.
  induction Hd as [mt Hin Hf|k' mt Hd IH Hin Hf].
  - split; [now apply Hfed | now apply Hlater].
  - split; [|now apply Hlater].
    pose proof (Hfed mt Hin k' Hf). lia.
Qed.

Lemma clear_returns bound fuel : forall m ov,
  wellNumbered knockout bound ->
  (Z.to_nat (bound - m) < fuel)%nat ->
  is_Some (App.clearDownstreamOverrides fuel m knockout ov).
Proof.
  induction fuel as [|f IHf]; intros m ov Hwf Hfuel; [lia|]. simpl.
  pose proof Hwf as [_ Hlater Hfed].
  rewrite List.Forall_forall in Hlater, Hfed.
  assert (Hfold : forall l ov0,
             (forall mt, In mt l -> In mt (App.laterMatches knockout)) ->
             is_Some
               (fold_left
                  (fun acc mt =>
                     match acc with
                     | None => None
                     | Some ov' =>
                         if App.feeds m mt
                         then App.clearDownstreamOverrides f (App.match_id mt) knockout
                                (delete (App.match_id mt) ov')
                         else Some ov'
                     end) l (Some ov0))).
  { induction l as [|mt l IHl]; intros ov0 Hl; simpl; [eauto|].
    destruct (App.feeds m mt) eqn:Hfeeds.
    - pose proof (Hfed mt (Hl mt (or_introl eq_refl)) m Hfeeds) as Hlt.
      pose proof (Hlater mt (Hl mt (or_introl eq_refl))) as Hb.
      destruct (IHf (App.match_id mt) (delete (App.match_id mt) ov0) Hwf) as [ov1 Hov1];
        [lia|].
      rewrite Hov1. apply IHl. intros x Hx. apply Hl. now right.
    - apply IHl. intros x Hx. apply Hl. now right. }
  apply Hfold. auto.
Qed.

Lemma clear_noop bound fuel m ov :
  wellNumbered knockout bound ->
  (Z.to_nat (bound - m) < fuel)%nat ->
  (forall k, downstream knockout m k -> ov !! k = None) ->
  App.clearDownstreamOverrides fuel m knockout ov = Some ov.
Proof.
  intros Hwf Hfuel Hfree.
  destruct (clear_returns bound fuel m ov Hwf Hfuel) as [ov' Hov'].
  rewrite Hov'. f_equal. apply map_eq. intros k.
  destruct (clear_lookup _ _ _ _ Hov' k) as [Hk|[Hk Hd]]; [exact Hk|].
  rewrite Hk. symmetry. now apply Hfree.
Qed.
End Overrides.

Lemma demoKnockout_wellNumbered : wellNumbered demoKnockout 17.
Proof.
  split.
  - repeat constructor; simpl; lia.
  - repeat constructor; simpl; lia.
  - repeat constructor. intros p Hp. unfold App.feeds in Hp. simpl in Hp.
    rewrite !orb_true_iff, !Z.eqb_eq in Hp. simpl. lia.
Qed.

(** C3, as stated, fails.  Croatia is locked as winner of match 17 (one
    click, which also locks match 2).  Argentina is then locked at match 1
    and the same lock is issued again: Argentina is unlocked, but the lock
    of match 17 is gone, and Croatia's probability there has dropped from 1
    to 1/2. *)
Lemma relock_does_not_restore_downstream_probability :
  App.handleBracketClick demoData 6 17 (Some (demoTeam "CRO" "1C")) ∅ = Some croatiaThrough
  /\ App.getPossibleTeamsFromMatch demoData 6 1 demoKnockout croatiaThrough
     = Some [demoTeam "ARG" "1A"; demoTeam "BEL" "1B"]
  /\ App.handleBracketClick demoData 6 1 (Some (demoTeam "ARG" "1A")) croatiaThrough
     = Some (<[1 := demoLock "ARG"]> (<[2 := demoLock "CRO"]> ∅))
  /\ App.handleBracketClick demoData 6 1 (Some (demoTeam "ARG" "1A"))
       (<[1 := demoLock "ARG"]> (<[2 := demoLock "CRO"]> ∅))
     = Some (<[2 := demoLock "CRO"]> ∅)
  /\ App.getCumulativeProbWin demoData 6 "CRO" 17 demoKnockout croatiaThrough = Some 1%R
  /\ App.getCumulativeProbWin demoData 6 "CRO" 17 demoKnockout (<[2 := demoLock "CRO"]> ∅)
     = Some (1 / 2)%R
  /\ (1 <> 1 / 2)%R.
Proof.
  split; [vm_compute; reflexivity|].
  split; [vm_compute; reflexivity|].
  split; [vm_compute; reflexivity|].
  split; [vm_compute; reflexivity|].
  split; [real_eval; reflexivity|].
  split; [real_eval; f_equal; pow10_to_1; lra|].
  lra.
Qed.

(** C3, amended: in a knockout structure numbered as the bracket assumes
    ([wellNumbered]), let M be a Round-of-32 match that is not locked, let T
    be a team whose first Round-of-32 match, in bracket order, is M, and let
    no match downstream of M be locked.  Then locking T at M locks M alone,
    the same click again gives back the override map as it was, and with it
    every probability that is computed from the map. *)
Theorem lock_then_relock_restores :
  forall sosData bound fuel M team ov m,
    wellNumbered (App.sd_knockout sosData) bound ->
    (Z.to_nat (bound - M) < fuel)%nat ->
    ov !! M = None ->
    App.findTeamInRound sosData fuel (App.bt_code team)
      (App.r32 (App.sd_knockout sosData)) (App.sd_knockout sosData) ov = Some (Some m) ->
    App.match_id m = M ->
    (forall k, downstream (App.sd_knockout sosData) M k -> ov !! k = None) ->
    App.handleBracketClick sosData fuel M (Some team) ov
    = Some (<[M := App.lockOf team]> ov)
    /\ App.handleBracketClick sosData fuel M (Some team) (<[M := App.lockOf team]> ov)
       = Some ov
    /\ forall ov2,
         App.handleBracketClick sosData fuel M (Some team) (<[M := App.lockOf team]> ov)
         = Some ov2 ->
         forall f c k,
           App.getCumulativeProbWin sosData f c k (App.sd_knockout sosData) ov2
           = App.getCumulativeProbWin sosData f c k (App.sd_knockout sosData) ov.
Proof.
  intros sosData bound fuel M team ov m Hwf Hfuel HM Hfound Hm Hfree.
  pose proof Hwf as [Hr32 _ _].
  assert (Hin : In m (App.r32 (App.sd_knockout sosData)))
    by apply (findTeamInRound_found _ _ _ _ _ _ Hfound).
  assert (HM16 : M <= 16).
  { rewrite List.Forall_forall in Hr32. subst M. now apply Hr32. }
  assert (Hfree1 : forall k, downstream (App.sd_knockout sosData) M k ->
                             <[M := App.lockOf team]> ov !! k = None).
  { intros k Hk. destruct (downstream_above _ _ _ _ Hwf Hk) as [Hlt _].
    rewrite lookup_insert_ne by lia. now apply Hfree. }
  assert (H1 : App.handleBracketClick sosData fuel M (Some team) ov
               = Some (<[M := App.lockOf team]> ov)).
  { unfold App.handleBracketClick. rewrite HM.
    rewrite (upstream_of_r32 _ _ _ _ _ _ Hfound Hm). simpl.
    now apply clear_noop with bound. }
  assert (H2 : App.handleBracketClick sosData fuel M (Some team)
                 (<[M := App.lockOf team]> ov) = Some ov).
  { unfold App.handleBracketClick. rewrite lookup_insert_eq. simpl.
    rewrite String.eqb_refl.
    assert (Hfound' :
              App.findTeamInRound sosData fuel (App.bt_code team)
                (App.r32 (App.sd_knockout sosData)) (App.sd_knockout sosData)
                (<[M := App.lockOf team]> ov) = Some (Some m)).
    { subst M. now apply findTeamInRound_locked. }
    rewrite (upstream_of_r32 _ _ _ _ _ _ Hfound' Hm). simpl.
    rewrite delete_insert_eq, delete_id by exact HM.
    now apply clear_noop with bound. }
  split; [exact H1|]. split; [exact H2|].
  intros ov2 Hov2 f c k. rewrite H2 in Hov2. now injection Hov2 as <-.
Qed.

Lemma lock_then_relock_restores_witness :
  App.handleBracketClick demoData 40 1 (Some (demoTeam "ARG" "1A")) ∅
  = Some (<[1 := App.lockOf (demoTeam "ARG" "1A")]> ∅)
  /\ App.handleBracketClick demoData 40 1 (Some (demoTeam "ARG" "1A"))
       (<[1 := App.lockOf (demoTeam "ARG" "1A")]> ∅)
     = Some ∅.
Proof.
  destruct (lock_then_relock_restores demoData 17 40%nat 1
              (demoTeam "ARG" "1A") ∅
              {| App.match_id := 1; App.team1 := Some "1A"; App.team2 := Some "1B";
                 App.prevMatches := None |})
    as (H1 & H2 & _).
  - exact demoKnockout_wellNumbered.
  - simpl. lia.
  - reflexivity.
  - vm_compute. reflexivity.
  - reflexivity.
  - intros k _. apply lookup_empty.
  - split; [exact H1 | exact H2].
Defined.

(** C4, as stated, fails.  With Croatia locked at matches 2 and 17, Denmark
    is not a possible occupant of match 2; a click on Denmark there is not
    rejected and removes the lock of match 17. *)
Lemma click_on_unreachable_team_changes_overrides :
  App.getPossibleTeamsFromMatch demoData 6 2 demoKnockout croatiaThrough
  = Some [demoLock "CRO"]
  /\ App.handleBracketClick demoData 6 2 (Some (demoTeam "DEN" "1D")) croatiaThrough
     = Some (<[2 := demoLock "CRO"]> ∅)
  /\ (<[2 := demoLock "CRO"]> ∅ : gmap Z App.BracketTeam) <> croatiaThrough.
Proof.
  split; [vm_compute; reflexivity|].
  split; [vm_compute; reflexivity|].
  intros H. apply (f_equal (fun o => o !! 17)) in H. vm_compute in H. discriminate.
Qed.

(** C4, amended: in a knockout structure numbered as the bracket assumes
    ([wellNumbered]), a click on a team that is not a possible occupant of
    the match is not rejected, but it never installs or removes a lock at
    that match: the override of the match itself is left as it was.  The
    overrides of other matches may change, as they do in the example
    above. *)
Theorem unreachable_team_keeps_the_match_override :
  forall sosData bound fuel M team ov possible ov',
    wellNumbered (App.sd_knockout sosData) bound ->
    App.getPossibleTeamsFromMatch sosData fuel M (App.sd_knockout sosData) ov
    = Some possible ->
    existsb (App.hasCode (App.bt_code team)) possible = false ->
    App.handleBracketClick sosData fuel M (Some team) ov = Some ov' ->
    ov' !! M = ov !! M.
Proof.
  intros sosData bound fuel M team ov possible ov' Hwf Hposs Hnot Hclick.
  unfold App.handleBracketClick in Hclick.
  destruct (App.findUpstreamMatches sosData fuel (App.bt_code team) M
              (App.sd_knockout sosData) ov) as [path|] eqn:Hpath;
    simpl in Hclick; [|discriminate].
  assert (HMpath : ~ In M path).
  { intros Hin. unfold App.findUpstreamMatches in Hpath.
    destruct (upstreamLoop_members _ _ _ _ _ _ _ _ Hpath M Hin) as [[]|(ts & Hts & Hex)].
    rewrite Hposs in Hts. injection Hts as <-. congruence. }
  destruct (clear_lookup _ _ _ _ _ Hclick M) as [HM|[_ Hd]].
  - rewrite HM. destruct (match ov !! M with Some o => _ | None => false end).
    + now apply fold_delete_other.
    + now apply fold_insert_other.
  - destruct (downstream_above _ _ _ _ Hwf Hd). lia.
Qed.

Lemma unreachable_team_keeps_the_match_override_witness :
  (<[2 := demoLock "CRO"]> ∅ : gmap Z App.BracketTeam) !! 2 = croatiaThrough !! 2.
Proof.
  apply (unreachable_team_keeps_the_match_override demoData 17 6%nat 2
           (demoTeam "DEN" "1D") croatiaThrough [demoLock "CRO"]).
  - exact demoKnockout_wellNumbered.
  - vm_compute. reflexivity.
  - reflexivity.
  - vm_compute. reflexivity.
Defined.

(** ** Counting entrants in maps and lists *)
Section Holders.
Context `{Countable K}.
Implicit Types W : gmap K BracketSimulator.Entrant.

Lemma holders_empty c : holders c (∅ : gmap K BracketSimulator.Entrant) = 0.
Proof. unfold holders. now rewrite map_to_list_empty. Qed.

Lemma holders_nonneg c W : 0 <= holders c W.
Proof. apply countCode_nonneg. Qed.

Lemma holders_insert_fresh c W i w :
  W !! i = None ->
  holders c (<[i := w]> W)
  = (if String.eqb (BracketSimulator.e_code w) c then 1 else 0) + holders c W.
Proof.
  intros Hi. unfold holders.
  rewrite (countCode_perm c _ _ (Permutation_map snd (map_to_list_insert W i w Hi))).
  simpl. apply countCode_cons.
Qed.

Lemma holders_delete c W i w :
  W !! i = Some w ->
  holders c W
  = (if String.eqb (BracketSimulator.e_code w) c then 1 else 0) + holders c (delete i W).
Proof.
  intros Hi. rewrite <- (insert_delete_id W i w Hi) at 1.
  apply holders_insert_fresh, lookup_delete_eq.
Qed.

Lemma holders_delete_le c W i : holders c (delete i W) <= holders c W.
Proof.
  destruct (W !! i) as [w|] eqn:Hi.
  - rewrite (holders_delete c W i w Hi). destruct (String.eqb _ _); lia.
  - rewrite delete_id by exact Hi. lia.
Qed.

Lemma holders_insert_le c W i w :
  holders c (<[i := w]> W)
  <= holders c W + (if String.eqb (BracketSimulator.e_code w) c then 1 else 0).
Proof.
  rewrite <- insert_delete_eq.
  rewrite holders_insert_fresh by apply lookup_delete_eq.
  pose proof (holders_delete_le c W i). lia.
Qed.

Lemma omap_lookup_delete (ks : list K) W k :
  ~ In k ks -> omap (W !!.) ks = omap (delete k W !!.) ks.
Proof.
  induction ks as [|k' ks IH]; intros Hk; [reflexivity|]. csimpl.
  rewrite (lookup_delete_ne W k k') by (intros ->; apply Hk; now left).
  rewrite IH by (intros Hin; apply Hk; now right). reflexivity.
Qed.

(** Distinct keys hold distinct entries. *)
Lemma occupants_le_holders c (ks : list K) : forall W,
  NoDup ks -> countCode c (omap (W !!.) ks) <= holders c W.
Proof.
  induction ks as [|k ks IH]; intros W Hnd; csimpl.
  - apply holders_nonneg.
  - apply NoDup_cons in Hnd as [Hk Hnd].
    assert (Hrest : omap (W !!.) ks = omap (delete k W !!.) ks).
    { apply omap_lookup_delete. intros Hin. apply Hk. now apply list_elem_of_In. }
    destruct (W !! k) as [w|] eqn:Hw.
    + rewrite countCode_cons, (holders_delete c W k w Hw), Hrest.
      specialize (IH (delete k W) Hnd). lia.
    + rewrite Hrest. specialize (IH (delete k W) Hnd).
      pose proof (holders_delete_le c W k). lia.
Qed.
End Holders.

(** ** One knockout round *)
Section KnockoutRounds.
Variable random : nat -> R.
Import BracketSimulator.

Lemma creditAll_app k l1 l2 ts :
  creditAll k (l1 ++ l2) ts = creditAll k l2 (creditAll k l1 ts).
Proof. unfold creditAll. apply fold_left_app. Qed.

Lemma playKnockout_cases k id t1 t2 rd :
  (playKnockout random k id t1 t2 rd = rd /\ (t1 = None \/ t2 = None))
  \/ exists a b w,
       t1 = Some a /\ t2 = Some b /\ (w = a \/ w = b)
       /\ playKnockout random k id t1 t2 rd
          = {| winners := <[id := w]> (winners rd);
               rd_teamStats := credit k (e_code w) (rd_teamStats rd);
               rd_next := S (rd_next rd) |}.
Proof.
  destruct t1 as [a|]; [|left; split; [reflexivity | now left]].
  destruct t2 as [b|]; [|left; split; [reflexivity | now right]].
  right. exists a, b. unfold playKnockout, simulateKnockoutMatch.
  destruct (Js.Rltb _ _); simpl.
  - exists a. repeat split; auto.
  - exists b. repeat split; auto.
Qed.

(** What one match adds: at most one credit, to one of its two teams, and
    at most one new holder in the map of winners. *)
Lemma playKnockout_spec k id t1 t2 rd :
  exists credited,
    rd_teamStats (playKnockout random k id t1 t2 rd)
    = creditAll k credited (rd_teamStats rd)
    /\ (forall c, holders c (winners (playKnockout random k id t1 t2 rd))
                  <= holders c (winners rd) + countCode c credited)
    /\ (credited = []
        \/ exists a b w, t1 = Some a /\ t2 = Some b /\ (w = a \/ w = b) /\ credited = [w]).
Proof.
  destruct (playKnockout_cases k id t1 t2 rd) as [[-> _]|(a & b & w & -> & -> & Hw & ->)].
  - exists []. split; [reflexivity|]. split; [|now left].
    intros c. unfold countCode. simpl. lia.
  - exists [w]. split; [reflexivity|]. split.
    + intros c. simpl. rewrite countCode_cons.
      pose proof (holders_insert_le c (winners rd) id w).
      unfold countCode at 1. simpl. lia.
    + right. exists a, b, w. auto.
Qed.

Lemma countCode_nil c : countCode c [] = 0.
Proof. reflexivity. Qed.

Lemma countCode_one_of c (a b w : Entrant) :
  w = a \/ w = b -> countCode c [w] <= countCode c [a; b].
Proof.
  intros [->| ->]; rewrite !countCode_cons, countCode_nil;
    repeat destruct (String.eqb _ _); lia.
Qed.

Lemma roundStep_spec k prevW rd m :
  exists credited,
    rd_teamStats (roundStep random k prevW rd m) = creditAll k credited (rd_teamStats rd)
    /\ (forall c, holders c (winners (roundStep random k prevW rd m))
                  <= holders c (winners rd) + countCode c credited)
    /\ (forall c, countCode c credited <= countCode c (omap (prevW !!.) (feeders m))).
Proof.
  unfold roundStep.
  destruct (playKnockout_spec k (ko_match m)
              (prevMatches m !! 0%nat ≫= (prevW !!.))
              (prevMatches m !! 1%nat ≫= (prevW !!.)) rd)
    as (credited & Hts & Hw & Hc).
  exists credited. split; [exact Hts|]. split; [exact Hw|].
  intros c. destruct Hc as [->|(a & b & w & H1 & H2 & Hwab & ->)].
  - rewrite countCode_nil. apply countCode_nonneg.
  - unfold feeders.
    destruct (prevMatches m !! 0%nat) as [p0|]; [|discriminate].
    destruct (prevMatches m !! 1%nat) as [p1|]; [|discriminate].
    simpl in H1, H2. case_decide as Hp.
    + subst p1. csimpl. rewrite H1 in H2 |- *. injection H2 as <-.
      destruct Hwab as [->| ->]; lia.
    + csimpl. rewrite H1, H2. now apply countCode_one_of.
Qed.

Lemma roundFold_spec k prevW ms : forall rd,
  exists credited,
    rd_teamStats (fold_left (roundStep random k prevW) ms rd)
    = creditAll k credited (rd_teamStats rd)
    /\ (forall c, holders c (winners (fold_left (roundStep random k prevW) ms rd))
                  <= holders c (winners rd) + countCode c credited)
    /\ (forall c, countCode c credited
                  <= countCode c (omap (prevW !!.) (concat (map feeders ms)))).
Proof.
  induction ms as [|m ms IH]; intros rd; simpl.
  - exists []. split; [reflexivity|]. split; intros c; rewrite countCode_nil; lia.
  - destruct (roundStep_spec k prevW rd m) as (c1 & Hts1 & Hw1 & Hc1).
    destruct (IH (roundStep random k prevW rd m)) as (c2 & Hts2 & Hw2 & Hc2).
    exists (c1 ++ c2). split; [|split].
    + now rewrite Hts2, Hts1, creditAll_app.
    + intros c. rewrite countCode_app. specialize (Hw1 c). specialize (Hw2 c). lia.
    + intros c. rewrite omap_app, !countCode_app.
      specialize (Hc1 c). specialize (Hc2 c). lia.
Qed.

(** A round whose feeding matches are each used once credits a code no
    more often than the previous round's winners hold it. *)
Lemma playRound_spec k ms prev :
  feedersUsedOnce ms ->
  exists credited,
    rd_teamStats (playRound random k ms prev) = creditAll k credited (rd_teamStats prev)
    /\ (forall c, holders c (winners (playRound random k ms prev)) <= countCode c credited)
    /\ (forall c, countCode c credited <= holders c (winners prev)).
Proof.
  intros Hnd. unfold playRound.
  destruct (roundFold_spec k (winners prev) ms
              {| winners := ∅; rd_teamStats := rd_teamStats prev; rd_next := rd_next prev |})
    as (credited & Hts & Hw & Hc).
  exists credited. split; [exact Hts|]. split.
  - intros c. specialize (Hw c). simpl in Hw. rewrite holders_empty in Hw. lia.
  - intros c. specialize (Hc c).
    pose proof (occupants_le_holders c _ (winners prev) Hnd). lia.
Qed.

Lemma feeders_NoDup m : NoDup (feeders m).
Proof.
  unfold feeders.
  destruct (prevMatches m !! 0%nat) as [a|]; [|constructor].
  destruct (prevMatches m !! 1%nat) as [b|]; [|constructor].
  case_decide.
  - apply NoDup_singleton.
  - apply NoDup_cons. split; [|apply NoDup_singleton].
    intros Hin. apply list_elem_of_In in Hin as [Hin|[]]. congruence.
Qed.
End KnockoutRounds.

(** ** The Round of 32 *)
Section RoundOf32.
Variable random : nat -> R.
Import BracketSimulator.

Lemma takeFirst_perm {A : Type} (p : A -> bool) l x rest :
  takeFirst p l = Some (x, rest) -> Permutation l (x :: rest).
Proof.
  revert rest. induction l as [|y l IH]; intros rest; simpl; [discriminate|].
  destruct (p y).
  - intros [= <- <-]. reflexivity.
  - destruct (takeFirst p l) as [[z rest']|]; [|discriminate].
    intros [= <- <-]. rewrite (IH rest' eq_refl). apply perm_swap.
Qed.

Lemma standingAt_occupant gs g i t :
  standingAt gs g i = Some t -> exists name, g = Some name /\ occupant gs (name, i) = t.
Proof.
  unfold standingAt, occupant. destruct g as [name|]; [|discriminate].
  intros Hs. exists name. split; [reflexivity|]. simpl.
  destruct (gs !! name); [|discriminate].
  now injection Hs as <-.
Qed.

Lemma resolveTeam1_occupant gs s t :
  resolveTeam1 gs s = Some (Some t) ->
  exists sl, positionSlot s = Some sl /\ occupant gs sl = Some t.
Proof.
  destruct s as [pool|[z|] g]; simpl; try discriminate.
  destruct z as [|[p|[p|p|]|]|p]; simpl; try discriminate.
  - intros (name & -> & Ho)%standingAt_occupant. eauto.
  - intros (name & -> & Ho)%standingAt_occupant. eauto.
Qed.

Lemma resolveTeam2_cases gs s Q t Q' :
  resolveTeam2 gs s Q = Some (t, Q') ->
  (Q' = Q /\ t = None)
  \/ (Q' = Q /\ exists sl b, positionSlot s = Some sl /\ occupant gs sl = Some b /\ t = Some b)
  \/ (positionSlot s = None /\ exists b, t = Some b /\ Permutation Q (b :: Q')).
Proof.
  destruct s as [pool|[z|] g]; simpl.
  - destruct (takeFirst (inPool pool) Q) as [[b rest]|] eqn:Htf.
    + intros [= <- <-]. right. right. split; [reflexivity|].
      exists b. split; [reflexivity|]. now apply takeFirst_perm in Htf.
    + intros [= <- <-]. now left.
  - destruct z as [|[p|[p|p|]|]|p]; simpl; try (intros [= <- <-]; now left).
    + destruct (standingAt gs g 1) as [o|] eqn:Hs; simpl; [|discriminate].
      intros [= <- <-]. apply standingAt_occupant in Hs as (name & -> & Ho).
      destruct o as [b|]; [|now left]. right. left. split; [reflexivity|]. eauto.
    + destruct (standingAt gs g 0) as [o|] eqn:Hs; simpl; [|discriminate].
      intros [= <- <-]. apply standingAt_occupant in Hs as (name & -> & Ho).
      destruct o as [b|]; [|now left]. right. left. split; [reflexivity|]. eauto.
  - intros [= <- <-]. now left.
Qed.

Lemma r32Step_spec gs Q rd m Q' rd' :
  r32Step random gs (Some (Q, rd)) m = Some (Q', rd') ->
  exists credited,
    rd_teamStats rd' = creditAll CR16 credited (rd_teamStats rd)
    /\ (forall c, holders c (winners rd') <= holders c (winners rd) + countCode c credited)
    /\ (forall c, countCode c credited + countCode c Q'
                  <= countCode c (omap (occupant gs) (matchSlots m)) + countCode c Q).
Proof.
  unfold r32Step.
  destruct (resolveTeam1 gs (parseSlot (team1 m))) as [t1|] eqn:H1; [|discriminate].
  destruct (resolveTeam2 gs (parseSlot (team2 m)) Q) as [[t2 rest]|] eqn:H2; [|discriminate].
  intros [= <- <-].
  destruct (playKnockout_spec random CR16 (r32_match m) t1 t2 rd)
    as (credited & Hts & Hw & Hc).
  exists credited. split; [exact Hts|]. split; [exact Hw|].
  intros c.
  pose proof (countCode_nonneg c (omap (occupant gs) (matchSlots m))) as Hocc.
  apply resolveTeam2_cases in H2.
  destruct Hc as [->|(a & b & w & -> & -> & Hwab & ->)].
  - rewrite countCode_nil.
    destruct H2 as [[-> _]|[[-> _]|(_ & b & _ & Hp)]]; [lia | lia |].
    rewrite (countCode_perm c _ _ Hp), countCode_cons.
    destruct (String.eqb _ _); lia.
  - apply resolveTeam1_occupant in H1 as (sl1 & Hs1 & Ho1).
    unfold matchSlots. rewrite Hs1.
    destruct H2 as [[_ ?]|[(-> & sl2 & b' & Hs2 & Ho2 & [= <-])|(Hs2 & b' & [= <-] & Hp)]];
      [discriminate| |].
    + rewrite Hs2. case_decide as Hsl.
      * subst sl2. csimpl. rewrite Ho1 in Ho2 |- *. injection Ho2 as <-.
        destruct Hwab as [->| ->]; lia.
      * csimpl. rewrite Ho1, Ho2. pose proof (countCode_one_of c a b w Hwab). lia.
    + rewrite Hs2. csimpl. rewrite Ho1.
      rewrite (countCode_perm c _ _ Hp), (countCode_cons c b).
      pose proof (countCode_one_of c a b w Hwab) as Hone.
      repeat rewrite countCode_cons in Hone. repeat rewrite countCode_cons.
      rewrite countCode_nil in *. lia.
Qed.

Lemma r32Fold_None gs ms : fold_left (r32Step random gs) ms None = None.
Proof. induction ms; simpl; auto. Qed.

Lemma r32Fold_spec gs ms : forall Q rd Q' rd',
  fold_left (r32Step random gs) ms (Some (Q, rd)) = Some (Q', rd') ->
  exists credited,
    rd_teamStats rd' = creditAll CR16 credited (rd_teamStats rd)
    /\ (forall c, holders c (winners rd') <= holders c (winners rd) + countCode c credited)
    /\ (forall c, countCode c credited + countCode c Q'
                  <= countCode c (omap (occupant gs) (concat (map matchSlots ms)))
                     + countCode c Q).
Proof.
  induction ms as [|m ms IH]; intros Q rd Q' rd'; cbn [fold_left map concat].
  - intros [= <- <-]. exists []. split; [reflexivity|].
    split; intros c; csimpl; rewrite ?countCode_nil; lia.
  - destruct (r32Step random gs (Some (Q, rd)) m) as [[Q1 rd1]|] eqn:Hstep;
      [|rewrite r32Fold_None; discriminate].
    intros Hfold.
    destruct (r32Step_spec _ _ _ _ _ _ Hstep) as (c1 & Hts1 & Hw1 & Hc1).
    destruct (IH _ _ _ _ Hfold) as (c2 & Hts2 & Hw2 & Hc2).
    exists (c1 ++ c2). split; [|split].
    + now rewrite Hts2, Hts1, creditAll_app.
    + intros c. rewrite countCode_app. specialize (Hw1 c). specialize (Hw2 c). lia.
    + intros c. rewrite omap_app, !countCode_app.
      specialize (Hc1 c). specialize (Hc2 c). lia.
Qed.

Lemma positionSlot_index s sl : positionSlot s = Some sl -> snd sl = 0%nat \/ snd sl = 1%nat.
Proof.
  destruct s as [pool|[z|] [g|]]; simpl; try discriminate;
    destruct z as [|[p|[p|p|]|]|p]; simpl; try discriminate;
    intros [= <-]; auto.
Qed.

Lemma matchSlots_index m sl : In sl (matchSlots m) -> snd sl = 0%nat \/ snd sl = 1%nat.
Proof.
  unfold matchSlots.
  destruct (positionSlot (parseSlot (team1 m))) as [a|] eqn:Ha;
    destruct (positionSlot (parseSlot (team2 m))) as [b|] eqn:Hb;
    try case_decide; simpl; intros Hin;
    repeat (destruct Hin as [<-|Hin]; [eauto using positionSlot_index|]);
    destruct Hin.
Qed.

(** Distinct position slots hold distinct entries of the first two places. *)
Lemma slots_le_holders c (slots : list (string * nat)) : forall (W0 W1 : gmap string Entrant),
  NoDup slots ->
  (forall sl, In sl slots -> snd sl = 0%nat \/ snd sl = 1%nat) ->
  countCode c (omap (fun sl => if (snd sl =? 0)%nat then W0 !! fst sl else W1 !! fst sl) slots)
  <= holders c W0 + holders c W1.
Proof.
  induction slots as [|[g i] slots IH]; intros W0 W1 Hnd Hidx; csimpl.
  - rewrite countCode_nil.
    pose proof (holders_nonneg c W0). pose proof (holders_nonneg c W1). lia.
  - apply NoDup_cons in Hnd as [Hhd Hnd].
    assert (Hidx' : forall sl, In sl slots -> snd sl = 0%nat \/ snd sl = 1%nat)
      by (intros sl Hsl; apply Hidx; now right).
    destruct (Hidx (g, i) (or_introl eq_refl)) as [Hi|Hi]; simpl in Hi; subst i; simpl.
    + assert (Hext : omap (fun sl => if (snd sl =? 0)%nat then W0 !! fst sl else W1 !! fst sl)
                          slots
                     = omap (fun sl => if (snd sl =? 0)%nat then delete g W0 !! fst sl
                                       else W1 !! fst sl) slots).
      { clear IH Hnd Hidx Hidx'. induction slots as [|[g' i'] slots IHs]; [reflexivity|].
        csimpl. rewrite IHs by (intros Hin; apply Hhd; now apply list_elem_of_further).
        destruct (i' =? 0)%nat eqn:Hi'; [|reflexivity].
        apply Nat.eqb_eq in Hi'. subst i'.
        rewrite lookup_delete_ne; [reflexivity|].
        intros ->. apply Hhd. apply list_elem_of_here. }
      rewrite Hext. specialize (IH (delete g W0) W1 Hnd Hidx').
      destruct (W0 !! g) as [w|] eqn:Hw.
      * rewrite countCode_cons, (holders_delete c W0 g w Hw). lia.
      * pose proof (holders_delete_le c W0 g). lia.
    + assert (Hext : omap (fun sl => if (snd sl =? 0)%nat then W0 !! fst sl else W1 !! fst sl)
                          slots
                     = omap (fun sl => if (snd sl =? 0)%nat then W0 !! fst sl
                                       else delete g W1 !! fst sl) slots).
      { clear IH Hnd Hidx. induction slots as [|[g' i'] slots IHs]; [reflexivity|].
        csimpl. rewrite IHs.
        - destruct (i' =? 0)%nat eqn:Hi'; [reflexivity|].
          destruct (Hidx' (g', i') (or_introl eq_refl)) as [Hz|Hz]; simpl in Hz; subst i';
            [discriminate|].
          rewrite lookup_delete_ne; [reflexivity|].
          intros ->. apply Hhd. apply list_elem_of_here.
        - intros Hin. apply Hhd. now apply list_elem_of_further.
        - intros sl Hsl. apply Hidx'. now right. }
      rewrite Hext. specialize (IH W0 (delete g W1) Hnd Hidx').
      destruct (W1 !! g) as [w|] eqn:Hw.
      * rewrite countCode_cons, (holders_delete c W1 g w Hw). lia.
      * pose proof (holders_delete_le c W1 g). lia.
Qed.

Lemma occupants_of_slots c gs slots :
  NoDup slots ->
  (forall sl, In sl slots -> snd sl = 0%nat \/ snd sl = 1%nat) ->
  countCode c (omap (occupant gs) slots)
  <= holders c (omap (fun l : list Entrant => l !! 0%nat) gs)
     + holders c (omap (fun l : list Entrant => l !! 1%nat) gs).
Proof.
  intros Hnd Hidx.
  rewrite <- (slots_le_holders c slots _ _ Hnd Hidx).
  apply Z.eq_le_incl. f_equal.
  apply list_omap_ext. apply Forall2_same_length_lookup. split; [reflexivity|].
  intros i x y Hx Hy. rewrite Hx in Hy. injection Hy as <-.
  assert (Hin : In x slots) by (apply list_elem_of_In; eapply list_elem_of_lookup_2; eauto).
  unfold occupant. rewrite !lookup_omap.
  destruct (Hidx x Hin) as [->| ->]; reflexivity.
Qed.
End RoundOf32.

(** ** The group stage of an iteration *)
Section GroupStage.
Variable random : nat -> R.
Import BracketSimulator.

Lemma counter_countPosition k pos code ts c :
  counter k (alter (countPosition pos) code ts) c = counter k ts c.
Proof.
  unfold counter. rewrite lookup_alter. case_decide; [subst|reflexivity].
  destruct (ts !! c); [|reflexivity]. destruct k; reflexivity.
Qed.

Lemma alter_tracked (f : TeamStats -> TeamStats) code (ts : gmap string TeamStats) c :
  is_Some (alter f code ts !! c) <-> is_Some (ts !! c).
Proof.
  rewrite lookup_alter. case_decide; [subst|reflexivity].
  destruct (ts !! c); simpl; split; intros [? ?]; eauto; discriminate.
Qed.

Lemma counter_creditAll_tracked k k' l ts c :
  is_Some (ts !! c) ->
  counter k' (creditAll k l ts) c
  = counter k' ts c + (if decide (k = k') then countCode c l else 0).
Proof.
  intros Hc. rewrite counter_creditAll.
  repeat case_decide; try lia; exfalso; intuition eauto.
Qed.

Lemma recordStanding_counter k ts pos team c :
  is_Some (ts !! c) ->
  counter k (recordStanding ts (pos, team)) c
  = counter k ts c
    + (if decide (CR32 = k)
       then (if (pos <? 2)%nat then countCode c [team] else 0) else 0).
Proof.
  intros Hc. unfold recordStanding.
  assert (Hc' : is_Some (alter (countPosition pos) (e_code team) ts !! c))
    by now apply alter_tracked.
  destruct pos as [|[|pos]]; simpl.
  - rewrite counter_credit, counter_countPosition, countCode_cons, countCode_nil.
    destruct (String.eqb_spec (e_code team) c);
      repeat case_decide; try lia; exfalso; intuition eauto.
  - rewrite counter_credit, counter_countPosition, countCode_cons, countCode_nil.
    destruct (String.eqb_spec (e_code team) c);
      repeat case_decide; try lia; exfalso; intuition eauto.
  - rewrite counter_countPosition. case_decide; lia.
Qed.

Lemma recordStanding_tracked ts it c :
  is_Some (recordStanding ts it !! c) <-> is_Some (ts !! c).
Proof.
  destruct it as [pos team]. unfold recordStanding.
  destruct (_ || _); [rewrite credit_tracked|]; apply alter_tracked.
Qed.

Lemma recordStandings_fold l : forall i ts,
  let ts' := fold_left recordStanding (combine (seq i (length l)) l) ts in
  (forall c, is_Some (ts' !! c) <-> is_Some (ts !! c))
  /\ forall k c,
       is_Some (ts !! c) ->
       counter k ts' c
       = counter k ts c
         + (if decide (CR32 = k) then countCode c (take (2 - i) l) else 0).
Proof.
  induction l as [|e l IH]; intros i ts; simpl.
  - split; [reflexivity|]. intros k c _. rewrite take_nil, countCode_nil.
    case_decide; lia.
  - destruct (IH (S i) (recordStanding ts (i, e))) as [Htr Hcount].
    split.
    + intros c. rewrite Htr. apply recordStanding_tracked.
    + intros k c Hc. rewrite Hcount by now apply recordStanding_tracked.
      rewrite recordStanding_counter by exact Hc.
      destruct i as [|[|i]]; simpl;
        rewrite ?countCode_cons, ?countCode_nil; case_decide; lia.
Qed.

Lemma countCode_In c l : 0 < countCode c l -> In c (map e_code l).
Proof.
  induction l as [|e l IH]; [rewrite countCode_nil; lia|].
  rewrite countCode_cons. destruct (String.eqb_spec (e_code e) c).
  - intros _. now left.
  - intros Hl. right. apply IH. lia.
Qed.

Lemma countCode_NoDup c l : NoDup (map e_code l) -> countCode c l <= 1.
Proof.
  induction l as [|e l IH]; [rewrite countCode_nil; lia|].
  simpl. intros [Hhd Hnd]%NoDup_cons. rewrite countCode_cons.
  destruct (String.eqb_spec (e_code e) c); [|specialize (IH Hnd); lia].
  pose proof (countCode_nonneg c l).
  destruct (Z.eq_dec (countCode c l) 0) as [Hz|Hpos]; [lia|].
  exfalso. apply Hhd. apply list_elem_of_In. subst c. apply countCode_In. lia.
Qed.

Lemma occurrences_nonneg c l : 0 <= occurrences c l.
Proof. unfold occurrences. lia. Qed.

Lemma occurrences_app c l1 l2 :
  occurrences c (l1 ++ l2) = occurrences c l1 + occurrences c l2.
Proof. unfold occurrences. rewrite List.filter_app, length_app. lia. Qed.

Lemma occurrences_In c l : In c l -> 1 <= occurrences c l.
Proof.
  unfold occurrences. induction l as [|x l IH]; [intros []|].
  simpl. destruct (String.eqb_spec c x); simpl; [lia|].
  intros [->|Hin]; [congruence | now apply IH].
Qed.

Lemma occurrences_NoDup c l : NoDup l -> occurrences c l <= 1.
Proof.
  unfold occurrences. induction l as [|x l IH]; simpl; [lia|].
  intros [Hhd Hnd]%NoDup_cons.
  destruct (String.eqb_spec c x); simpl; [|now apply IH].
  subst x. destruct (List.filter (String.eqb c) l) as [|y l'] eqn:Hf; [simpl; lia|].
  exfalso. apply Hhd. apply list_elem_of_In.
  assert (Hy : In y (List.filter (String.eqb c) l)) by (rewrite Hf; now left).
  apply filter_In in Hy as [Hy Heq]. apply String.eqb_eq in Heq. now subst.
Qed.

Lemma countCode_standings c l codes :
  NoDup (map e_code l) -> (forall c', In c' (map e_code l) -> In c' codes) ->
  countCode c l <= occurrences c codes.
Proof.
  intros Hnd Hin. pose proof (countCode_NoDup c l Hnd).
  pose proof (countCode_nonneg c l). pose proof (occurrences_nonneg c codes).
  destruct (Z.eq_dec (countCode c l) 0) as [Hz|Hpos]; [lia|].
  assert (Hc : In c codes) by (apply Hin, countCode_In; lia).
  pose proof (occurrences_In c codes Hc). lia.
Qed.

Lemma countCode_take c n l : countCode c (take n l) <= countCode c l.
Proof.
  rewrite <- (take_drop n l) at 2. rewrite countCode_app.
  pose proof (countCode_nonneg c (drop n l)). lia.
Qed.

Lemma first_three c g l :
  countCode c (take 2 l)
  + countCode c (match l !! 2%nat with Some third => [withGroup g third] | None => [] end)
  <= countCode c l.
Proof.
  destruct l as [|a [|b [|d l]]]; simpl;
    repeat rewrite countCode_cons; rewrite ?countCode_nil; simpl; try lia.
  pose proof (countCode_nonneg c l). lia.
Qed.

Lemma holders_omap_insert c (f : list Entrant -> option Entrant)
  (gs : gmap string (list Entrant)) g st :
  holders c (omap f (<[g := st]> gs))
  <= holders c (omap f gs) + countCode c (option_list (f st)).
Proof.
  rewrite omap_insert. destruct (f st) as [e|]; simpl.
  - rewrite countCode_cons, countCode_nil.
    pose proof (holders_insert_le c (omap f gs) g e). lia.
  - rewrite countCode_nil. pose proof (holders_delete_le c (omap f gs) g). lia.
Qed.

Lemma first_two c (l : list Entrant) :
  countCode c (option_list (l !! 0%nat)) + countCode c (option_list (l !! 1%nat))
  = countCode c (take 2 l).
Proof.
  destruct l as [|a [|b l]]; simpl;
    repeat rewrite countCode_cons; rewrite ?countCode_nil; lia.
Qed.

(** One group: its standings go into [groupStandings], its first two are
    credited with the Round of 32 and its third is collected. *)
Lemma groupStep_spec st g :
  exists standings,
    NoDup (map e_code standings)
    /\ (forall c, In c (map e_code standings) -> In c (map Js.code (snd g)))
    /\ groupStandings (groupStep random st g) = <[fst g := standings]> (groupStandings st)
    /\ thirdPlaceTeams (groupStep random st g)
       = thirdPlaceTeams st
         ++ match standings !! 2%nat with
            | Some third => [withGroup (fst g) third]
            | None => []
            end
    /\ (forall c, is_Some (gs_teamStats (groupStep random st g) !! c)
                  <-> is_Some (gs_teamStats st !! c))
    /\ forall k c,
         is_Some (gs_teamStats st !! c) ->
         counter k (gs_teamStats (groupStep random st g)) c
         = counter k (gs_teamStats st) c
           + (if decide (CR32 = k) then countCode c (take 2 standings) else 0).
Proof.
  destruct g as [groupName teams]. unfold groupStep.
  pose proof (simulateGroup_NoDup random teams (gs_next st)) as Hnd.
  pose proof (simulateGroup_codes random teams (gs_next st)) as Hcodes.
  destruct (simulateGroup random teams (gs_next st)) as [standings n']. simpl in *.
  exists standings. split; [exact Hnd|]. split.
  { intros c Hc. apply initGroupStats_In.
    eapply Permutation_in; [exact Hcodes | exact Hc]. }
  split; [reflexivity|]. split.
  { destruct (standings !! 2%nat); [reflexivity | now rewrite app_nil_r]. }
  destruct (recordStandings_fold standings 0 (gs_teamStats st)) as [Htr Hcount].
  split; [exact Htr|]. intros k c Hc. now apply Hcount.
Qed.

Lemma groupStage_spec allTeams : forall st,
  exists L2 L3,
    thirdPlaceTeams (fold_left (groupStep random) allTeams st) = thirdPlaceTeams st ++ L3
    /\ (forall c, is_Some (gs_teamStats (fold_left (groupStep random) allTeams st) !! c)
                  <-> is_Some (gs_teamStats st !! c))
    /\ (forall k c,
           is_Some (gs_teamStats st !! c) ->
           counter k (gs_teamStats (fold_left (groupStep random) allTeams st)) c
           = counter k (gs_teamStats st) c
             + (if decide (CR32 = k) then countCode c L2 else 0))
    /\ (forall c,
           holders c (omap (fun l : list Entrant => l !! 0%nat)
                           (groupStandings (fold_left (groupStep random) allTeams st)))
           + holders c (omap (fun l : list Entrant => l !! 1%nat)
                             (groupStandings (fold_left (groupStep random) allTeams st)))
           <= holders c (omap (fun l : list Entrant => l !! 0%nat) (groupStandings st))
              + holders c (omap (fun l : list Entrant => l !! 1%nat) (groupStandings st))
              + countCode c L2)
    /\ (forall c, countCode c L2 + countCode c L3 <= occurrences c (allCodes allTeams)).
Proof.
  induction allTeams as [|g allTeams IH]; intros st; simpl.
  - exists [], []. rewrite app_nil_r. split; [reflexivity|]. split; [reflexivity|].
    split; [|split]; intros; rewrite ?countCode_nil; try case_decide; try lia.
    unfold allCodes. simpl. unfold occurrences. simpl. lia.
  - destruct (groupStep_spec st g) as (standings & Hnd & Hin & Hgs & Hthird & Htr & Hcount).
    destruct (IH (groupStep random st g)) as (L2 & L3 & Hthird' & Htr' & Hcount' & Hhold & Hocc).
    exists (take 2 standings ++ L2).
    exists (match standings !! 2%nat with
            | Some third => [withGroup (fst g) third]
            | None => []
            end ++ L3).
    split; [now rewrite Hthird', Hthird, app_assoc|]. split.
    { intros c. now rewrite Htr', Htr. }
    split.
    { intros k c Hc. rewrite Hcount' by now apply Htr.
      rewrite Hcount by exact Hc. rewrite countCode_app. case_decide; lia. }
    split.
    { intros c. specialize (Hhold c). rewrite Hgs in Hhold.
      pose proof (holders_omap_insert c (fun l : list Entrant => l !! 0%nat)
                    (groupStandings st) (fst g) standings).
      pose proof (holders_omap_insert c (fun l : list Entrant => l !! 1%nat)
                    (groupStandings st) (fst g) standings).
      pose proof (first_two c standings). rewrite countCode_app.
      cbv beta in *. lia. }
    intros c. specialize (Hocc c). unfold allCodes in *. simpl.
    rewrite occurrences_app, !countCode_app.
    pose proof (first_three c (fst g) standings).
    pose proof (countCode_standings c standings _ Hnd Hin). lia.
Qed.
End GroupStage.

(** ** A whole iteration *)
Section Tournament.
Variable random : nat -> R.
Import BracketSimulator.

Lemma qualifiers_count c thirds : countCode c (qualifiers thirds) <= countCode c thirds.
Proof.
  unfold qualifiers.
  rewrite <- (countCode_perm c _ _ (sort_perm rankedAfter thirds)).
  apply countCode_take.
Qed.

Lemma slots_index (ms : list R32Match) sl :
  In sl (concat (map matchSlots ms)) -> snd sl = 0%nat \/ snd sl = 1%nat.
Proof.
  intros (l & Hl & Hsl)%in_concat. apply in_map_iff in Hl as (m & <- & _).
  now apply matchSlots_index in Hsl.
Qed.

Lemma final_feeders m : feedersUsedOnce [m].
Proof. unfold feedersUsedOnce. simpl. rewrite app_nil_r. apply feeders_NoDup. Qed.

(** One iteration moves the counters of every tracked code in step. *)
Lemma iteration_step allTeams ko ts n ts' n' :
  slotsUsedOnce (r32 ko) -> feedersUsedOnce (r16 ko) ->
  feedersUsedOnce (qf ko) -> feedersUsedOnce (sf ko) ->
  iteration random allTeams ko (Some (ts, n)) = Some (ts', n') ->
  (forall c, is_Some (ts' !! c) <-> is_Some (ts !! c))
  /\ forall c, is_Some (ts !! c) -> advances (occurrences c (allCodes allTeams)) ts ts' c.
Proof.
  intros H32 H16 Hqf Hsf. unfold iteration.
  destruct (groupStage_spec random allTeams (groupStageStart ts n))
    as (L2 & L3 & Hthirds & Htr & Hcount & Hhold & Hocc).
  unfold groupStageStart in *.
  match type of Hthirds with thirdPlaceTeams ?s = _ => remember s as st eqn:Hst in * end.
  clear Hst. cbn [groupStandings thirdPlaceTeams gs_teamStats gs_next app] in *.
  rewrite Hthirds.
  destruct (fold_left (r32Step random (groupStandings st)) (r32 ko) _)
    as [[Q' r32W]|] eqn:Hfold; [|discriminate].
  destruct (final ko !! 0%nat) as [fm|]; [|discriminate].
  cbv zeta. intros [= <- <-].
  destruct (r32Fold_spec random _ _ _ _ _ _ Hfold) as (c16 & Hts16 & Hw16 & Hc16).
  cbn [winners rd_teamStats] in Hts16, Hw16.
  destruct (playRound_spec random CQF (r16 ko) r32W H16) as (cqf & Htsqf & Hwqf & Hcqf).
  set (r16W := playRound random CQF (r16 ko) r32W) in *.
  destruct (playRound_spec random CSF (qf ko) r16W Hqf) as (csf & Htssf & Hwsf & Hcsf).
  set (qfW := playRound random CSF (qf ko) r16W) in *.
  destruct (playRound_spec random CFinal (sf ko) qfW Hsf) as (cfin & Htsfin & Hwfin & Hcfin).
  set (sfW := playRound random CFinal (sf ko) qfW) in *.
  destruct (playRound_spec random CWin [fm] sfW (final_feeders fm))
    as (cwin & Htswin & Hwwin & Hcwin).
  rewrite Htswin, Htsfin, Htssf, Htsqf, Hts16.
  split.
  - intros c. rewrite !creditAll_tracked. apply Htr.
  - intros c Hc. assert (Hc' : is_Some (gs_teamStats st !! c)) by now apply Htr.
    exists (countCode c L2 + countCode c (qualifiers L3)), (countCode c c16),
      (countCode c cqf), (countCode c csf), (countCode c cfin), (countCode c cwin).
    split.
    + specialize (Hhold c). rewrite !omap_empty, !holders_empty in Hhold.
      specialize (Hocc c). specialize (Hw16 c). rewrite holders_empty in Hw16.
      specialize (Hc16 c). specialize (Hwqf c). specialize (Hcqf c).
      specialize (Hwsf c). specialize (Hcsf c). specialize (Hwfin c). specialize (Hcfin c).
      specialize (Hcwin c).
      pose proof (countCode_nonneg c cwin). pose proof (countCode_nonneg c Q').
      pose proof (qualifiers_count c L3).
      pose proof (occupants_of_slots c (groupStandings st) _ H32 (slots_index (r32 ko))).
      lia.
    + repeat split;
        rewrite !counter_creditAll_tracked by (rewrite ?creditAll_tracked; exact Hc');
        rewrite Hcount by exact Hc;
        repeat case_decide; try congruence; lia.
Qed.

Lemma advances_chained b d ts ts' c :
  chained b ts c -> advances d ts ts' c -> chained (b + d) ts' c.
Proof.
  unfold chained.
  intros Hch (d32 & d16 & dqf & dsf & dfin & dwin & Hd & -> & -> & -> & -> & -> & ->).
  lia.
Qed.

Lemma iteration_None allTeams ko : iteration random allTeams ko None = None.
Proof. reflexivity. Qed.

(** The loop over the simulations keeps the chain of every tracked code. *)
Lemma run_chain allTeams ko ts0 n0 :
  slotsUsedOnce (r32 ko) -> feedersUsedOnce (r16 ko) ->
  feedersUsedOnce (qf ko) -> feedersUsedOnce (sf ko) ->
  forall simulations ts n,
    Nat.iter simulations (iteration random allTeams ko) (Some (ts0, n0)) = Some (ts, n) ->
    (forall c, is_Some (ts !! c) <-> is_Some (ts0 !! c))
    /\ forall c, is_Some (ts0 !! c) -> chained 0 ts0 c ->
                 chained (Z.of_nat simulations * occurrences c (allCodes allTeams)) ts c.
Proof.
  intros H32 H16 Hqf Hsf. induction simulations as [|s IH]; intros ts n.
  - simpl. intros [= <- <-]. split; [reflexivity|]. intros c _ Hch. exact Hch.
  - rewrite Nat.iter_succ.
    destruct (Nat.iter s (iteration random allTeams ko) (Some (ts0, n0)))
      as [[ts1 n1]|]; [|discriminate].
    intros Hstep. destruct (IH ts1 n1 eq_refl) as [Htr1 Hch1].
    destruct (iteration_step _ _ _ _ _ _ H32 H16 Hqf Hsf Hstep) as [Htr Hadv].
    split.
    + intros c. now rewrite Htr, Htr1.
    + intros c Hc Hch0.
      replace (Z.of_nat (S s) * occurrences c (allCodes allTeams))
        with (Z.of_nat s * occurrences c (allCodes allTeams)
              + occurrences c (allCodes allTeams)) by lia.
      apply advances_chained with ts1; [now apply Hch1|].
      apply Hadv. now apply Htr1.
Qed.

(** The statistics before the first iteration. *)
Lemma initTeam_tracked ts t c :
  is_Some (initTeam ts t !! c) <-> is_Some (ts !! c) \/ c = Js.code t.
Proof.
  unfold initTeam. destruct (ts !! Js.code t) as [s|] eqn:Ht.
  - split; [now left|]. intros [Hc| ->]; [exact Hc|]. rewrite Ht. eauto.
  - rewrite lookup_insert_is_Some. destruct (decide (Js.code t = c)) as [<-|Hne].
    + split; auto.
    + split; [intros [?|[_ ?]]; [congruence | now left] | intros [?|?]; [auto | congruence]].
Qed.

Lemma initTeam_counter k ts t :
  (forall c, counter k ts c = 0) -> forall c, counter k (initTeam ts t) c = 0.
Proof.
  intros Hz c. unfold initTeam. destruct (ts !! Js.code t) as [s|] eqn:Ht; [apply Hz|].
  unfold counter. destruct (decide (Js.code t = c)) as [<-|Hne].
  - rewrite lookup_insert_eq. destruct k; reflexivity.
  - rewrite lookup_insert_ne by exact Hne. apply Hz.
Qed.

Lemma initTeams_tracked l : forall ts c,
  is_Some (fold_left initTeam l ts !! c) <-> is_Some (ts !! c) \/ In c (map Js.code l).
Proof.
  induction l as [|t l IH]; intros ts c; simpl; [tauto|].
  rewrite IH, initTeam_tracked. intuition auto.
Qed.

Lemma initTeams_counter k l : forall ts,
  (forall c, counter k ts c = 0) -> forall c, counter k (fold_left initTeam l ts) c = 0.
Proof.
  induction l as [|t l IH]; intros ts Hz; simpl; [exact Hz|].
  apply IH. now apply initTeam_counter.
Qed.

Lemma initGroups_tracked allTeams : forall ts c,
  is_Some (fold_left (fun ts (g : string * list Js.Team) => fold_left initTeam (snd g) ts) allTeams ts !! c)
  <-> is_Some (ts !! c) \/ In c (allCodes allTeams).
Proof.
  unfold allCodes. induction allTeams as [|g allTeams IH]; intros ts c; simpl; [tauto|].
  rewrite IH, initTeams_tracked, in_app_iff. tauto.
Qed.

Lemma initGroups_counter k allTeams : forall ts,
  (forall c, counter k ts c = 0) ->
  forall c, counter k (fold_left (fun ts (g : string * list Js.Team) => fold_left initTeam (snd g) ts) allTeams ts) c = 0.
Proof.
  induction allTeams as [|g allTeams IH]; intros ts Hz; simpl; [exact Hz|].
  apply IH. now apply initTeams_counter.
Qed.

Lemma initTeamStats_tracked allTeams c :
  is_Some (initTeamStats allTeams !! c) <-> In c (allCodes allTeams).
Proof.
  unfold initTeamStats. rewrite initGroups_tracked, lookup_empty.
  split; [intros [[? ?]|?]; [discriminate | assumption] | now right].
Qed.

Lemma initTeamStats_chained allTeams c : chained 0 (initTeamStats allTeams) c.
Proof.
  assert (Hz : forall k, counter k (initTeamStats allTeams) c = 0).
  { intros k. apply initGroups_counter. intros c'. unfold counter.
    now rewrite lookup_empty. }
  unfold chained. rewrite !Hz. lia.
Qed.

Lemma allCodes_buildTeams groupData ratings expectedElos teamNames :
  allCodes (buildTeams groupData ratings expectedElos teamNames)
  = concat (map snd (groups groupData)).
Proof.
  unfold allCodes, buildTeams. induction (groups groupData) as [|g gs IH]; [reflexivity|].
  simpl. rewrite IH. f_equal. rewrite List.map_map. simpl. apply List.map_id.
Qed.

Lemma groupNames_buildTeams groupData ratings expectedElos teamNames :
  map fst (buildTeams groupData ratings expectedElos teamNames)
  = map fst (groups groupData).
Proof. unfold buildTeams. rewrite List.map_map. reflexivity. Qed.

(** Counts over the number of simulations. *)
Lemma ratio_le a b (s : nat) :
  (1 <= s)%nat -> a <= b -> (IZR a / INR s <= IZR b / INR s)%R.
Proof.
  intros Hs Hab. apply IZR_le in Hab.
  assert (0 < / INR s)%R by (apply Rinv_0_lt_compat, lt_0_INR; lia).
  unfold Rdiv. nra.
Qed.

Lemma ratio_le_1 a (s : nat) : (1 <= s)%nat -> a <= Z.of_nat s -> (IZR a / INR s <= 1)%R.
Proof.
  intros Hs Ha. apply IZR_le in Ha. rewrite <- INR_IZR_INZ in Ha.
  assert (Hpos : (0 < INR s)%R) by (apply lt_0_INR; lia).
  assert (0 < / INR s)%R by now apply Rinv_0_lt_compat.
  assert (INR s * / INR s = 1)%R by (apply Rinv_r; lra).
  unfold Rdiv. nra.
Qed.

Lemma toRow_monotone ts simulations t :
  (1 <= simulations)%nat -> is_Some (ts !! Js.code t) ->
  chained (Z.of_nat simulations) ts (Js.code t) ->
  monotoneRow (toRow ts simulations t).
Proof.
  intros Hs [s Hts] Hch. unfold chained, counter in Hch. rewrite Hts in Hch. simpl in Hch.
  unfold monotoneRow, toRow. rewrite Hts. simpl.
  destruct Hch as (H0 & H1 & H2 & H3 & H4 & H5 & H6).
  repeat split; try (now apply ratio_le); [|now apply ratio_le_1].
  replace 0%R with (IZR 0 / INR simulations)%R by (unfold Rdiv; lra).
  now apply ratio_le.
Qed.

(** ** When the run returns *)

Lemma groupStage_names allTeams : forall st name,
  is_Some (groupStandings st !! name) \/ In name (map fst allTeams) ->
  is_Some (groupStandings (fold_left (groupStep random) allTeams st) !! name).
Proof.
  induction allTeams as [|g allTeams IH]; intros st name; simpl; [tauto|].
  intros Hname. apply IH.
  destruct (groupStep_spec random st g) as (standings & _ & _ & -> & _).
  rewrite lookup_insert_is_Some.
  destruct (decide (fst g = name)) as [Heq|Hne]; [now left; left|].
  destruct Hname as [?|[?|?]]; [left; right; auto | congruence | now right].
Qed.

Lemma standingAt_returns (gs : gmap string (list Entrant)) names g i :
  (forall name, In name names -> is_Some (gs !! name)) ->
  (exists name, g = Some name /\ In name names) ->
  is_Some (standingAt gs g i).
Proof.
  intros Hgs (name & -> & Hin). simpl. destruct (Hgs name Hin) as [l ->]. eauto.
Qed.

Lemma resolveTeam1_returns (gs : gmap string (list Entrant)) names s :
  (forall name, In name names -> is_Some (gs !! name)) ->
  slotResolves names s -> is_Some (resolveTeam1 gs s).
Proof.
  intros Hgs. destruct s as [pool|[z|] g]; simpl; eauto.
  destruct z as [|[p|[p|p|]|]|p]; simpl; eauto; now apply standingAt_returns.
Qed.

Lemma resolveTeam2_returns (gs : gmap string (list Entrant)) names s Q :
  (forall name, In name names -> is_Some (gs !! name)) ->
  slotResolves names s -> is_Some (resolveTeam2 gs s Q).
Proof.
  intros Hgs. destruct s as [pool|[z|] g]; simpl; eauto.
  - destruct (takeFirst _ _) as [[? ?]|]; eauto.
  - destruct z as [|[p|[p|p|]|]|p]; simpl; eauto; intros Hs;
      match goal with
      | |- context [standingAt gs g ?i] =>
          destruct (standingAt_returns gs names g i Hgs Hs) as [o ->]
      end; simpl; eauto.
Qed.

Lemma r32Fold_returns (gs : gmap string (list Entrant)) names ms :
  (forall name, In name names -> is_Some (gs !! name)) ->
  Forall (fun m => slotResolves names (parseSlot (team1 m))
                   /\ slotResolves names (parseSlot (team2 m))) ms ->
  forall acc, is_Some acc -> is_Some (fold_left (r32Step random gs) ms acc).
Proof.
  intros Hgs. induction 1 as [|m ms [Hm1 Hm2] _ IH]; intros acc Hacc; simpl; [exact Hacc|].
  apply IH. destruct Hacc as [[Q rd] ->]. unfold r32Step.
  destruct (resolveTeam1_returns gs names _ Hgs Hm1) as [t1 ->].
  destruct (resolveTeam2_returns gs names _ Q Hgs Hm2) as [[t2 rest] ->]. eauto.
Qed.

Lemma iteration_returns allTeams ko acc :
  Forall (fun m => slotResolves (map fst allTeams) (parseSlot (team1 m))
                   /\ slotResolves (map fst allTeams) (parseSlot (team2 m))) (r32 ko) ->
  final ko <> [] ->
  is_Some acc -> is_Some (iteration random allTeams ko acc).
Proof.
  intros Hres Hfinal [[ts n] ->]. unfold iteration.
  set (st := fold_left (groupStep random) allTeams _).
  assert (Hgs : forall name, In name (map fst allTeams) ->
                             is_Some (groupStandings st !! name))
    by (intros name Hin; apply groupStage_names; now right).
  match goal with
  | |- context [fold_left (r32Step random _) (r32 ko) ?start] =>
      destruct (r32Fold_returns (groupStandings st) _ _ Hgs Hres start)
        as [[Q' r32W] ->]; [eauto|]
  end.
  destruct (final ko) as [|fm rest]; [congruence|]. simpl. eauto.
Qed.

Lemma run_returns allTeams ko acc simulations :
  Forall (fun m => slotResolves (map fst allTeams) (parseSlot (team1 m))
                   /\ slotResolves (map fst allTeams) (parseSlot (team2 m))) (r32 ko) ->
  final ko <> [] ->
  is_Some acc -> is_Some (Nat.iter simulations (iteration random allTeams ko) acc).
Proof.
  intros Hres Hfinal Hacc. induction simulations as [|s IH]; [exact Hacc|].
  rewrite Nat.iter_succ. now apply iteration_returns.
Qed.
End Tournament.

(** With every draw equal to 0 the first team of a knockout match wins:
    its win probability is positive. *)
Lemma first_team_wins :
  BracketSimulator.simulateKnockoutMatch zeroRandom = fun _ _ n => (1, S n).
Proof.
  extensionality a. extensionality b. extensionality n.
  unfold BracketSimulator.simulateKnockoutMatch, Js.Rltb, zeroRandom.
  destruct (Rlt_dec _ _) as [|Hn]; [reflexivity|].
  exfalso. apply Hn. pose proof (pow10_pos ((IZR b - IZR a) / 400)).
  apply Rdiv_lt_0_compat; lra.
Qed.

(** C10, as stated, fails, in two ways.

    In [replayTournament] every group-position slot is placed in one
    Round-of-32 match, but matches 1 and 2 are the [prevMatches] of both
    match 17 and match 18.  With one simulation in which every draw is 0,
    Argentina wins match 1 once and is counted once for the Round of 16,
    then wins match 17 and match 18 and is counted twice for the
    quarter-finals: [r16Prob] is 1 and [qfProb] is 2.

    In [sharedCodeTournament] Argentina is listed in two groups, wins both
    and is counted twice for the Round of 32 in the one simulation:
    [r32Prob] is 2. *)
Lemma replayed_match_or_shared_code_breaks_the_chain :
  (slotsUsedOnce (BracketSimulator.r32 (BracketSimulator.knockout replayTournament))
   /\ match BracketSimulator.simulateTournament zeroRandom replayTournament ∅ ∅ ∅ 1 0 with
      | Some ((_, [row]) :: _) =>
          BracketSimulator.row_code row = "ARG"
          /\ BracketSimulator.r16Prob row = 1%R
          /\ BracketSimulator.qfProb row = 2%R
          /\ (BracketSimulator.r16Prob row < BracketSimulator.qfProb row)%R
          /\ ~ monotoneRow row
      | _ => False
      end)
  /\ (slotsUsedOnce (BracketSimulator.r32 (BracketSimulator.knockout sharedCodeTournament))
      /\ match BracketSimulator.simulateTournament zeroRandom sharedCodeTournament ∅ ∅ ∅ 1 0
         with
         | Some ((_, [row]) :: _) =>
             BracketSimulator.row_code row = "ARG"
             /\ BracketSimulator.r32Prob row = 2%R
             /\ (1 < BracketSimulator.r32Prob row)%R
             /\ ~ monotoneRow row
         | _ => False
         end).
Proof.
  split; (split; [apply (bool_decide_unpack _); vm_compute; exact I|]);
    unfold BracketSimulator.simulateTournament, BracketSimulator.iteration,
      BracketSimulator.playRound, BracketSimulator.roundStep, BracketSimulator.r32Step,
      BracketSimulator.playKnockout;
    rewrite first_team_wins; vm_compute; repeat split; lra.
Qed.

(** C10, amended: the chain needs more than distinct group-position slots.
    Provided that each group-position slot is placed in at most one
    Round-of-32 match, that each match feeds at most one match of the next
    round (in the Round of 16, the quarter-finals and the semi-finals), that
    the team codes of all groups are pairwise distinct and that at least one
    simulation is run, then for every sequence of random draws every row of
    the result satisfies
    0 <= winProb <= finalProb <= sfProb <= qfProb <= r16Prob <= r32Prob <= 1.
    The run does return a result whenever every Round-of-32 slot of
    position 1 or 2 names one of the groups and a final is listed. *)
Theorem round_probabilities_are_monotone (random : nat -> R)
  (groupData : BracketSimulator.GroupData) (ratings expectedElos : gmap string Z)
  (teamNames : gmap string string) (simulations n0 : nat) :
  slotsUsedOnce (BracketSimulator.r32 (BracketSimulator.knockout groupData)) ->
  feedersUsedOnce (BracketSimulator.r16 (BracketSimulator.knockout groupData)) ->
  feedersUsedOnce (BracketSimulator.qf (BracketSimulator.knockout groupData)) ->
  feedersUsedOnce (BracketSimulator.sf (BracketSimulator.knockout groupData)) ->
  NoDup (concat (map snd (BracketSimulator.groups groupData))) ->
  (1 <= simulations)%nat ->
  (forall results,
      BracketSimulator.simulateTournament random groupData ratings expectedElos teamNames
        simulations n0 = Some results ->
      forall g rows row, In (g, rows) results -> In row rows -> monotoneRow row)
  /\ (r32Resolves groupData ->
      BracketSimulator.final (BracketSimulator.knockout groupData) <> [] ->
      exists results,
        BracketSimulator.simulateTournament random groupData ratings expectedElos teamNames
          simulations n0 = Some results).
Proof.
  intros H32 H16 Hqf Hsf Hnd Hs. unfold BracketSimulator.simulateTournament.
  set (allTeams := BracketSimulator.buildTeams groupData ratings expectedElos teamNames).
  split.
  - intros results Hrun g rows row Hg Hrow.
    destruct (Nat.iter simulations _ _) as [[ts n]|] eqn:Hiter; [|discriminate].
    injection Hrun as <-.
    apply in_map_iff in Hg as (grp & [= <- <-] & Hgrp).
    apply sort_In in Hrow. apply in_map_iff in Hrow as (t & <- & Ht).
    destruct (run_chain random allTeams _ _ _ H32 H16 Hqf Hsf _ _ _ Hiter) as [Htr Hch].
    assert (Hin : In (Js.code t) (allCodes allTeams)).
    { unfold allCodes. apply in_concat. exists (map Js.code (snd grp)).
      split; [|now apply in_map].
      apply in_map_iff. exists grp. auto. }
    assert (Htracked : is_Some (BracketSimulator.initTeamStats allTeams !! Js.code t))
      by now apply initTeamStats_tracked.
    apply toRow_monotone; [exact Hs | now apply Htr |].
    specialize (Hch (Js.code t) Htracked (initTeamStats_chained allTeams (Js.code t))).
    pose proof (occurrences_NoDup (Js.code t) (allCodes allTeams)) as Hocc.
    unfold allTeams in Hocc at 1. rewrite allCodes_buildTeams in Hocc. specialize (Hocc Hnd).
    pose proof (occurrences_nonneg (Js.code t) (allCodes allTeams)).
    assert (Z.of_nat simulations * occurrences (Js.code t) (allCodes allTeams)
            <= Z.of_nat simulations) by nia.
    unfold chained in *. lia.
  - intros Hres Hfinal.
    destruct (run_returns random allTeams (BracketSimulator.knockout groupData)
                (Some (BracketSimulator.initTeamStats allTeams, n0)) simulations)
      as [[ts n] ->]; eauto.
    unfold allTeams. rewrite groupNames_buildTeams. exact Hres.
Qed.

Lemma round_probabilities_witness :
  exists results,
    BracketSimulator.simulateTournament zeroRandom smallTournament ∅ ∅ ∅ 1 0 = Some results
    /\ length results = 4%nat
    /\ forall g rows row, In (g, rows) results -> In row rows -> monotoneRow row.
Proof.
  destruct (round_probabilities_are_monotone zeroRandom smallTournament ∅ ∅ ∅ 1 0)
    as [Hchain Hreturns].
  - apply (bool_decide_unpack _); vm_compute; exact I.
  - apply (bool_decide_unpack _); vm_compute; exact I.
  - apply (bool_decide_unpack _); vm_compute; exact I.
  - apply (bool_decide_unpack _); vm_compute; exact I.
  - apply (bool_decide_unpack _); vm_compute; exact I.
  - lia.
  - destruct Hreturns as [results Hrun].
    + repeat constructor; simpl; eexists; (split; [reflexivity | simpl; tauto]).
    + discriminate.
    + exists results. split; [exact Hrun|]. split; [|exact (Hchain results Hrun)].
      unfold BracketSimulator.simulateTournament in Hrun.
      destruct (Nat.iter 1 _ _) as [[ts n]|]; [|discriminate].
      injection Hrun as <-. reflexivity.
Defined.

(** * Further properties of the code *)

(** ** Rounding and the Elo curve *)
Section RoundingFacts.
Local Open Scope R_scope.

Lemma Math_round_IZR n : Js.Math_round (IZR n) = n.
Proof.
  unfold Js.Math_round. symmetry. apply Int_part_spec. lra.
Qed.

Lemma Math_round_le x y : x <= y -> (Js.Math_round x <= Js.Math_round y)%Z.
Proof.
  intros Hxy. unfold Js.Math_round.
  destruct (base_Int_part (x + / 2)) as [Hx _].
  destruct (base_Int_part (y + / 2)) as [_ Hy].
  apply Z.lt_succ_r. apply lt_IZR. rewrite succ_IZR. lra.
Qed.

Lemma Math_round_between (lo hi : Z) x :
  IZR lo <= x <= IZR hi -> (lo <= Js.Math_round x <= hi)%Z.
Proof.
  intros [Hlo Hhi]. apply Math_round_le in Hlo, Hhi.
  rewrite Math_round_IZR in Hlo, Hhi. now split.
Qed.

Lemma pow10_lt x y : x < y -> Js.pow10 x < Js.pow10 y.
Proof. intros Hxy. rewrite !pow10_unseal. apply Rpower_lt; lra. Qed.

Lemma eloWinProbability_lt a a' b :
  a < a' -> SosCalculator.eloWinProbability a b < SosCalculator.eloWinProbability a' b.
Proof.
  intros Ha. unfold SosCalculator.eloWinProbability.
  pose proof (pow10_pos ((b - a') / 400)) as H1.
  pose proof (pow10_lt ((b - a') / 400) ((b - a) / 400)) as H2.
  unfold Rdiv at 1 3. rewrite !Rmult_1_l.
  apply Rinv_lt_contravar; [|lra].
  apply Rmult_lt_0_compat; lra.
Qed.
End RoundingFacts.

(** X1: [eloWinProbability] is a probability strictly between 0 and 1, the two
    sides of a pairing share 1 between them, and equal ratings give 1/2. *)
Theorem elo_win_probability_is_a_probability :
  forall rating1 rating2 : R,
    (0 < SosCalculator.eloWinProbability rating1 rating2 < 1)%R
    /\ (SosCalculator.eloWinProbability rating1 rating2
        + SosCalculator.eloWinProbability rating2 rating1 = 1)%R
    /\ SosCalculator.eloWinProbability rating1 rating1 = (1 / 2)%R.
Proof.
  intros a b. split; [split; [apply eloWinProbability_pos | apply eloWinProbability_lt_1]|].
  split; [apply eloWinProbability_complement | apply elo_equal].
Qed.

(** X2: [eloWinProbability] strictly grows with the team's own rating and
    strictly falls with the opponent's. *)
Theorem elo_win_probability_is_monotone :
  forall a a' b b' : R,
    (a < a')%R -> (b < b')%R ->
    (SosCalculator.eloWinProbability a b < SosCalculator.eloWinProbability a' b)%R
    /\ (SosCalculator.eloWinProbability a b' < SosCalculator.eloWinProbability a b)%R.
Proof.
  intros a a' b b' Ha Hb. split; [now apply eloWinProbability_lt|].
  pose proof (eloWinProbability_complement a b).
  pose proof (eloWinProbability_complement a b').
  pose proof (eloWinProbability_lt b b' a Hb). lra.
Qed.

Lemma elo_win_probability_is_monotone_witness :
  (SosCalculator.eloWinProbability 1500 1700 < SosCalculator.eloWinProbability 1600 1700)%R
  /\ (SosCalculator.eloWinProbability 1500 1800 < SosCalculator.eloWinProbability 1500 1700)%R.
Proof.
  apply (elo_win_probability_is_monotone 1500 1600 1700 1800); lra.
Defined.

(** X3: [getMatchProbabilities]: the draw probability stays between 0.15 and
    0.27, win and loss probabilities are strictly between 0 and 1, and
    swapping the two teams swaps win and loss and keeps the draw. *)
Theorem match_probabilities_are_bounded_and_symmetric :
  forall teamElo oppElo : R,
    let p := SosCalculator.getMatchProbabilities teamElo oppElo in
    let q := SosCalculator.getMatchProbabilities oppElo teamElo in
    (0.15 <= SosCalculator.drawProb p <= 0.27)%R
    /\ (0 < SosCalculator.winProb p < 1)%R
    /\ (0 < SosCalculator.lossProb p < 1)%R
    /\ SosCalculator.winProb q = SosCalculator.lossProb p
    /\ SosCalculator.lossProb q = SosCalculator.winProb p
    /\ SosCalculator.drawProb q = SosCalculator.drawProb p.
Proof.
  intros a b p q. subst p q. unfold SosCalculator.getMatchProbabilities.
  cbn [SosCalculator.drawProb SosCalculator.winProb SosCalculator.lossProb].
  fold (SosCalculator.eloWinProbability a b). fold (SosCalculator.eloWinProbability b a).
  pose proof (eloWinProbability_pos a b). pose proof (eloWinProbability_lt_1 a b).
  pose proof (eloWinProbability_complement a b) as Hc.
  rewrite (Rabs_minus_sym b a).
  set (d := Rmax 0.15 (0.27 - Rabs (a - b) * 0.0004)).
  assert (Hd : (0.15 <= d <= 0.27)%R).
  { subst d. split; [apply Rmax_l|].
    apply Rmax_lub; [lra|]. pose proof (Rabs_pos (a - b)). lra. }
  set (w := SosCalculator.eloWinProbability a b) in *.
  replace (SosCalculator.eloWinProbability b a) with (1 - w)%R by lra.
  repeat split; try lra; try nra.
Qed.

(** ** The closed-form playoff resolvers *)
Section ResolverFacts.
Local Open Scope R_scope.

Lemma byProbDesc_sorted l :
  StronglySorted (fun a b => SosCalculator.pt_prob b <= SosCalculator.pt_prob a)
                 (Js.sort SosCalculator.byProbDesc l).
Proof.
  apply StronglySorted_impl with (R1 := fun a b => SosCalculator.byProbDesc a b = false).
  - intros a b. unfold SosCalculator.byProbDesc, Js.Rltb.
    destruct (Rlt_dec _ _); [discriminate | lra].
  - apply sort_sorted; unfold SosCalculator.byProbDesc, Js.Rltb; intros *;
      repeat destruct (Rlt_dec _ _); try discriminate; try reflexivity; intros; lra.
Qed.

(** A mixture of two numbers lies between them. *)
Lemma mix_between p x y lo hi :
  0 < p < 1 -> lo <= x <= hi -> lo <= y <= hi -> lo <= p * x + (1 - p) * y <= hi.
Proof. intros Hp Hx Hy. split; nra. Qed.
End ResolverFacts.

(** X4: [simulateBracket]: the entries come out by descending win probability,
    each probability is strictly between 0 and 1, and the expected rating
    of the winner lies between the lowest and the highest of the three
    ratings. *)
Theorem bracket_result_is_ordered_and_within_range :
  forall bracket ratings,
    let r := SosCalculator.simulateBracket bracket ratings in
    StronglySorted (fun a b => (SosCalculator.pt_prob b <= SosCalculator.pt_prob a)%R)
                   (SosCalculator.teams r)
    /\ Forall (fun t => (0 < SosCalculator.pt_prob t < 1)%R) (SosCalculator.teams r)
    /\ SosCalculator.minElo r <= SosCalculator.expectedElo r <= SosCalculator.maxElo r.
Proof.
  intros bracket ratings r. subst r. unfold SosCalculator.simulateBracket. cbv zeta.
  cbn [SosCalculator.teams SosCalculator.minElo SosCalculator.maxElo
       SosCalculator.expectedElo].
  set (s := Js.orDefault _ 1400).
  set (e1 := Js.orDefault (SosCalculator.rating ratings (_ !! 0%nat)) 1400).
  set (e2 := Js.orDefault (SosCalculator.rating ratings (_ !! 1%nat)) 1400).
  set (q := SosCalculator.eloWinProbability (IZR e1) (IZR e2)).
  set (w := (q * IZR e1 + (1 - q) * IZR e2)%R).
  set (p := SosCalculator.eloWinProbability (IZR s) w).
  assert (Hq : (0 < q < 1)%R)
    by (split; [apply eloWinProbability_pos | apply eloWinProbability_lt_1]).
  assert (Hp : (0 < p < 1)%R)
    by (split; [apply eloWinProbability_pos | apply eloWinProbability_lt_1]).
  split; [apply byProbDesc_sorted|]. split.
  - apply List.Forall_forall. intros t Ht. apply sort_In in Ht.
    destruct Ht as [<-|[<-|[<-|[]]]]; cbn [SosCalculator.pt_prob]; split; nra.
  - set (lo := Z.min (Z.min s e1) e2). set (hi := Z.max (Z.max s e1) e2).
    assert (Hs : (IZR lo <= IZR s <= IZR hi)%R) by (split; apply IZR_le; lia).
    assert (H1 : (IZR lo <= IZR e1 <= IZR hi)%R) by (split; apply IZR_le; lia).
    assert (H2 : (IZR lo <= IZR e2 <= IZR hi)%R) by (split; apply IZR_le; lia).
    apply Math_round_between. apply mix_between; [exact Hp | exact Hs |].
    now apply mix_between.
Qed.

(** X5: [simulateUEFAPath] ends in a TypeError exactly when the path lists
    fewer than four teams. *)
Theorem uefa_path_needs_four_teams :
  forall path ratings,
    SosCalculator.simulateUEFAPath path ratings = None
    <-> (length (SosCalculator.path_teams path) < 4)%nat.
Proof.
  intros path ratings. unfold SosCalculator.simulateUEFAPath. cbv zeta.
  set (teamElos := map _ (SosCalculator.path_teams path)).
  assert (Hlen : length (Js.sort SosCalculator.byEloDesc teamElos)
                 = length (SosCalculator.path_teams path))
    by (subst teamElos; now rewrite sort_length, length_map).
  destruct (Js.sort SosCalculator.byEloDesc teamElos) as [|t1 [|t2 [|t3 [|t4 rest]]]];
    simpl in Hlen; split; intros H; try reflexivity; try discriminate; lia.
Qed.

Lemma fold_min_le (d : Z) l x : In x l -> fold_right Z.min d l <= x.
Proof.
  induction l as [|y l IH]; simpl; [intros []|].
  intros [->|Hin]; [lia|]. specialize (IH Hin). lia.
Qed.

Lemma fold_max_ge (d : Z) l x : In x l -> x <= fold_right Z.max d l.
Proof.
  induction l as [|y l IH]; simpl; [intros []|].
  intros [->|Hin]; [lia|]. specialize (IH Hin). lia.
Qed.

(** X6: [simulateUEFAPath] on a path of at least four teams returns a result
    with four entries, by descending win probability, each probability
    strictly between 0 and 1, and an expected winner rating between the
    lowest and the highest rating of the path. *)
Theorem uefa_path_result_is_ordered_and_within_range :
  forall path ratings,
    (4 <= length (SosCalculator.path_teams path))%nat ->
    exists r,
      SosCalculator.simulateUEFAPath path ratings = Some r
      /\ length (SosCalculator.teams r) = 4%nat
      /\ StronglySorted (fun a b => (SosCalculator.pt_prob b <= SosCalculator.pt_prob a)%R)
                        (SosCalculator.teams r)
      /\ Forall (fun t => (0 < SosCalculator.pt_prob t < 1)%R) (SosCalculator.teams r)
      /\ SosCalculator.minElo r <= SosCalculator.expectedElo r <= SosCalculator.maxElo r.
Proof.
  intros path ratings Hfour. unfold SosCalculator.simulateUEFAPath. cbv zeta.
  set (teamElos := map _ (SosCalculator.path_teams path)).
  assert (Hlen : length (Js.sort SosCalculator.byEloDesc teamElos)
                 = length (SosCalculator.path_teams path))
    by (subst teamElos; now rewrite sort_length, length_map).
  assert (Hin : forall t, In t (Js.sort SosCalculator.byEloDesc teamElos) -> In t teamElos)
    by (intros t; apply sort_In).
  destruct (Js.sort SosCalculator.byEloDesc teamElos) as [|t1 [|t2 [|t3 [|t4 rest]]]];
    simpl in Hlen; try lia.
  eexists. split; [reflexivity|].
  cbn [SosCalculator.teams SosCalculator.minElo SosCalculator.maxElo
       SosCalculator.expectedElo].
  split; [now rewrite sort_length|]. split; [apply byProbDesc_sorted|].
  set (e1 := IZR (SosCalculator.te_elo t1)). set (e2 := IZR (SosCalculator.te_elo t2)).
  set (e3 := IZR (SosCalculator.te_elo t3)). set (e4 := IZR (SosCalculator.te_elo t4)).
  pose proof (eloWinProbability_complement e1 e2) as H12.
  pose proof (eloWinProbability_complement e1 e3) as H13.
  pose proof (eloWinProbability_complement e4 e2) as H42.
  pose proof (eloWinProbability_complement e4 e3) as H43.
  pose proof (eloWinProbability_pos e1 e4) as Hp0. pose proof (eloWinProbability_lt_1 e1 e4) as Hp1.
  pose proof (eloWinProbability_pos e2 e3) as Hq0. pose proof (eloWinProbability_lt_1 e2 e3) as Hq1.
  pose proof (eloWinProbability_pos e1 e2). pose proof (eloWinProbability_lt_1 e1 e2).
  pose proof (eloWinProbability_pos e1 e3). pose proof (eloWinProbability_lt_1 e1 e3).
  pose proof (eloWinProbability_pos e4 e2). pose proof (eloWinProbability_lt_1 e4 e2).
  pose proof (eloWinProbability_pos e4 e3). pose proof (eloWinProbability_lt_1 e4 e3).
  set (p := SosCalculator.eloWinProbability e1 e4) in *.
  set (q := SosCalculator.eloWinProbability e2 e3) in *.
  set (x12 := SosCalculator.eloWinProbability e1 e2) in *.
  set (x13 := SosCalculator.eloWinProbability e1 e3) in *.
  set (x42 := SosCalculator.eloWinProbability e4 e2) in *.
  set (x43 := SosCalculator.eloWinProbability e4 e3) in *.
  replace (SosCalculator.eloWinProbability e2 e1) with (1 - x12)%R by lra.
  replace (SosCalculator.eloWinProbability e3 e1) with (1 - x13)%R by lra.
  replace (SosCalculator.eloWinProbability e2 e4) with (1 - x42)%R by lra.
  replace (SosCalculator.eloWinProbability e3 e4) with (1 - x43)%R by lra.
  set (P1 := (p * (q * x12 + (1 - q) * x13))%R).
  set (P2 := (q * (p * (1 - x12) + (1 - p) * (1 - x42)))%R).
  set (P3 := ((1 - q) * (p * (1 - x13) + (1 - p) * (1 - x43)))%R).
  set (P4 := ((1 - p) * (q * x42 + (1 - q) * x43))%R).
  assert (Hm1 : (0 < q * x12 + (1 - q) * x13 < 1)%R) by (split; nra).
  assert (Hm2 : (0 < p * (1 - x12) + (1 - p) * (1 - x42) < 1)%R) by (split; nra).
  assert (Hm3 : (0 < p * (1 - x13) + (1 - p) * (1 - x43) < 1)%R) by (split; nra).
  assert (Hm4 : (0 < q * x42 + (1 - q) * x43 < 1)%R) by (split; nra).
  assert (HP1 : (0 < P1 < 1)%R) by (subst P1; split; nra).
  assert (HP2 : (0 < P2 < 1)%R) by (subst P2; split; nra).
  assert (HP3 : (0 < P3 < 1)%R) by (subst P3; split; nra).
  assert (HP4 : (0 < P4 < 1)%R) by (subst P4; split; nra).
  assert (Hsum : (P1 + P2 + P3 + P4 = 1)%R) by (subst P1 P2 P3 P4; ring).
  split.
  - apply List.Forall_forall. intros t Ht. apply sort_In in Ht.
    destruct Ht as [<-|[<-|[<-|[<-|[]]]]]; cbn [SosCalculator.pt_prob SosCalculator.withProb];
      assumption.
  - set (lo := fold_right Z.min _ _). set (hi := fold_right Z.max _ _).
    assert (Hb : forall t, In t teamElos ->
                           (IZR lo <= IZR (SosCalculator.te_elo t) <= IZR hi)%R).
    { intros t Ht. split; apply IZR_le.
      - apply fold_min_le. now apply in_map.
      - apply fold_max_ge. now apply in_map. }
    pose proof (Hb t1 (Hin t1 (or_introl eq_refl))) as B1.
    pose proof (Hb t2 (Hin t2 (or_intror (or_introl eq_refl)))) as B2.
    pose proof (Hb t3 (Hin t3 (or_intror (or_intror (or_introl eq_refl))))) as B3.
    pose proof (Hb t4 (Hin t4 (or_intror (or_intror (or_intror (or_introl eq_refl)))))) as B4.
    fold e1 e2 e3 e4 in B1, B2, B3, B4.
    apply Math_round_between. simpl. fold e1 e2 e3 e4.
    clearbody P1 P2 P3 P4 e1 e2 e3 e4 lo hi. split; nra.
Qed.

Lemma uefa_path_result_witness :
  exists r,
    SosCalculator.simulateUEFAPath
      {| SosCalculator.path_teams := ["S"; "U1"; "U2"; "X"];
         SosCalculator.path_destinationGroup := "A" |} jensenRatings = Some r
    /\ length (SosCalculator.teams r) = 4%nat
    /\ StronglySorted (fun a b => (SosCalculator.pt_prob b <= SosCalculator.pt_prob a)%R)
                      (SosCalculator.teams r)
    /\ Forall (fun t => (0 < SosCalculator.pt_prob t < 1)%R) (SosCalculator.teams r)
    /\ SosCalculator.minElo r <= SosCalculator.expectedElo r <= SosCalculator.maxElo r.
Proof.
  apply (uefa_path_result_is_ordered_and_within_range
           {| SosCalculator.path_teams := ["S"; "U1"; "U2"; "X"];
              SosCalculator.path_destinationGroup := "A" |} jensenRatings).
  simpl. lia.
Defined.

(** ** Strength-of-schedule averages *)
Section Averages.

Lemma sumElo_from ratings codes : forall acc,
  fold_left (fun sum t => sum + Js.orDefault (ratings !! t) 0) codes acc
  = acc + SosCalculator.sumElo ratings codes.
Proof.
  unfold SosCalculator.sumElo. induction codes as [|c codes IH]; intros acc; simpl; [lia|].
  rewrite IH, (IH (0 + _)). lia.
Qed.

Lemma sumElo_cons ratings c codes :
  SosCalculator.sumElo ratings (c :: codes)
  = Js.orDefault (ratings !! c) 0 + SosCalculator.sumElo ratings codes.
Proof. unfold SosCalculator.sumElo at 1. simpl. apply sumElo_from. Qed.

Lemma sumElo_bounds ratings codes lo hi :
  Forall (fun c => lo <= Js.orDefault (ratings !! c) 0 <= hi) codes ->
  Z.of_nat (length codes) * lo <= SosCalculator.sumElo ratings codes
  <= Z.of_nat (length codes) * hi.
Proof.
  induction 1 as [|c codes Hc _ IH]; [unfold SosCalculator.sumElo; simpl; lia|].
  rewrite sumElo_cons. cbn [length]. lia.
Qed.

Lemma sumElo_ext ratings ratings' codes :
  Forall (fun c => ratings' !! c = ratings !! c) codes ->
  SosCalculator.sumElo ratings' codes = SosCalculator.sumElo ratings codes.
Proof.
  induction 1 as [|c codes Hc _ IH]; [reflexivity|].
  now rewrite !sumElo_cons, Hc, IH.
Qed.

Lemma average_between (total : Z) (n : nat) lo hi :
  (0 < n)%nat -> Z.of_nat n * lo <= total <= Z.of_nat n * hi ->
  lo <= Js.Math_round (IZR total / INR n) <= hi.
Proof.
  intros Hn [Hlo Hhi]. apply Math_round_between.
  apply IZR_le in Hlo, Hhi. rewrite mult_IZR, <- INR_IZR_INZ in Hlo, Hhi.
  assert (Hpos : (0 < INR n)%R) by (apply lt_0_INR; lia).
  split.
  - apply Rmult_le_reg_r with (INR n); [exact Hpos|].
    unfold Rdiv. rewrite Rmult_assoc, Rinv_l by lra. lra.
  - apply Rmult_le_reg_r with (INR n); [exact Hpos|].
    unfold Rdiv. rewrite Rmult_assoc, Rinv_l by lra. lra.
Qed.
End Averages.

Lemma opponents_filter teamCode groupTeams :
  List.filter (fun t => negb (String.eqb t teamCode)
                        && negb (String.prefix "UEFA_" t)
                        && negb (String.prefix "FIFA_" t)) groupTeams
  = List.filter (fun t => negb (String.eqb t teamCode)
                          && negb (BracketSimulator.isPlayoffCode t)) groupTeams.
Proof.
  apply List.filter_ext. intros t. unfold BracketSimulator.isPlayoffCode.
  rewrite negb_orb. now rewrite andb_assoc.
Qed.

(** X7: [calculateGroupOpponentSoS]: with no confirmed opponent the result is
    0; otherwise it is the rounded average of the confirmed opponents'
    ratings (a missing rating counting as 0), so it lies between any two
    bounds that hold for each of them. *)
Theorem opponent_sos_is_an_average_of_the_confirmed_opponents :
  forall teamCode groupTeams ratings lo hi,
    let opponents :=
      List.filter (fun t => negb (String.eqb t teamCode)
                            && negb (BracketSimulator.isPlayoffCode t)) groupTeams in
    Forall (fun c => lo <= Js.orDefault (ratings !! c) 0 <= hi) opponents ->
    (opponents = [] ->
     SosCalculator.calculateGroupOpponentSoS teamCode groupTeams ratings = 0)
    /\ (opponents <> [] ->
        lo <= SosCalculator.calculateGroupOpponentSoS teamCode groupTeams ratings <= hi).
Proof.
  intros teamCode groupTeams ratings lo hi opponents Hall.
  unfold SosCalculator.calculateGroupOpponentSoS. cbv zeta.
  rewrite opponents_filter. fold opponents.
  split.
  - intros ->. reflexivity.
  - intros Hne. destruct opponents as [|c rest] eqn:Heq; [congruence|].
    rewrite <- Heq in *. replace (length opponents =? 0)%nat with false
      by (rewrite Heq; reflexivity).
    apply average_between; [rewrite Heq; simpl; lia|].
    now apply sumElo_bounds.
Qed.

Lemma opponent_sos_witness :
  (List.filter (fun t => negb (String.eqb t "S")
                         && negb (BracketSimulator.isPlayoffCode t))
               ["S"; "U1"; "U2"; "UEFA_A"] = [] ->
   SosCalculator.calculateGroupOpponentSoS "S" ["S"; "U1"; "U2"; "UEFA_A"] jensenRatings = 0)
  /\ (List.filter (fun t => negb (String.eqb t "S")
                            && negb (BracketSimulator.isPlayoffCode t))
                  ["S"; "U1"; "U2"; "UEFA_A"] <> [] ->
      1000 <= SosCalculator.calculateGroupOpponentSoS "S" ["S"; "U1"; "U2"; "UEFA_A"]
                jensenRatings <= 1800).
Proof.
  apply (opponent_sos_is_an_average_of_the_confirmed_opponents
           "S" ["S"; "U1"; "U2"; "UEFA_A"] jensenRatings 1000 1800).
  repeat constructor; vm_compute; discriminate.
Defined.

(** X8: A team's own rating and the ratings of placeholders never enter its
    opponent strength of schedule: rating maps that agree on the confirmed
    opponents give the same result, so setting the team's own rating
    changes nothing.  For a team that is not in the group the opponent
    strength of schedule is the group's strength. *)
Theorem opponent_sos_ignores_the_own_rating :
  forall teamCode groupTeams ratings,
    (forall r,
        SosCalculator.calculateGroupOpponentSoS teamCode groupTeams (<[teamCode := r]> ratings)
        = SosCalculator.calculateGroupOpponentSoS teamCode groupTeams ratings)
    /\ (~ In teamCode groupTeams ->
        SosCalculator.calculateGroupOpponentSoS teamCode groupTeams ratings
        = SosCalculator.calculateGroupStrength groupTeams ratings).
Proof.
  intros teamCode groupTeams ratings. split.
  - intros r. unfold SosCalculator.calculateGroupOpponentSoS. cbv zeta.
    rewrite (sumElo_ext ratings (<[teamCode := r]> ratings)); [reflexivity|].
    apply List.Forall_forall. intros c Hc. apply filter_In in Hc as [_ Hc].
    apply andb_prop in Hc as [Hc _]. apply andb_prop in Hc as [Hc _].
    apply negb_true_iff, String.eqb_neq in Hc.
    now rewrite lookup_insert_ne by congruence.
  - intros Hnot. unfold SosCalculator.calculateGroupOpponentSoS,
      SosCalculator.calculateGroupStrength. cbv zeta.
    replace (List.filter _ groupTeams)
      with (List.filter (fun t => negb (String.prefix "UEFA_" t)
                                  && negb (String.prefix "FIFA_" t)) groupTeams);
      [reflexivity|].
    apply filter_ext_in. intros t Ht.
    assert (Hne : String.eqb t teamCode = false)
      by (apply String.eqb_neq; intros ->; contradiction).
    now rewrite Hne.
Qed.

Lemma opponent_sos_ignores_the_own_rating_witness :
  SosCalculator.calculateGroupOpponentSoS "X" ["S"; "U1"; "U2"; "UEFA_A"] jensenRatings
  = SosCalculator.calculateGroupStrength ["S"; "U1"; "U2"; "UEFA_A"] jensenRatings.
Proof.
  apply (opponent_sos_ignores_the_own_rating "X" ["S"; "U1"; "U2"; "UEFA_A"] jensenRatings).
  apply (bool_decide_unpack _). vm_compute. exact I.
Defined.

(** ** The bracket display *)
Section BracketDisplay.
Variable sosData : App.SosData.

Lemma knockoutWinProb_elo a b :
  App.knockoutWinProb a b = SosCalculator.eloWinProbability (IZR a) (IZR b).
Proof. reflexivity. Qed.

End BracketDisplay.



(** ** Clearing the overrides downstream of a match *)
Section Clearing.
Variable sosData : App.SosData.
Let knockout := App.sd_knockout sosData.

(** A match downstream of [m] is a match fed by [m], or downstream of
    one. *)
Lemma downstream_first m k :
  downstream knockout m k ->
  exists mt,
    In mt (App.laterMatches knockout) /\ App.feeds m mt = true
    /\ (App.match_id mt = k \/ downstream knockout (App.match_id mt) k).
Proof.
  induction 1 as [mt Hin Hf|k' mt Hd (mt0 & Hin0 & Hf0 & Hrest) Hin Hf].
  - exists mt. auto.
  - exists mt0. split; [exact Hin0|]. split; [exact Hf0|]. right.
    destruct Hrest as [<-|Hrest].
    + now apply downstream_direct.
    + now apply downstream_step with k'.
Qed.

Lemma clear_keeps_None fuel m ov ov' k :
  App.clearDownstreamOverrides fuel m knockout ov = Some ov' ->
  ov !! k = None -> ov' !! k = None.
Proof.
  intros Hc Hk. destruct (clear_lookup sosData _ _ _ _ Hc k) as [->|[-> _]]; auto.
Qed.

Lemma clear_all fuel : forall m ov ov' k,
  App.clearDownstreamOverrides fuel m knockout ov = Some ov' ->
  downstream knockout m k -> ov' !! k = None.
Proof.
  induction fuel as [|f IHf]; intros m ov ov' k; simpl; [discriminate|].
  intros Hfold Hd. destruct (downstream_first _ _ Hd) as (mt & Hin & Hfeeds & Hrest).
  revert Hfold Hin. generalize (App.laterMatches knockout) as l. intros l. revert ov.
  induction l as [|mt0 l IHl]; intros ov Hfold Hin; [destruct Hin|].
  simpl in Hfold.
  assert (Hstep : exists ov1,
             (if App.feeds m mt0
              then App.clearDownstreamOverrides f (App.match_id mt0) knockout
                     (delete (App.match_id mt0) ov)
              else Some ov) = Some ov1).
  { destruct (if App.feeds m mt0 then _ else _) as [ov1|] eqn:E; [eauto|].
    exfalso. clear -Hfold. induction l as [|x l IH]; simpl in Hfold; [discriminate|auto]. }
  destruct Hstep as (ov1 & Hstep). rewrite Hstep in Hfold.
  destruct Hin as [->|Hin]; [|now apply (IHl ov1)].
  rewrite Hfeeds in Hstep.
  assert (Hk1 : ov1 !! k = None).
  { destruct Hrest as [<-|Hrest].
    - apply (clear_keeps_None _ _ _ _ _ Hstep). apply lookup_delete_eq.
    - now apply (IHf _ _ _ _ Hstep). }
  clear -Hfold Hk1 IHf. revert ov1 Hfold Hk1.
  induction l as [|x l IH]; intros ov1 Hfold Hk1; simpl in Hfold.
  - now injection Hfold as <-.
  - destruct (App.feeds m x).
    + destruct (App.clearDownstreamOverrides f (App.match_id x) knockout
                  (delete (App.match_id x) ov1)) as [ov2|] eqn:E.
      * apply (IH ov2 Hfold). apply (clear_keeps_None _ _ _ _ _ E).
        destruct (decide (App.match_id x = k)) as [<-|Hne];
          [apply lookup_delete_eq | now rewrite lookup_delete_ne].
      * exfalso. clear -Hfold. induction l as [|y l IH]; simpl in Hfold;
          [discriminate|auto].
    + now apply (IH ov1).
Qed.
End Clearing.

(** X10: [clearDownstreamOverrides] in a structure numbered in round order: the
    call returns, removes the override of every match downstream of the
    given match and leaves every other override as it was. *)
Theorem clearing_removes_exactly_the_downstream_overrides :
  forall sosData bound fuel m ov,
    wellNumbered (App.sd_knockout sosData) bound ->
    (Z.to_nat (bound - m) < fuel)%nat ->
    exists ov',
      App.clearDownstreamOverrides fuel m (App.sd_knockout sosData) ov = Some ov'
      /\ forall k,
           (downstream (App.sd_knockout sosData) m k -> ov' !! k = None)
           /\ (~ downstream (App.sd_knockout sosData) m k -> ov' !! k = ov !! k).
Proof.
  intros sosData bound fuel m ov Hwf Hfuel.
  destruct (clear_returns sosData bound fuel m ov Hwf Hfuel) as [ov' Hov'].
  exists ov'. split; [exact Hov'|]. intros k. split.
  - now apply (clear_all sosData fuel m ov).
  - intros Hnot. destruct (clear_lookup sosData _ _ _ _ Hov' k) as [Hk|[_ Hd]];
      [exact Hk | contradiction].
Qed.

Lemma clearing_witness :
  exists ov',
    App.clearDownstreamOverrides 40 2 demoKnockout croatiaThrough = Some ov'
    /\ forall k,
         (downstream demoKnockout 2 k -> ov' !! k = None)
         /\ (~ downstream demoKnockout 2 k -> ov' !! k = croatiaThrough !! k).
Proof.
  apply (clearing_removes_exactly_the_downstream_overrides demoData 17 40%nat 2
           croatiaThrough).
  - exact demoKnockout_wellNumbered.
  - simpl. lia.
Defined.

(** ** Paths through the bracket *)
Section Paths.
Variable sosData : App.SosData.
Let knockout := App.sd_knockout sosData.

Lemma upstreamLoop_rounds fuel c target rounds ov acc path :
  App.upstreamLoop sosData fuel c target rounds knockout ov acc = Some path ->
  (length path <= length acc + length rounds)%nat
  /\ forall k, In k path ->
       In k acc
       \/ exists ms m,
            In ms rounds /\ In m ms /\ App.match_id m = k
            /\ exists ts,
                 App.getPossibleTeamsFromMatch sosData fuel k knockout ov = Some ts
                 /\ existsb (App.hasCode c) ts = true.
Proof.
  revert acc. induction rounds as [|ms rounds IH]; intros acc; simpl.
  - intros [= <-]. split; [lia|]. intros k Hk. now left.
  - destruct (App.findTeamInRound sosData fuel c ms knockout ov) as [found|] eqn:Hf;
      simpl; [|discriminate].
    destruct found as [m|].
    + destruct (findTeamInRound_found sosData _ _ _ _ _ Hf) as (Hm & Hts).
      destruct (App.match_id m =? target).
      * intros [= <-]. split; [rewrite length_app; simpl; lia|].
        intros k Hk. apply in_app_or in Hk as [Hk|[<-|[]]]; [now left|].
        right. exists ms, m. auto.
      * intros H. destruct (IH _ H) as [Hlen Hmem]. split.
        { rewrite length_app in Hlen. simpl in Hlen. lia. }
        intros k Hk. destruct (Hmem k Hk) as [Hacc|(ms' & m' & ? & ? & ? & ?)].
        -- apply in_app_or in Hacc as [Hacc|[<-|[]]]; [now left|].
           right. exists ms, m. auto.
        -- right. exists ms', m'. auto.
    + intros H. destruct (IH _ H) as [Hlen Hmem]. split; [lia|].
      intros k Hk. destruct (Hmem k Hk) as [Hacc|(ms' & m' & ? & ? & ? & ?)];
        [now left|]. right. exists ms', m'. auto.
Qed.

Lemma bracketPathLoop_In fuel c ms ov bp :
  App.bracketPathLoop sosData fuel c ms knockout ov = Some bp ->
  forall k,
    In k bp <->
    exists m ts,
      In m ms /\ App.match_id m = k
      /\ App.getPossibleTeamsFromMatch sosData fuel k knockout ov = Some ts
      /\ existsb (App.hasCode c) ts = true.
Proof.
  revert bp. induction ms as [|m0 ms IH]; intros bp; simpl.
  - intros [= <-] k. split; [intros []|intros (m & ts & [] & _)].
  - destruct (App.getPossibleTeamsFromMatch sosData fuel (App.match_id m0) knockout ov)
      as [ts0|] eqn:Hts0; simpl; [|discriminate].
    destruct (App.bracketPathLoop sosData fuel c ms knockout ov) as [rest|]; simpl;
      [|discriminate].
    intros [= <-] k. specialize (IH rest eq_refl k).
    destruct (existsb (App.hasCode c) ts0) eqn:Hex; simpl; rewrite ?IH; split.
    + intros [<-|(m & ts & Hm & Hrest)].
      * exists m0, ts0. auto.
      * exists m, ts. auto.
    + intros (m & ts & [<-|Hm] & Hk & Hrest); [now left|]. right. exists m, ts. auto.
    + intros (m & ts & Hm & Hrest). exists m, ts. auto.
    + intros (m & ts & [<-|Hm] & <- & Hts & Hex'); [congruence|].
      exists m, ts. auto.
Qed.
End Paths.

(** X11: [findUpstreamMatches] lists at most one match for each of the five
    rounds, each of them a match of the structure that has the team among
    its possible occupants; so every match of the upstream path is also on
    the path that [getTeamBracketPath] highlights for the team. *)
Theorem upstream_path_lies_on_the_team_path :
  forall sosData fuel teamCode target ov path,
    App.findUpstreamMatches sosData fuel teamCode target (App.sd_knockout sosData) ov
    = Some path ->
    (length path <= 5)%nat
    /\ Forall (fun k =>
                 exists ts,
                   App.getPossibleTeamsFromMatch sosData fuel k (App.sd_knockout sosData) ov
                   = Some ts
                   /\ existsb (App.hasCode teamCode) ts = true) path
    /\ forall teamPath,
         App.getTeamBracketPath sosData fuel teamCode (App.sd_knockout sosData) ov
         = Some teamPath ->
         incl path teamPath.
Proof.
  intros sosData fuel c target ov path Hpath. unfold App.findUpstreamMatches in Hpath.
  destruct (upstreamLoop_rounds sosData _ _ _ _ _ _ _ Hpath) as [Hlen Hmem].
  split; [simpl in Hlen; lia|]. split.
  - apply List.Forall_forall. intros k Hk.
    destruct (Hmem k Hk) as [[]|(ms & m & _ & _ & _ & Hts)]. exact Hts.
  - intros teamPath Hteam k Hk. unfold App.getTeamBracketPath in Hteam.
    apply (bracketPathLoop_In sosData _ _ _ _ _ Hteam).
    destruct (Hmem k Hk) as [[]|(ms & m & Hms & Hm & Hid & ts & Hts & Hex)].
    exists m, ts. split; [|auto]. unfold App.allMatches.
    simpl in Hms. rewrite !in_app_iff.
    destruct Hms as [<-|[<-|[<-|[<-|[<-|[]]]]]]; auto 10.
Qed.

Lemma upstream_path_witness :
  (length [2; 17] <= 5)%nat
  /\ Forall (fun k =>
               exists ts,
                 App.getPossibleTeamsFromMatch demoData 6 k demoKnockout ∅ = Some ts
                 /\ existsb (App.hasCode "CRO") ts = true) [2; 17]
  /\ forall teamPath,
       App.getTeamBracketPath demoData 6 "CRO" demoKnockout ∅ = Some teamPath ->
       incl [2; 17] teamPath.
Proof.
  apply (upstream_path_lies_on_the_team_path demoData 6 "CRO" 17 ∅ [2; 17]).
  vm_compute. reflexivity.
Defined.

(** ** Resolving a bracket slot *)
Section Slots.
Local Open Scope R_scope.

Lemma byPosDesc_head pos (rows : list BracketSimulator.TournamentRow) best rest :
  Js.sort (fun a b => Js.Rltb (App.posProbOf pos a) (App.posProbOf pos b)) rows
  = best :: rest ->
  In best rows /\ forall row, In row rows -> App.posProbOf pos row <= App.posProbOf pos best.
Proof.
  intros Hsort.
  assert (Hsorted : StronglySorted
                      (fun a b => Js.Rltb (App.posProbOf pos a) (App.posProbOf pos b) = false)
                      (best :: rest)).
  { rewrite <- Hsort. apply sort_sorted; unfold Js.Rltb; intros *;
      repeat destruct (Rlt_dec _ _); try discriminate; try reflexivity; intros; lra. }
  assert (Hin : forall row, In row rows <-> In row (best :: rest))
    by (intros row; rewrite <- Hsort; symmetry; apply sort_In).
  split; [apply Hin; now left|].
  intros row Hrow. apply Hin in Hrow as [<-|Hrow]; [lra|].
  apply StronglySorted_inv in Hsorted as [_ Hall].
  rewrite List.Forall_forall in Hall. specialize (Hall row Hrow).
  unfold Js.Rltb in Hall. destruct (Rlt_dec _ _); [discriminate | lra].
Qed.
End Slots.

(** X12: [resolveBracketSlot] without a group simulation resolves nothing; with
    one, a slot that starts with 3 is always the third-place placeholder
    (rating 1600, probability 0.67), whatever the simulation says; and a
    team resolved for any other slot is a row of the group that the slot
    names, one whose probability for the position is the largest of the
    group, and that probability is its [baseProb]. *)
Theorem bracket_slot_resolves_to_the_most_likely_team :
  forall sosData,
    (App.groupSimulation sosData = None ->
     forall slot, App.resolveBracketSlot sosData (Some slot) = Some None)
    /\ (forall groupSim pool,
           App.groupSimulation sosData = Some groupSim ->
           exists t,
             App.resolveBracketSlot sosData (Some (String "3"%char pool)) = Some (Some t)
             /\ App.bt_code t = ("3rd-" ++ pool)%string /\ App.bt_elo t = 1600
             /\ App.isThirdPlace t = true /\ App.baseProb t = Some 0.67%R)
    /\ (forall slot t,
           App.resolveBracketSlot sosData (Some slot) = Some (Some t) ->
           App.isThirdPlace t = false ->
           exists groupSim group rows row,
             App.groupSimulation sosData = Some groupSim
             /\ String.get 1 slot = Some group
             /\ groupSim !! String group EmptyString = Some rows
             /\ In row rows
             /\ App.bt_code t = BracketSimulator.row_code row
             /\ App.bt_elo t = BracketSimulator.row_elo row
             /\ let pos := BracketSimulator.parseDigit (String.get 0 slot) in
                App.baseProb t = Some (App.posProbOf pos row)
                /\ forall other, In other rows ->
                     (App.posProbOf pos other <= App.posProbOf pos row)%R).
Proof.
  intros sosData. split; [|split].
  - intros Hnone slot. unfold App.resolveBracketSlot. now rewrite Hnone.
  - intros groupSim pool Hsim. unfold App.resolveBracketSlot. rewrite Hsim.
    eexists. split; [reflexivity|]. repeat split.
  - intros slot t. unfold App.resolveBracketSlot.
    destruct (App.groupSimulation sosData) as [groupSim|]; [|discriminate].
    assert (Hrest :
              match
                option_map (fun a => String a EmptyString) (String.get 1 slot)
                ≫= (groupSim !!.)
              with
              | None => Some None
              | Some groupData =>
                  if match BracketSimulator.parseDigit (String.get 0 slot) with
                     | Some p => Z.of_nat (length groupData) <? p
                     | None => false
                     end
                  then Some None
                  else
                    match
                      Js.sort (fun a b =>
                                 Js.Rltb
                                   (App.posProbOf
                                      (BracketSimulator.parseDigit (String.get 0 slot)) a)
                                   (App.posProbOf
                                      (BracketSimulator.parseDigit (String.get 0 slot)) b))
                              groupData
                    with
                    | [] => None
                    | team :: _ =>
                        Some (Some {| App.bt_code := BracketSimulator.row_code team;
                                      App.bt_name := BracketSimulator.row_name team;
                                      App.bt_elo := BracketSimulator.row_elo team;
                                      App.isThirdPlace := false;
                                      App.bt_pool := None;
                                      App.baseProb :=
                                        Some (App.posProbOf
                                                (BracketSimulator.parseDigit
                                                   (String.get 0 slot)) team);
                                      App.bt_slot := Some slot;
                                      App.bt_winProb := None |})
                    end
              end = Some (Some t) ->
              App.isThirdPlace t = false ->
              exists group rows row,
                String.get 1 slot = Some group
                /\ groupSim !! String group EmptyString = Some rows
                /\ In row rows
                /\ App.bt_code t = BracketSimulator.row_code row
                /\ App.bt_elo t = BracketSimulator.row_elo row
                /\ App.baseProb t
                   = Some (App.posProbOf (BracketSimulator.parseDigit (String.get 0 slot)) row)
                /\ forall other, In other rows ->
                     (App.posProbOf (BracketSimulator.parseDigit (String.get 0 slot)) other
                      <= App.posProbOf (BracketSimulator.parseDigit (String.get 0 slot)) row)%R).
    { destruct (String.get 1 slot) as [group|]; simpl; [|discriminate].
      destruct (groupSim !! String group EmptyString) as [rows|] eqn:Hrows; [|discriminate].
      destruct (match BracketSimulator.parseDigit (String.get 0 slot) with
                | Some p => Z.of_nat (length rows) <? p
                | None => false
                end); [discriminate|].
      destruct (Js.sort _ rows) as [|best rest] eqn:Hsort; [discriminate|].
      intros [= <-] _. destruct (byPosDesc_head _ _ _ _ Hsort) as [Hin Hmax].
      exists group, rows, best. repeat split; auto. }
    intros Hres Hthird.
    assert (Hgoal : exists group rows row,
               String.get 1 slot = Some group
               /\ groupSim !! String group EmptyString = Some rows
               /\ In row rows
               /\ App.bt_code t = BracketSimulator.row_code row
               /\ App.bt_elo t = BracketSimulator.row_elo row
               /\ App.baseProb t
                  = Some (App.posProbOf (BracketSimulator.parseDigit (String.get 0 slot)) row)
               /\ forall other, In other rows ->
                    (App.posProbOf (BracketSimulator.parseDigit (String.get 0 slot)) other
                     <= App.posProbOf (BracketSimulator.parseDigit (String.get 0 slot)) row)%R).
    { destruct slot as [|a rest]; [now apply Hrest|].
      destruct a as [[] [] [] [] [] [] [] []];
        try (now apply Hrest).
      injection Hres as <-. discriminate. }
    destruct Hgoal as (group & rows & row & H1 & H2 & H3 & H4 & H5 & H6 & H7).
    exists groupSim, group, rows, row. repeat split; auto.
Qed.

Lemma bracket_slot_witness :
  exists t,
    App.resolveBracketSlot demoData (Some "3CEF"%string) = Some (Some t)
    /\ App.bt_code t = "3rd-CEF"%string /\ App.bt_elo t = 1600
    /\ App.isThirdPlace t = true /\ App.baseProb t = Some 0.67%R.
Proof.
  apply (proj1 (proj2 (bracket_slot_resolves_to_the_most_likely_team demoData))
           (<["A" := [demoRow "ARG"]]> (<["B" := [demoRow "BEL"]]>
            (<["C" := [demoRow "CRO"]]> (<["D" := [demoRow "DEN"]]> ∅))))).
  reflexivity.
Defined.

(** X13: [getSoSClass] cuts the range from [min] to [max] in three: the largest
    value is always hard, the smallest is easy unless all values are
    equal, and a larger value never gets an easier class. *)
Theorem sos_class_follows_the_value :
  forall value value' min max : R,
    (min <= max)%R -> (value <= value')%R ->
    App.getSoSClass max min max = "sos-hard"%string
    /\ (min < max -> App.getSoSClass min min max = "sos-easy"%string)%R
    /\ (App.getSoSClass value min max = "sos-hard"%string ->
        App.getSoSClass value' min max = "sos-hard"%string)
    /\ (App.getSoSClass value' min max = "sos-easy"%string ->
        App.getSoSClass value min max = "sos-easy"%string).
Proof.
  intros v v' lo hi Hrange Hv. unfold App.getSoSClass. cbv zeta.
  repeat split; intros; repeat destruct (Rle_dec _ _);
    try reflexivity; try discriminate; exfalso; lra.
Qed.

Lemma sos_class_witness :
  App.getSoSClass 1800 1500 1800 = "sos-hard"%string
  /\ (1500 < 1800 -> App.getSoSClass 1500 1500 1800 = "sos-easy"%string)%R
  /\ (App.getSoSClass 1600 1500 1800 = "sos-hard"%string ->
      App.getSoSClass 1700 1500 1800 = "sos-hard"%string)
  /\ (App.getSoSClass 1700 1500 1800 = "sos-easy"%string ->
      App.getSoSClass 1600 1500 1800 = "sos-easy"%string).
Proof.
  apply (sos_class_follows_the_value 1600 1700 1500 1800); lra.
Defined.

(** ** The probabilities shown in the bracket *)
Section BracketProbabilities.
Variable sosData : App.SosData.
Local Open Scope R_scope.

Lemma knockoutWinProb_bounds a b : 0 < App.knockoutWinProb a b < 1.
Proof.
  rewrite knockoutWinProb_elo.
  split; [apply eloWinProbability_pos | apply eloWinProbability_lt_1].
Qed.

(** The running sums of [getWeightedWinProb]: the weighted sum never
    exceeds the total weight. *)
Lemma weighted_sums (g : App.BracketTeam -> option R) (teamElo : Z) l :
  forall tw wp tw' wp',
    0 <= wp <= tw ->
    fold_left
      (fun acc opponent =>
         '(totalWeight, weightedProb) ← acc;
         oppReachProb ← g opponent;
         if Rlt_dec 0 oppReachProb then
           Some ((totalWeight + oppReachProb)%R,
                 (weightedProb
                  + oppReachProb * App.knockoutWinProb teamElo (App.bt_elo opponent))%R)
         else Some (totalWeight, weightedProb))
      l (Some (tw, wp)) = Some (tw', wp') ->
    0 <= wp' <= tw'.
Proof.
  induction l as [|o l IH]; intros tw wp tw' wp' Hinv; simpl.
  - intros [= <- <-]. exact Hinv.
  - destruct (g o) as [p|]; simpl.
    + destruct (Rlt_dec 0 p) as [Hp|_]; [|now apply IH].
      apply IH. pose proof (knockoutWinProb_bounds teamElo (App.bt_elo o)). nra.
    + intros H. exfalso. clear -H. induction l as [|x l IHl]; simpl in H; [discriminate|auto].
Qed.

Lemma bracket_probabilities_bounded fuel : forall teamCode matchId knockout ov,
  (forall r, App.getCumulativeProbWin sosData fuel teamCode matchId knockout ov = Some r ->
             0 <= r <= 1)
  /\ (forall r, App.getProbOfReaching sosData fuel teamCode matchId knockout ov = Some r ->
                0 <= r <= 1)
  /\ (forall teamElo r,
         App.getWeightedWinProb sosData fuel teamCode teamElo matchId knockout ov = Some r ->
         0 <= r <= 1).
Proof.
  induction fuel as [|f IH]; intros c M ko ov.
  { repeat split; intros; discriminate. }
  assert (IHc : forall c M r, App.getCumulativeProbWin sosData f c M ko ov = Some r ->
                              0 <= r <= 1)
    by (intros c' M' r'; destruct (IH c' M' ko ov) as (H & _ & _); apply H).
  assert (IHr : forall c M r, App.getProbOfReaching sosData f c M ko ov = Some r ->
                              0 <= r <= 1)
    by (intros c' M' r'; destruct (IH c' M' ko ov) as (_ & H & _); apply H).
  assert (IHw : forall c e M r, App.getWeightedWinProb sosData f c e M ko ov = Some r ->
                                0 <= r <= 1)
    by (intros c' e' M' r'; destruct (IH c' M' ko ov) as (_ & _ & H); apply H).
  clear IH. split; [|split].
  - intros r. simpl.
    destruct (App.findMatch M ko) as [m|]; [|intros [= <-]; lra].
    destruct (ov !! M) as [o|].
    { destruct (String.eqb _ _); [apply IHr | intros [= <-]; lra]. }
    destruct (App.getProbOfReaching sosData f c M ko ov) as [reach|] eqn:Hreach;
      simpl; [|discriminate].
    pose proof (IHr _ _ _ Hreach) as Hb.
    destruct (Req_dec_T reach 0); [intros [= <-]; lra|].
    destruct (M <=? 16).
    + destruct (App.getMatchTeamsWithProb sosData f M ko ov) as [[t1 t2]|]; simpl;
        [|discriminate].
      destruct t1 as [t1|]; [|intros [= <-]; exact Hb].
      destruct t2 as [t2|]; [|intros [= <-]; exact Hb].
      intros [= <-].
      match goal with
      | |- context [App.knockoutWinProb ?a ?b] =>
          pose proof (knockoutWinProb_bounds a b)
      end. nra.
    + destruct (App.getTeamElo sosData c ko ov) as [e|]; simpl; [|discriminate].
      destruct (App.getWeightedWinProb sosData f c e M ko ov) as [w|] eqn:Hw; simpl;
        [|discriminate].
      intros [= <-]. pose proof (IHw _ _ _ _ Hw). nra.
  - intros r. simpl.
    destruct (App.findMatch M ko) as [m|]; [|intros [= <-]; lra].
    destruct (M <=? 16).
    + destruct (App.resolveBracketSlot sosData (App.team1 m)) as [t1|]; simpl;
        [|discriminate].
      destruct (App.resolveBracketSlot sosData (App.team2 m)) as [t2|]; simpl;
        [|discriminate].
      destruct (existsb _ _); intros [= <-]; lra.
    + destruct (App.prevMatches m) as [prevs|]; [|intros [= <-]; lra].
      induction prevs as [|p prevs IHp]; [intros [= <-]; lra|].
      destruct (ov !! p) as [o|].
      * destruct (String.eqb _ _); [apply IHr|].
        destruct (App.getPossibleTeamsFromMatch sosData f p ko ov) as [ts|]; simpl;
          [|discriminate].
        destruct (existsb _ _); [apply IHc | exact IHp].
      * destruct (App.getPossibleTeamsFromMatch sosData f p ko ov) as [ts|]; simpl;
          [|discriminate].
        destruct (existsb _ _); [apply IHc | exact IHp].
  - intros e r. simpl.
    destruct (App.findMatch M ko ≫= App.prevMatches) as [prevs|]; [|intros [= <-]; lra].
    destruct (fold_left _ prevs (Some None)) as [opp|]; simpl; [|discriminate].
    destruct opp as [[|opp|opp]|]; try (intros [= <-]; lra).
    + destruct (App.getPossibleTeamsFromMatch sosData f _ ko ov) as [ts|]; simpl;
        [|discriminate].
      destruct ts as [|o os]; [intros [= <-]; lra|].
      destruct (fold_left _ (o :: os) (Some (0, 0))) as [[tw wp]|] eqn:Hsums; simpl;
        [|discriminate].
      apply weighted_sums in Hsums; [|lra].
      destruct (Rlt_dec 0 tw) as [Htw|_]; intros [= <-]; [|lra].
      split.
      * apply Rmult_le_pos; [lra|]. apply Rlt_le. now apply Rinv_0_lt_compat.
      * apply Rmult_le_reg_r with tw; [exact Htw|].
        unfold Rdiv. rewrite Rmult_assoc, Rinv_l by lra. lra.
    + destruct (App.getPossibleTeamsFromMatch sosData f _ ko ov) as [ts|]; simpl;
        [|discriminate].
      destruct ts as [|o os]; [intros [= <-]; lra|].
      destruct (fold_left _ (o :: os) (Some (0, 0))) as [[tw wp]|] eqn:Hsums; simpl;
        [|discriminate].
      apply weighted_sums in Hsums; [|lra].
      destruct (Rlt_dec 0 tw) as [Htw|_]; intros [= <-]; [|lra].
      split.
      * apply Rmult_le_pos; [lra|]. apply Rlt_le. now apply Rinv_0_lt_compat.
      * apply Rmult_le_reg_r with tw; [exact Htw|].
        unfold Rdiv. rewrite Rmult_assoc, Rinv_l by lra. lra.
Qed.
End BracketProbabilities.

(** X14: Every probability that the bracket computes is a probability: what
    [getCumulativeProbWin], [getProbOfReaching] and [getWeightedWinProb]
    return lies between 0 and 1, for every knockout structure, override
    map and group simulation. *)
Theorem bracket_probabilities_lie_between_0_and_1 :
  forall sosData fuel teamCode teamElo matchId knockout ov r,
    App.getCumulativeProbWin sosData fuel teamCode matchId knockout ov = Some r
    \/ App.getProbOfReaching sosData fuel teamCode matchId knockout ov = Some r
    \/ App.getWeightedWinProb sosData fuel teamCode teamElo matchId knockout ov = Some r ->
    (0 <= r <= 1)%R.
Proof.
  intros sosData fuel c e M ko ov r.
  destruct (bracket_probabilities_bounded sosData fuel c M ko ov) as (Hc & Hr & Hw).
  intros [H|[H|H]]; eauto.
Qed.

Lemma bracket_probabilities_witness : (0 <= 1 / 2 <= 1)%R.
Proof.
  apply (bracket_probabilities_lie_between_0_and_1 demoData 6 "CRO" 1500 17 demoKnockout
           (<[2 := demoLock "CRO"]> ∅) (1 / 2)).
  left. real_eval; f_equal; pow10_to_1; lra.
Defined.

(** ** The totals of a simulated group *)
Section GroupTotals.
Variable random : nat -> R.
Import BracketSimulator.

Lemma totalOf_perm g l l' : Permutation l l' -> totalOf g l = totalOf g l'.
Proof. induction 1; simpl; lia. Qed.

Lemma statsAlter_total (g : Entrant -> Z) (f : GroupStat -> GroupStat) d k l :
  (forall k' s, g (toEntrant (k', f s)) = g (toEntrant (k', s)) + d) ->
  In k (map fst l) ->
  totalOf g (map toEntrant (statsAlter f k l)) = totalOf g (map toEntrant l) + d.
Proof.
  intros Hf. induction l as [|[k' s] l IH]; simpl; [intros []|].
  destruct (String.eqb_spec k k') as [->|Hne]; simpl.
  - intros _. rewrite Hf. lia.
  - intros [Heq|Hin]; [congruence|]. rewrite IH by exact Hin. lia.
Qed.

Lemma pairs_members {A : Type} (l : list A) a b :
  In (a, b) (Js.pairsInOrder l) -> In a l /\ In b l.
Proof.
  induction l as [|x l IH]; simpl; [intros []|].
  rewrite in_app_iff, in_map_iff.
  intros [(y & [= <- <-] & Hy)|Hin]; [auto|].
  destruct (IH Hin). auto.
Qed.

Lemma playPair_totals ti tj stats n :
  In (Js.code ti) (map fst stats) -> In (Js.code tj) (map fst stats) ->
  let out := playPair random ti tj (stats, n) in
  totalOf e_gd (map toEntrant (fst out)) = totalOf e_gd (map toEntrant stats)
  /\ 2 <= totalOf e_points (map toEntrant (fst out)) - totalOf e_points (map toEntrant stats)
     <= 3
  /\ snd out = S n.
Proof.
  intros Hi Hj. unfold playPair. cbv zeta.
  destruct (simulateGroupMatch random (Js.elo ti) (Js.elo tj) n) as [result n'] eqn:Hm.
  assert (Hn : n' = S n) by (unfold simulateGroupMatch in Hm; now injection Hm).
  destruct result; cbn [fst snd];
    repeat (rewrite (statsAlter_total e_gd (addGd _) _)
              by (try reflexivity; now rewrite ?statsAlter_keys));
    repeat (rewrite (statsAlter_total e_gd (addPoints _) 0)
              by (try (intros; simpl; lia); now rewrite ?statsAlter_keys));
    repeat (rewrite (statsAlter_total e_points (addGd _) 0)
              by (try (intros; simpl; lia); now rewrite ?statsAlter_keys));
    repeat (rewrite (statsAlter_total e_points (addPoints _) _)
              by (try reflexivity; now rewrite ?statsAlter_keys));
    repeat split; try lia; exact Hn.
Qed.

Lemma pairsFold_totals pairs : forall stats n,
  (forall a b, In (a, b) pairs ->
               In (Js.code a) (map fst stats) /\ In (Js.code b) (map fst stats)) ->
  let out := fold_left (fun acc p => playPair random (fst p) (snd p) acc) pairs (stats, n) in
  totalOf e_gd (map toEntrant (fst out)) = totalOf e_gd (map toEntrant stats)
  /\ 2 * Z.of_nat (length pairs)
     <= totalOf e_points (map toEntrant (fst out)) - totalOf e_points (map toEntrant stats)
     <= 3 * Z.of_nat (length pairs)
  /\ snd out = (n + length pairs)%nat.
Proof.
  induction pairs as [|[a b] pairs IH]; intros stats n Hin; cbn [fold_left length].
  - simpl. repeat split; lia.
  - destruct (Hin a b (or_introl eq_refl)) as [Ha Hb].
    destruct (playPair_totals a b stats n Ha Hb) as (Hgd & Hpts & Hn).
    cbn [fst snd].
    destruct (playPair random a b (stats, n)) as [stats1 n1] eqn:Hp.
    cbn [fst snd] in Hgd, Hpts, Hn.
    destruct (IH stats1 n1) as (Hgd' & Hpts' & Hn').
    { intros x y Hxy. pose proof (playPair_keys random a b (stats, n)) as Hk.
      rewrite Hp in Hk. cbn [fst] in Hk. rewrite Hk. apply Hin. now right. }
    cbv zeta in Hgd', Hpts', Hn'. repeat split; try lia.
Qed.

Lemma initGroupStats_zero teams :
  Forall (fun e => s_points (snd e) = 0 /\ s_gd (snd e) = 0) (initGroupStats teams).
Proof.
  unfold initGroupStats.
  assert (Hgen : forall st,
             Forall (fun e : string * GroupStat => s_points (snd e) = 0 /\ s_gd (snd e) = 0) st ->
             Forall (fun e : string * GroupStat => s_points (snd e) = 0 /\ s_gd (snd e) = 0)
                    (fold_left
                       (fun st t => statsSet (Js.code t)
                                      {| s_points := 0; s_gd := 0; s_elo := Js.elo t |} st)
                       teams st)).
  { induction teams as [|t teams IH]; intros st Hst; simpl; [exact Hst|].
    apply IH. clear IH. induction Hst as [|[k v] st Hv Hst IHst]; simpl.
    - repeat constructor.
    - destruct (String.eqb _ _); constructor; auto. }
  apply Hgen. constructor.
Qed.

Lemma zero_totals (st : list (string * GroupStat)) :
  Forall (fun e => s_points (snd e) = 0 /\ s_gd (snd e) = 0) st ->
  totalOf e_gd (map toEntrant st) = 0 /\ totalOf e_points (map toEntrant st) = 0.
Proof.
  induction 1 as [|[k v] st [Hp Hg] _ [IH1 IH2]]; simpl in *; [auto|]. lia.
Qed.
End GroupTotals.

(** X15: [simulateGroup]: whatever the draws, the goal differences of the
    standings sum to 0, every pairing hands out 2 or 3 points, so the
    points of the standings sum to between 2 and 3 times the number of
    pairings, and one random draw is consumed per pairing. *)
Theorem group_standings_balance :
  forall random teams n,
    let standings := fst (BracketSimulator.simulateGroup random teams n) in
    let pairings := Z.of_nat (length (Js.pairsInOrder teams)) in
    totalOf BracketSimulator.e_gd standings = 0
    /\ 2 * pairings <= totalOf BracketSimulator.e_points standings <= 3 * pairings
    /\ snd (BracketSimulator.simulateGroup random teams n)
       = (n + length (Js.pairsInOrder teams))%nat.
Proof.
  intros random teams n standings pairings. subst standings pairings.
  unfold BracketSimulator.simulateGroup. rewrite groupLoop_pairs.
  destruct (pairsFold_totals random (Js.pairsInOrder teams)
              (BracketSimulator.initGroupStats teams) n) as (Hgd & Hpts & Hn).
  { intros a b Hab. apply pairs_members in Hab as [Ha Hb].
    split; apply initGroupStats_In; now apply in_map. }
  destruct (zero_totals _ (initGroupStats_zero teams)) as [Hz1 Hz2].
  cbv zeta in Hgd, Hpts, Hn.
  destruct (fold_left _ (Js.pairsInOrder teams) _) as [stats n'].
  cbn [fst snd] in *.
  rewrite !(totalOf_perm _ _ _ (sort_perm _ _)). repeat split; lia.
Qed.

(** ** Slot notations *)

Lemma chars_join s : String.concat EmptyString (BracketSimulator.chars s) = s.
Proof.
  induction s as [|a s IH]; [reflexivity|].
  cbn [BracketSimulator.chars]. destruct (BracketSimulator.chars s) as [|c cs] eqn:Hc.
  - simpl in IH. now rewrite <- IH.
  - transitivity (String a (String.concat EmptyString (c :: cs))); [reflexivity | now rewrite IH].
Qed.

(** X16: [parseSlot]: a notation that starts with 3 is a third-place pool whose
    letters, joined again, are the rest of the notation; any other
    notation that starts with a digit gives that digit as position and the
    second character as group, and what follows is ignored. *)
Theorem slot_notation_is_read_back :
  (forall pool,
      BracketSimulator.parseSlot (String "3"%char pool)
      = BracketSimulator.PoolSlot (BracketSimulator.chars pool)
      /\ String.concat EmptyString (BracketSimulator.chars pool) = pool
      /\ length (BracketSimulator.chars pool) = String.length pool)
  /\ (forall n group rest,
         0 <= n <= 9 -> n <> 3 ->
         BracketSimulator.parseSlot
           (String (ascii_of_nat (Z.to_nat (48 + n))) (String group rest))
         = BracketSimulator.GroupSlot (Some n) (Some (String group EmptyString))).
Proof.
  split.
  - intros pool. split; [reflexivity|]. split; [apply chars_join|].
    induction pool as [|a pool IH]; simpl; congruence.
  - intros n group rest Hn H3.
    assert (Hcases : n = 0 \/ n = 1 \/ n = 2 \/ n = 4 \/ n = 5 \/ n = 6 \/ n = 7
                     \/ n = 8 \/ n = 9) by lia.
    destruct Hcases as [->|[->|[->|[->|[->|[->|[->|[->| ->]]]]]]]]; reflexivity.
Qed.

Lemma slot_notation_witness :
  BracketSimulator.parseSlot "2B"
  = BracketSimulator.GroupSlot (Some 2) (Some "B"%string).
Proof.
  apply (proj2 slot_notation_is_read_back 2 "B"%char EmptyString); lia.
Defined.

(** ** The result of a tournament run *)
Section TournamentResult.
Variable random : nat -> R.
Import BracketSimulator.

Lemma byR32Desc_sorted l :
  StronglySorted (fun a b => (r32Prob b <= r32Prob a)%R) (Js.sort byR32Desc l).
Proof.
  apply StronglySorted_impl with (R1 := fun a b => byR32Desc a b = false).
  - intros a b. unfold byR32Desc, Js.Rltb. destruct (Rlt_dec _ _); [discriminate | lra].
  - apply sort_sorted; unfold byR32Desc, Js.Rltb; intros *;
      repeat destruct (Rlt_dec _ _); try discriminate; try reflexivity; intros; lra.
Qed.

Lemma groupStage_names_inv allTeams : forall st name,
  is_Some (groupStandings (fold_left (groupStep random) allTeams st) !! name) ->
  is_Some (groupStandings st !! name) \/ In name (map fst allTeams).
Proof.
  induction allTeams as [|g allTeams IH]; intros st name; simpl; [tauto|].
  intros H. apply IH in H as [H|H]; [|tauto].
  destruct (groupStep_spec random st g) as (standings & _ & _ & Hgs & _).
  rewrite Hgs, lookup_insert_is_Some in H. destruct H as [<-|[_ H]]; tauto.
Qed.

Lemma standingAt_resolves (gs : gmap string (list Entrant)) names g i :
  (forall name, is_Some (gs !! name) -> In name names) ->
  is_Some (standingAt gs g i) -> exists name, g = Some name /\ In name names.
Proof.
  intros Hgs [o Ho]. destruct g as [name|]; [|discriminate]. simpl in Ho.
  exists name. split; [reflexivity|]. apply Hgs.
  destruct (gs !! name); [eauto | discriminate].
Qed.

Lemma resolveTeam1_resolves (gs : gmap string (list Entrant)) names s :
  (forall name, is_Some (gs !! name) -> In name names) ->
  is_Some (resolveTeam1 gs s) -> slotResolves names s.
Proof.
  intros Hgs. destruct s as [pool|[z|] g]; simpl; auto.
  destruct z as [|[p|[p|p|]|]|p]; simpl; auto; now apply standingAt_resolves.
Qed.

Lemma resolveTeam2_resolves (gs : gmap string (list Entrant)) names s Q :
  (forall name, is_Some (gs !! name) -> In name names) ->
  is_Some (resolveTeam2 gs s Q) -> slotResolves names s.
Proof.
  intros Hgs. destruct s as [pool|[z|] g]; simpl; auto.
  destruct z as [|[p|[p|p|]|]|p]; simpl; auto; intros [o Ho];
    match type of Ho with
    | option_map _ (standingAt gs g ?i) = _ =>
        apply (standingAt_resolves gs names g i Hgs);
        destruct (standingAt gs g i); [eauto | discriminate]
    end.
Qed.

Lemma r32Fold_resolves (gs : gmap string (list Entrant)) names ms :
  (forall name, is_Some (gs !! name) -> In name names) ->
  forall acc,
    is_Some (fold_left (r32Step random gs) ms acc) ->
    Forall (fun m => slotResolves names (parseSlot (team1 m))
                     /\ slotResolves names (parseSlot (team2 m))) ms.
Proof.
  intros Hgs. induction ms as [|m ms IH]; intros acc Hsome; [constructor|].
  simpl in Hsome. destruct acc as [[Q rd]|];
    [|rewrite r32Fold_None in Hsome; destruct Hsome; discriminate].
  destruct (r32Step random gs (Some (Q, rd)) m) as [acc1|] eqn:Hstep;
    [|rewrite r32Fold_None in Hsome; destruct Hsome; discriminate].
  constructor; [|now apply (IH (Some acc1))].
  unfold r32Step in Hstep.
  destruct (resolveTeam1 gs (parseSlot (team1 m))) as [t1|] eqn:H1; [|discriminate].
  destruct (resolveTeam2 gs (parseSlot (team2 m)) Q) as [t2|] eqn:H2; [|discriminate].
  split.
  - apply (resolveTeam1_resolves gs names _ Hgs). rewrite H1. eauto.
  - apply (resolveTeam2_resolves gs names _ Q Hgs). rewrite H2. eauto.
Qed.

Lemma iteration_resolves allTeams ko acc :
  is_Some (iteration random allTeams ko acc) ->
  Forall (fun m => slotResolves (map fst allTeams) (parseSlot (team1 m))
                   /\ slotResolves (map fst allTeams) (parseSlot (team2 m))) (r32 ko)
  /\ final ko <> [].
Proof.
  destruct acc as [[ts n]|]; [|intros [? ?]; discriminate].
  unfold iteration. set (st := fold_left (groupStep random) allTeams _).
  intros Hsome.
  match type of Hsome with
  | context [fold_left (r32Step random _) (r32 ko) ?start] =>
      destruct (fold_left (r32Step random (groupStandings st)) (r32 ko) start)
        as [[Q' W]|] eqn:Hfold
  end; [|destruct Hsome; discriminate].
  split.
  - apply (r32Fold_resolves (groupStandings st) _ _) with (acc := Some (qualifiers (thirdPlaceTeams st), {| winners := ∅; rd_teamStats := creditAll CR32 (qualifiers (thirdPlaceTeams st)) (gs_teamStats st); rd_next := gs_next st |})).
    + intros name Hname. subst st. apply groupStage_names_inv in Hname as [Hname|Hname];
        [|exact Hname].
      simpl in Hname. rewrite lookup_empty in Hname. destruct Hname. discriminate.
    + rewrite Hfold. eauto.
  - intros Hnil. rewrite Hnil in Hsome. destruct Hsome. discriminate.
Qed.

Lemma run_resolves allTeams ko acc simulations :
  (1 <= simulations)%nat ->
  is_Some (Nat.iter simulations (iteration random allTeams ko) acc) ->
  Forall (fun m => slotResolves (map fst allTeams) (parseSlot (team1 m))
                   /\ slotResolves (map fst allTeams) (parseSlot (team2 m))) (r32 ko)
  /\ final ko <> [].
Proof.
  destruct simulations as [|s]; [lia|]. intros _. rewrite Nat.iter_succ.
  apply iteration_resolves.
Qed.
End TournamentResult.

(** X17: [simulateTournament] with at least one simulation ends in a TypeError
    exactly when the structure is broken: a Round-of-32 slot of position 1
    or 2 that names no group, or no final at all.  Nothing else makes it
    fail, whatever the draws. *)
Theorem tournament_fails_exactly_on_a_broken_structure :
  forall random groupData ratings expectedElos teamNames simulations n0,
    (1 <= simulations)%nat ->
    BracketSimulator.simulateTournament random groupData ratings expectedElos teamNames
      simulations n0 = None
    <-> ~ (r32Resolves groupData
           /\ BracketSimulator.final (BracketSimulator.knockout groupData) <> []).
Proof.
  intros random gd ratings eElos names sims n0 Hs.
  unfold BracketSimulator.simulateTournament, r32Resolves.
  rewrite <- (groupNames_buildTeams gd ratings eElos names).
  set (allTeams := BracketSimulator.buildTeams gd ratings eElos names).
  split.
  - intros Hnone [Hres Hfinal].
    destruct (run_returns random allTeams (BracketSimulator.knockout gd)
                (Some (BracketSimulator.initTeamStats allTeams, n0)) sims Hres Hfinal)
      as [[ts n] Hrun]; [eauto|].
    rewrite Hrun in Hnone. discriminate.
  - intros Hnot.
    destruct (Nat.iter sims _ _) as [[ts n]|] eqn:Hrun; [|reflexivity].
    exfalso. apply Hnot.
    apply (run_resolves random allTeams _
             (Some (BracketSimulator.initTeamStats allTeams, n0)) sims Hs).
    rewrite Hrun. eauto.
Qed.

Lemma tournament_failure_witness :
  BracketSimulator.simulateTournament zeroRandom smallTournament ∅ ∅ ∅ 1 0 = None
  <-> ~ (r32Resolves smallTournament
         /\ BracketSimulator.final (BracketSimulator.knockout smallTournament) <> []).
Proof.
  apply (tournament_fails_exactly_on_a_broken_structure zeroRandom smallTournament
           ∅ ∅ ∅ 1 0). lia.
Defined.

(** X18: What a run returns: one entry per group, under the group's name and in
    the order of the groups; its rows carry the codes of the group's teams
    (each as often as the group lists it), by descending Round-of-32
    probability; the rating of a row is the team's rating, or the expected
    rating for a playoff placeholder, and 1400 when that is missing or 0. *)
Theorem tournament_result_lists_every_team :
  forall random groupData ratings expectedElos teamNames simulations n0 results,
    BracketSimulator.simulateTournament random groupData ratings expectedElos teamNames
      simulations n0 = Some results ->
    Forall2
      (fun g res =>
         fst res = fst g
         /\ Permutation (map BracketSimulator.row_code (snd res)) (snd g)
         /\ StronglySorted
              (fun a b => (BracketSimulator.r32Prob b <= BracketSimulator.r32Prob a)%R)
              (snd res)
         /\ Forall (fun row =>
                      BracketSimulator.row_isPlayoff row
                      = BracketSimulator.isPlayoffCode (BracketSimulator.row_code row)
                      /\ BracketSimulator.row_elo row
                         = Js.orDefault
                             ((if BracketSimulator.isPlayoffCode
                                    (BracketSimulator.row_code row)
                               then expectedElos else ratings)
                                !! BracketSimulator.row_code row) 1400)
                   (snd res))
      (BracketSimulator.groups groupData) results.
Proof.
  intros random gd ratings eElos names sims n0 results.
  unfold BracketSimulator.simulateTournament, BracketSimulator.buildTeams.
  destruct (Nat.iter sims _ _) as [[ts n]|]; [|discriminate].
  intros [= <-]. induction (BracketSimulator.groups gd) as [|g gs IH]; simpl;
    constructor; [|exact IH].
  cbn [fst snd]. split; [reflexivity|]. split.
  { rewrite sort_perm, !List.map_map. cbn. now rewrite List.map_id. }
  split; [apply byR32Desc_sorted|].
  apply List.Forall_forall. intros row Hrow. apply sort_In in Hrow.
  rewrite List.map_map in Hrow. apply in_map_iff in Hrow as (c & <- & _).
  cbn. split; [reflexivity|]. now destruct (BracketSimulator.isPlayoffCode c).
Qed.

Lemma tournament_result_witness :
  exists results,
    BracketSimulator.simulateTournament zeroRandom smallTournament ∅ ∅ ∅ 1 0 = Some results
    /\ Forall2
         (fun g res =>
            fst res = fst g
            /\ Permutation (map BracketSimulator.row_code (snd res)) (snd g)
            /\ StronglySorted
                 (fun a b => (BracketSimulator.r32Prob b <= BracketSimulator.r32Prob a)%R)
                 (snd res)
            /\ Forall (fun row =>
                         BracketSimulator.row_isPlayoff row
                         = BracketSimulator.isPlayoffCode (BracketSimulator.row_code row)
                         /\ BracketSimulator.row_elo row
                            = Js.orDefault
                                ((if BracketSimulator.isPlayoffCode
                                       (BracketSimulator.row_code row)
                                  then (∅ : gmap string Z) else ∅)
                                   !! BracketSimulator.row_code row) 1400)
                      (snd res))
         (BracketSimulator.groups smallTournament) results.
Proof.
  destruct (BracketSimulator.simulateTournament zeroRandom smallTournament ∅ ∅ ∅ 1 0)
    as [results|] eqn:Hrun.
  - exists results. split; [reflexivity|].
    exact (tournament_result_lists_every_team zeroRandom smallTournament ∅ ∅ ∅ 1 0
             results Hrun).
  - exfalso. revert Hrun.
    unfold BracketSimulator.simulateTournament, BracketSimulator.iteration,
      BracketSimulator.playRound, BracketSimulator.roundStep, BracketSimulator.r32Step,
      BracketSimulator.playKnockout.
    rewrite first_team_wins. vm_compute. discriminate.
Defined.

(** ** The group-only Monte Carlo simulator *)
Section GroupTally.
Variable random : nat -> R.
Import SosCalculator.

Lemma get_bump k c' (m : gmap string Z) c :
  is_Some (m !! c) ->
  get (bump k c' m) c = get m c + (if String.eqb c' c then k else 0).
Proof.
  intros [v Hv]. unfold get, bump. rewrite lookup_alter.
  destruct (String.eqb_spec c' c) as [->|Hne].
  - rewrite decide_True by reflexivity. rewrite Hv. reflexivity.
  - rewrite decide_False by exact Hne. lia.
Qed.

Lemma bump_tracked k c' (m : gmap string Z) c :
  is_Some (bump k c' m !! c) <-> is_Some (m !! c).
Proof.
  unfold bump. rewrite lookup_alter. case_decide; [subst|reflexivity].
  destruct (m !! c); simpl; split; intros [? ?]; eauto; discriminate.
Qed.

Lemma zeros_spec teams : forall (m : gmap string Z) c,
  let m' := fold_left (fun m team => <[Js.code team := 0]> m) teams m in
  (is_Some (m' !! c) <-> is_Some (m !! c) \/ In c (map Js.code teams))
  /\ (get m c = 0 -> get m' c = 0).
Proof.
  induction teams as [|t teams IH]; intros m c; simpl; [tauto|].
  destruct (IH (<[Js.code t := 0]> m) c) as [Htr Hz]. split.
  - rewrite Htr, lookup_insert_is_Some.
    destruct (decide (Js.code t = c)); intuition auto.
  - intros H0. apply Hz. unfold get in *.
    destruct (decide (Js.code t = c)) as [<-|Hne];
      [now rewrite lookup_insert_eq | now rewrite lookup_insert_ne].
Qed.

Lemma zeros_tracked teams c : is_Some (zeros teams !! c) <-> In c (map Js.code teams).
Proof.
  destruct (zeros_spec teams ∅ c) as [H _]. unfold zeros. rewrite H, lookup_empty.
  split; [intros [[? ?]|?]; [discriminate | assumption] | now right].
Qed.

Lemma zeros_get teams c : get (zeros teams) c = 0.
Proof. apply (zeros_spec teams ∅ c). unfold get. now rewrite lookup_empty. Qed.

Lemma playMatch_tallied t n a b c k :
  Js.code a <> Js.code b ->
  tallied t c k ->
  tallied (fst (playMatch random (t, n) (a, b))) c
          (k + (if involves c (a, b) then 1 else 0)).
Proof.
  intros Hab ((HP & HW & HD & HL) & Hk & Hpts & Hw & Hd & Hl).
  unfold playMatch, involves. cbn [fst snd].
  destruct (simulateMatch random (Js.elo a) (Js.elo b) n) as [[] n']; cbn [fst];
    unfold tallied; cbn [simPoints simWins simDraws simLosses];
    rewrite ?bump_tracked;
    (split; [tauto|]);
    repeat (rewrite get_bump by (rewrite ?bump_tracked; assumption));
    destruct (String.eqb_spec (Js.code a) c); destruct (String.eqb_spec (Js.code b) c);
    simpl; try (exfalso; congruence); lia.
Qed.

Lemma playMatch_next t n p : snd (playMatch random (t, n) p) = S n.
Proof.
  destruct p as [a b]. unfold playMatch.
  destruct (simulateMatch random (Js.elo a) (Js.elo b) n) as [[] n'] eqn:Hm;
    unfold simulateMatch in Hm; injection Hm as _ <-; reflexivity.
Qed.

Lemma matches_tallied pairs : forall t n c k,
  Forall (fun p => Js.code (fst p) <> Js.code (snd p)) pairs ->
  tallied t c k ->
  tallied (fst (fold_left (playMatch random) pairs (t, n))) c (k + involving c pairs).
Proof.
  induction pairs as [|[a b] pairs IH]; intros t n c k Hne Ht; cbn [fold_left involving].
  - now rewrite Z.add_0_r.
  - inversion Hne as [|? ? Hab Hrest]; subst. simpl in Hab.
    pose proof (playMatch_tallied t n a b c k Hab Ht) as Hstep.
    destruct (playMatch random (t, n) (a, b)) as [t1 n1]. cbn [fst] in Hstep.
    rewrite Z.add_assoc. now apply IH.
Qed.
End GroupTally.

Section GroupSimulation.
Variable random : nat -> R.
Import SosCalculator.

Lemma involving_app c l1 l2 : involving c (l1 ++ l2) = involving c l1 + involving c l2.
Proof. induction l1 as [|p l1 IH]; simpl; [reflexivity|]. rewrite IH. lia. Qed.

Lemma involving_absent c (l : list (Js.Team * Js.Team)) :
  Forall (fun p => Js.code (fst p) <> c /\ Js.code (snd p) <> c) l -> involving c l = 0.
Proof.
  induction 1 as [|[a b] l [Ha Hb] _ IH]; [reflexivity|].
  simpl in *. unfold involves. simpl.
  destruct (String.eqb_spec (Js.code a) c); [contradiction|].
  destruct (String.eqb_spec (Js.code b) c); [contradiction|]. simpl. exact IH.
Qed.

Lemma involving_first x rest c :
  Js.code x = c -> involving c (map (pair x) rest) = Z.of_nat (length rest).
Proof.
  intros <-. induction rest as [|y rest IH]; [reflexivity|].
  cbn [map involving length]. unfold involves at 1. cbn [fst snd].
  rewrite String.eqb_refl. simpl orb. cbv iota. lia.
Qed.

Lemma involving_other x rest c :
  Js.code x <> c -> NoDup (map Js.code rest) ->
  (In c (map Js.code rest) -> involving c (map (pair x) rest) = 1)
  /\ (~ In c (map Js.code rest) -> involving c (map (pair x) rest) = 0).
Proof.
  intros Hx. induction rest as [|y rest IH]; [intros _; split; [intros []|reflexivity]|].
  cbn [map]. intros [Hy Hnd]%NoDup_cons. destruct (IH Hnd) as [IH1 IH0].
  cbn [involving]. unfold involves. cbn [fst snd].
  destruct (String.eqb_spec (Js.code x) c); [contradiction|]. simpl orb.
  destruct (String.eqb_spec (Js.code y) c) as [Heq|Hne].
  - split; [|intros Hnot; exfalso; apply Hnot; now left].
    intros _. rewrite IH0; [reflexivity|].
    intros Hin. apply Hy. apply list_elem_of_In. now rewrite Heq.
  - split.
    + intros [?|Hin]; [contradiction|]. now rewrite IH1.
    + intros Hnot. rewrite IH0; [reflexivity|]. intros Hin. apply Hnot. now right.
Qed.

Lemma pairs_distinct (l : list Js.Team) :
  NoDup (map Js.code l) ->
  Forall (fun p => Js.code (fst p) <> Js.code (snd p)) (Js.pairsInOrder l).
Proof.
  induction l as [|x l IH]; simpl; [constructor|].
  intros [Hx Hnd]%NoDup_cons. apply Forall_app. split; [|now apply IH].
  apply List.Forall_forall. intros p Hp. apply in_map_iff in Hp as (y & <- & Hy).
  simpl. intros Heq. apply Hx. apply list_elem_of_In. rewrite Heq. now apply in_map.
Qed.

Lemma involving_pairs (l : list Js.Team) c :
  NoDup (map Js.code l) -> In c (map Js.code l) ->
  involving c (Js.pairsInOrder l) = Z.of_nat (length l) - 1.
Proof.
  induction l as [|x l IH]; [intros _ []|].
  cbn [map Js.pairsInOrder length]. intros Hnd0 Hin.
  pose proof Hnd0 as [Hx Hnd]%NoDup_cons. rewrite involving_app.
  destruct (String.eqb_spec (Js.code x) c) as [Heq|Hne].
  - rewrite (involving_first x l c Heq).
    rewrite involving_absent; [lia|].
    apply List.Forall_forall. intros [a b] Hab. apply pairs_members in Hab as [Ha Hb].
    simpl. split; intros Hc; apply Hx; apply list_elem_of_In; rewrite Heq, <- Hc;
      now apply in_map.
  - destruct Hin as [Hin|Hin]; [contradiction|].
    rewrite (proj1 (involving_other x l c Hne Hnd) Hin).
    rewrite IH by assumption. lia.
Qed.

(** Adding the tally of a simulation to the statistics. *)
Lemma accumulate_other t teams : forall (stats : gmap string Stats) c,
  ~ In c (map Js.code teams) ->
  fold_left (accumulate t) teams stats !! c = stats !! c.
Proof.
  induction teams as [|x teams IH]; intros stats c Hc; simpl; [reflexivity|].
  rewrite IH by (intros H; apply Hc; now right).
  unfold accumulate. apply lookup_alter_ne. intros Heq. apply Hc. now left.
Qed.

Lemma accumulate_at t teams : forall (stats : gmap string Stats) c,
  NoDup (map Js.code teams) -> In c (map Js.code teams) ->
  fold_left (accumulate t) teams stats !! c
  = withResults (get (simWins t) c) (get (simDraws t) c) (get (simLosses t) c)
                <$> stats !! c
  \/ (get (simPoints t) c
      <> 3 * get (simWins t) c + get (simDraws t) c).
Proof.
  induction teams as [|x teams IH]; intros stats c Hnd Hin; [destruct Hin|].
  destruct (Z.eq_dec (get (simPoints t) c) (3 * get (simWins t) c + get (simDraws t) c))
    as [Hpts|Hpts]; [left | now right].
  cbn [map] in Hnd. apply NoDup_cons in Hnd as [Hx Hnd]. cbn [fold_left].
  destruct (String.eqb_spec (Js.code x) c) as [Heq|Hne].
  - rewrite accumulate_other
      by (intros H; apply Hx; apply list_elem_of_In; now rewrite Heq).
    unfold accumulate. rewrite Heq, lookup_alter_eq.
    destruct (stats !! c) as [s|]; [|reflexivity]. simpl. unfold withResults.
    now rewrite Hpts.
  - destruct Hin as [Hin|Hin]; [contradiction|].
    destruct (IH (accumulate t stats x) c Hnd Hin) as [->|Hbad]; [|contradiction].
    unfold accumulate. now rewrite lookup_alter_ne.
Qed.

(** Counting the positions of one simulation. *)
Lemma countPositions_other (l : list Standing) : forall i (stats : gmap string Stats) c,
  ~ In c (map st_code l) ->
  fold_left countPosition (combine (seq i (length l)) l) stats !! c = stats !! c.
Proof.
  induction l as [|e l IH]; intros i stats c Hc; simpl; [reflexivity|].
  rewrite IH by (intros H; apply Hc; now right).
  apply lookup_alter_ne. intros Heq. apply Hc. now left.
Qed.

Lemma countPositions_at (l : list Standing) : forall i (stats : gmap string Stats) c,
  NoDup (map st_code l) -> In c (map st_code l) ->
  exists j,
    (i <= j < i + length l)%nat
    /\ fold_left countPosition (combine (seq i (length l)) l) stats !! c
       = placed j <$> stats !! c.
Proof.
  induction l as [|e l IH]; intros i stats c Hnd Hin; [destruct Hin|].
  cbn [map] in Hnd. apply NoDup_cons in Hnd as [He Hnd].
  cbn [length seq combine fold_left].
  destruct (String.eqb_spec (st_code e) c) as [Heq|Hne].
  - exists i. split; [lia|].
    rewrite countPositions_other
      by (intros H; apply He; apply list_elem_of_In; now rewrite Heq).
    unfold countPosition. rewrite Heq, lookup_alter_eq. reflexivity.
  - destruct Hin as [Hin|Hin]; [contradiction|].
    destruct (IH (S i) (countPosition stats (i, e)) c Hnd Hin) as (j & Hj & ->).
    exists j. split; [lia|].
    unfold countPosition at 1. now rewrite lookup_alter_ne.
Qed.

Lemma standingsOf_codes teams t :
  Permutation (map st_code (standingsOf teams t)) (map Js.code teams).
Proof.
  unfold standingsOf. rewrite sort_perm, List.map_map. reflexivity.
Qed.

Lemma initTally_tallied teams c : In c (map Js.code teams) -> tallied (initTally teams) c 0.
Proof.
  intros Hc. unfold tallied, initTally. cbn [simPoints simWins simDraws simLosses].
  rewrite !zeros_tracked, !zeros_get. repeat split; auto; lia.
Qed.

(** One simulation, seen from one team. *)
Lemma oneSimulation_spec teams stats n c s :
  NoDup (map Js.code teams) -> In c (map Js.code teams) ->
  stats !! c = Some s ->
  exists w d l j,
    (j < length teams)%nat
    /\ w + d + l = Z.of_nat (length teams) - 1
    /\ 0 <= w /\ 0 <= d /\ 0 <= l
    /\ fst (oneSimulation random teams (stats, n)) !! c
       = Some (placed j (withResults w d l s)).
Proof.
  intros Hnd Hc Hs. unfold oneSimulation. cbv zeta.
  pose proof (matches_tallied random (Js.pairsInOrder teams) (initTally teams) n c 0
                (pairs_distinct teams Hnd) (initTally_tallied teams c Hc)) as Ht.
  destruct (fold_left (playMatch random) (Js.pairsInOrder teams) (initTally teams, n))
    as [t n'].
  cbn [fst] in Ht |- *. rewrite involving_pairs in Ht by assumption.
  destruct Ht as (_ & Hk & Hpts & Hw & Hd & Hl).
  pose proof (standingsOf_codes teams t) as Hperm.
  destruct (countPositions_at (standingsOf teams t) 0
              (fold_left (accumulate t) teams stats) c) as (j & Hj & Hpos).
  { now rewrite Hperm. }
  { eapply Permutation_in; [symmetry; exact Hperm | exact Hc]. }
  exists (get (simWins t) c), (get (simDraws t) c), (get (simLosses t) c), j.
  split.
  { rewrite <- (length_map st_code), (Permutation_length Hperm), length_map in Hj. lia. }
  split; [lia|]. repeat (split; [assumption|]).
  unfold Js.indexed. rewrite Hpos.
  destruct (accumulate_at t teams stats c Hnd Hc) as [->|Hbad]; [|contradiction].
  now rewrite Hs.
Qed.

Lemma oneSimulation_next teams stats n :
  snd (oneSimulation random teams (stats, n))
  = (n + length (Js.pairsInOrder teams))%nat.
Proof.
  unfold oneSimulation. cbv zeta.
  assert (Hn : forall pairs t n,
             snd (fold_left (playMatch random) pairs (t, n)) = (n + length pairs)%nat).
  { induction pairs as [|p pairs IH]; intros t m; cbn [fold_left length]; [simpl; lia|].
    pose proof (playMatch_next random t m p) as Hp.
    destruct (playMatch random (t, m) p) as [t1 m1]. cbn [snd] in Hp. subst m1.
    rewrite IH. lia. }
  specialize (Hn (Js.pairsInOrder teams) (initTally teams) n).
  destruct (fold_left (playMatch random) _ _) as [t n']. exact Hn.
Qed.

Lemma positions_placed (ps : list Z) j :
  length ps = 4%nat -> Forall (fun x => 0 <= x) ps ->
  length (alter Z.succ j ps) = 4%nat
  /\ Forall (fun x => 0 <= x) (alter Z.succ j ps)
  /\ default 0 (alter Z.succ j ps !! 0%nat) + default 0 (alter Z.succ j ps !! 1%nat)
     + default 0 (alter Z.succ j ps !! 2%nat) + default 0 (alter Z.succ j ps !! 3%nat)
     = default 0 (ps !! 0%nat) + default 0 (ps !! 1%nat)
       + default 0 (ps !! 2%nat) + default 0 (ps !! 3%nat)
       + (if (j <? 4)%nat then 1 else 0).
Proof.
  destruct ps as [|a [|b [|c [|d [|e ps]]]]]; try discriminate. intros _ Hall.
  inversion Hall as [|? ? Ha Hall1]; subst. inversion Hall1 as [|? ? Hb Hall2]; subst.
  inversion Hall2 as [|? ? Hc Hall3]; subst. inversion Hall3 as [|? ? Hd _]; subst.
  destruct j as [|[|[|[|j]]]]; simpl; repeat split; repeat constructor; lia.
Qed.

Lemma playedOut_step k n s w d l j :
  (j < n)%nat -> w + d + l = Z.of_nat n - 1 -> 0 <= w -> 0 <= d -> 0 <= l ->
  playedOut k n s -> playedOut (k + 1) n (placed j (withResults w d l s)).
Proof.
  intros Hj Hsum Hw Hd Hl [Hm Hp Hr Hlen Hall Hpos].
  destruct (positions_placed (positions s) j Hlen Hall) as (Hlen' & Hall' & Htot).
  split; cbn [placed withResults wins draws losses points positions];
    try assumption; try lia.
  intros Hn. unfold groupPositionTotal, position in *.
  cbn [placed withResults positions]. rewrite Htot, (Hpos Hn).
  replace (j <? 4)%nat with true by (symmetry; apply Nat.ltb_lt; lia). reflexivity.
Qed.

Lemma initStats_spec teams : forall (m : gmap string Stats) c,
  In c (map Js.code teams) ->
  fold_left (fun m team => <[Js.code team := emptyStats]> m) teams m !! c
  = Some emptyStats.
Proof.
  induction teams as [|x teams IH]; intros m c; simpl; [intros []|].
  destruct (in_dec string_dec c (map Js.code teams)) as [Hin|Hnin]; [intros _; now apply IH|].
  intros [Heq|Hin]; [|contradiction]. rewrite Heq.
  assert (Hkeep : forall l (m' : gmap string Stats),
             ~ In c (map Js.code l) ->
             fold_left (fun m team => <[Js.code team := emptyStats]> m) l m' !! c = m' !! c).
  { induction l as [|y l IHl]; intros m' Hc; simpl; [reflexivity|].
    rewrite IHl by (intros H; apply Hc; now right).
    apply lookup_insert_ne. intros H. apply Hc. now left. }
  rewrite Hkeep by exact Hnin. apply lookup_insert_eq.
Qed.

Lemma emptyStats_playedOut n : playedOut 0 n emptyStats.
Proof.
  split; simpl; try lia; try reflexivity.
  - repeat constructor; lia.
Qed.

(** The statistics after all simulations. *)
Lemma simulations_playedOut teams n0 simulations c :
  NoDup (map Js.code teams) -> In c (map Js.code teams) ->
  exists s,
    fst (Nat.iter simulations (oneSimulation random teams) (initStats teams, n0)) !! c
    = Some s
    /\ playedOut (Z.of_nat simulations) (length teams) s.
Proof.
  intros Hnd Hc. induction simulations as [|k IH].
  - exists emptyStats. split; [|apply emptyStats_playedOut].
    simpl. unfold initStats. now apply initStats_spec.
  - rewrite Nat.iter_succ. destruct IH as (s & Hs & Hplayed).
    destruct (Nat.iter k (oneSimulation random teams) (initStats teams, n0)) as [stats n].
    cbn [fst] in Hs.
    destruct (oneSimulation_spec teams stats n c s Hnd Hc Hs)
      as (w & d & l & j & Hj & Hsum & Hw & Hd & Hl & Hres).
    eexists. split; [exact Hres|].
    rewrite Nat2Z.inj_succ, <- Z.add_1_r. now apply playedOut_step.
Qed.
End GroupSimulation.

Lemma group_row_stats random teams simulations n0 team :
  NoDup (map Js.code teams) -> In team teams ->
  exists s,
    fst (Nat.iter simulations (SosCalculator.oneSimulation random teams)
           (SosCalculator.initStats teams, n0)) !! Js.code team = Some s
    /\ playedOut (Z.of_nat simulations) (length teams) s.
Proof.
  intros Hnd Hin. apply simulations_playedOut; [exact Hnd | now apply in_map].
Qed.

(** X19: [simulateGroupMonteCarlo] on teams with distinct codes, with at least
    one simulation: in every row the average wins, draws and losses add up
    to the number of opponents, and the average points are three times the
    wins plus the draws. *)
Theorem group_rows_account_for_every_match :
  forall random teams simulations n0,
    NoDup (map Js.code teams) -> (1 <= simulations)%nat ->
    Forall (fun row =>
              (SosCalculator.row_wins row + SosCalculator.row_draws row
               + SosCalculator.row_losses row = INR (length teams) - 1)%R
              /\ (SosCalculator.row_points row
                  = 3 * SosCalculator.row_wins row + SosCalculator.row_draws row)%R
              /\ (0 <= SosCalculator.row_wins row)%R
              /\ (0 <= SosCalculator.row_draws row)%R
              /\ (0 <= SosCalculator.row_losses row)%R)
           (SosCalculator.simulateGroupMonteCarlo random teams simulations n0).
Proof.
  intros random teams sims n0 Hnd Hs. unfold SosCalculator.simulateGroupMonteCarlo.
  assert (Hrows := fun team => group_row_stats random teams sims n0 team Hnd).
  destruct (Nat.iter sims _ _) as [stats n]. cbn [fst] in Hrows.
  apply List.Forall_forall. intros row Hrow. apply in_map_iff in Hrow as (team & <- & Hteam).
  destruct (Hrows team Hteam) as (s & -> & [Hm Hp Hr _ _ _]). cbv zeta.
  change (default SosCalculator.emptyStats (Some s)) with s.
  cbn [SosCalculator.row_wins SosCalculator.row_draws SosCalculator.row_losses
       SosCalculator.row_points default].
  assert (Hpos : (0 < INR sims)%R) by (apply lt_0_INR; lia).
  assert (Hinv : (0 < / INR sims)%R) by now apply Rinv_0_lt_compat.
  destruct Hr as (Hw & Hd & Hl). apply IZR_le in Hw, Hd, Hl.
  apply (f_equal IZR) in Hm, Hp.
  rewrite !plus_IZR in Hm. rewrite mult_IZR, minus_IZR, <- !INR_IZR_INZ in Hm.
  rewrite plus_IZR, mult_IZR in Hp.
  set (W := IZR (SosCalculator.wins s)) in *. set (D := IZR (SosCalculator.draws s)) in *.
  set (L := IZR (SosCalculator.losses s)) in *. set (P := IZR (SosCalculator.points s)) in *.
  unfold Rdiv. split; [|split; [|repeat split; nra]].
  - replace (W * / INR sims + D * / INR sims + L * / INR sims)%R
      with ((W + D + L) * / INR sims)%R by ring.
    rewrite Hm. field. lra.
  - rewrite Hp. ring.
Qed.

Lemma group_rows_witness :
  Forall (fun row =>
            (SosCalculator.row_wins row + SosCalculator.row_draws row
             + SosCalculator.row_losses row = INR (length fourTeams) - 1)%R
            /\ (SosCalculator.row_points row
                = 3 * SosCalculator.row_wins row + SosCalculator.row_draws row)%R
            /\ (0 <= SosCalculator.row_wins row)%R
            /\ (0 <= SosCalculator.row_draws row)%R
            /\ (0 <= SosCalculator.row_losses row)%R)
         (SosCalculator.simulateGroupMonteCarlo zeroRandom fourTeams 1 0).
Proof.
  apply (group_rows_account_for_every_match zeroRandom fourTeams 1 0).
  - apply (bool_decide_unpack _). vm_compute. exact I.
  - lia.
Defined.

(** X20: [simulateGroupMonteCarlo] on at most four teams with distinct codes,
    with at least one simulation: the four position probabilities of a row
    are a distribution (none negative, together 1), and the derived
    [qualifyProb] and [r16Prob] are probabilities. *)
Theorem group_position_probabilities_are_a_distribution :
  forall random teams simulations n0,
    NoDup (map Js.code teams) -> (length teams <= 4)%nat -> (1 <= simulations)%nat ->
    Forall (fun row =>
              (SosCalculator.pos1Prob row + SosCalculator.pos2Prob row
               + SosCalculator.pos3Prob row + SosCalculator.pos4Prob row = 1)%R
              /\ (0 <= SosCalculator.pos1Prob row)%R /\ (0 <= SosCalculator.pos2Prob row)%R
              /\ (0 <= SosCalculator.pos3Prob row)%R /\ (0 <= SosCalculator.pos4Prob row)%R
              /\ (0 <= SosCalculator.qualifyProb row <= 1)%R
              /\ (0 <= SosCalculator.r16Prob row <= 1)%R)
           (SosCalculator.simulateGroupMonteCarlo random teams simulations n0).
Proof.
  intros random teams sims n0 Hnd Hfour Hs. unfold SosCalculator.simulateGroupMonteCarlo.
  assert (Hrows := fun team => group_row_stats random teams sims n0 team Hnd).
  destruct (Nat.iter sims _ _) as [stats n]. cbn [fst] in Hrows.
  apply List.Forall_forall. intros row Hrow. apply in_map_iff in Hrow as (team & <- & Hteam).
  destruct (Hrows team Hteam) as (s & -> & [_ _ _ Hlen Hall Htot]). cbv zeta.
  change (default SosCalculator.emptyStats (Some s)) with s.
  cbn [SosCalculator.pos1Prob SosCalculator.pos2Prob SosCalculator.pos3Prob
       SosCalculator.pos4Prob SosCalculator.qualifyProb SosCalculator.r16Prob default].
  specialize (Htot Hfour). unfold groupPositionTotal in Htot.
  assert (Hnn : forall i, 0 <= SosCalculator.position s i).
  { intros i. unfold SosCalculator.position.
    destruct (SosCalculator.positions s !! i) as [x|] eqn:Hx; simpl; [|lia].
    rewrite List.Forall_forall in Hall. apply Hall. apply list_elem_of_In.
    eapply list_elem_of_lookup_2. exact Hx. }
  pose proof (Hnn 0%nat) as H0. pose proof (Hnn 1%nat) as H1.
  pose proof (Hnn 2%nat) as H2. pose proof (Hnn 3%nat) as H3.
  apply IZR_le in H0, H1, H2, H3. apply (f_equal IZR) in Htot.
  rewrite !plus_IZR, <- INR_IZR_INZ in Htot.
  assert (Hpos : (0 < INR sims)%R) by (apply lt_0_INR; lia).
  assert (Hinv : (0 < / INR sims)%R) by now apply Rinv_0_lt_compat.
  assert (Hunit : (INR sims * / INR sims = 1)%R) by (apply Rinv_r; lra).
  set (p0 := IZR (SosCalculator.position s 0)) in *.
  set (p1 := IZR (SosCalculator.position s 1)) in *.
  set (p2 := IZR (SosCalculator.position s 2)) in *.
  set (p3 := IZR (SosCalculator.position s 3)) in *.
  unfold SosCalculator.THIRD_PLACE_QUALIFY_RATE, SosCalculator.AVG_R32_OPPONENT_ELO.
  fold (SosCalculator.eloWinProbability (IZR (Js.elo team)) 1650).
  pose proof (eloWinProbability_pos (IZR (Js.elo team)) 1650) as He0.
  pose proof (eloWinProbability_lt_1 (IZR (Js.elo team)) 1650) as He1.
  set (e := SosCalculator.eloWinProbability (IZR (Js.elo team)) 1650) in *.
  unfold Rdiv.
  set (q := (/ INR sims)%R) in *.
  assert (Hsum : (p0 * q + p1 * q + p2 * q + p3 * q = 1)%R).
  { replace (p0 * q + p1 * q + p2 * q + p3 * q)%R with ((p0 + p1 + p2 + p3) * q)%R by ring.
    rewrite Htot. exact Hunit. }
  assert (Hq0 : (0 <= p0 * q)%R) by nra. assert (Hq1 : (0 <= p1 * q)%R) by nra.
  assert (Hq2 : (0 <= p2 * q)%R) by nra. assert (Hq3 : (0 <= p3 * q)%R) by nra.
  set (a0 := (p0 * q)%R) in *. set (a1 := (p1 * q)%R) in *.
  set (a2 := (p2 * q)%R) in *. set (a3 := (p3 * q)%R) in *.
  assert (Hqual : (0 <= a0 + a1 + a2 * (8 / 12) <= 1)%R) by lra.
  repeat split; try lra; nra.
Qed.

Lemma group_position_witness :
  Forall (fun row =>
            (SosCalculator.pos1Prob row + SosCalculator.pos2Prob row
             + SosCalculator.pos3Prob row + SosCalculator.pos4Prob row = 1)%R
            /\ (0 <= SosCalculator.pos1Prob row)%R /\ (0 <= SosCalculator.pos2Prob row)%R
            /\ (0 <= SosCalculator.pos3Prob row)%R /\ (0 <= SosCalculator.pos4Prob row)%R
            /\ (0 <= SosCalculator.qualifyProb row <= 1)%R
            /\ (0 <= SosCalculator.r16Prob row <= 1)%R)
         (SosCalculator.simulateGroupMonteCarlo zeroRandom fourTeams 1 0).
Proof.
  apply (group_position_probabilities_are_a_distribution zeroRandom fourTeams 1 0).
  - apply (bool_decide_unpack _). vm_compute. exact I.
  - simpl. lia.
  - lia.
Defined.

(** ** Positions in the tournament simulator *)
Section TournamentPositions.
Variable random : nat -> R.
Import BracketSimulator.

Lemma position_countPosition pos s i :
  length (positions s) = 4%nat -> (i < 4)%nat ->
  position (countPosition pos s) i = position s i + (if (pos =? i)%nat then 1 else 0).
Proof.
  unfold position, countPosition. cbn [positions].
  destruct (positions s) as [|a [|b [|c [|d [|e ps]]]]]; try discriminate. intros _ Hi.
  destruct i as [|[|[|[|i]]]]; [| | | |lia];
    destruct pos as [|[|[|[|pos]]]]; simpl; lia.
Qed.

Lemma length_countPosition pos s :
  length (positions (countPosition pos s)) = length (positions s).
Proof. unfold countPosition. cbn [positions]. apply length_alter. Qed.

Lemma posCounter_credit i k code ts c :
  posCounter i (credit k code ts) c = posCounter i ts c.
Proof.
  unfold posCounter, credit. rewrite lookup_alter. case_decide; [subst|reflexivity].
  destruct (ts !! c); reflexivity.
Qed.

Lemma posCounter_creditAll i k l : forall ts c,
  posCounter i (creditAll k l ts) c = posCounter i ts c.
Proof.
  unfold creditAll. induction l as [|e l IH]; intros ts c; simpl; [reflexivity|].
  now rewrite IH, posCounter_credit.
Qed.

Lemma fourCounters_alter (f : TeamStats -> TeamStats) code ts :
  (forall s, length (positions (f s)) = length (positions s)) ->
  fourCounters ts -> fourCounters (alter f code ts).
Proof.
  intros Hf Hts c s. rewrite lookup_alter. case_decide; [subst|apply Hts].
  destruct (ts !! c) as [s0|] eqn:Hs0; simpl; [|discriminate].
  intros [= <-]. rewrite Hf. now apply (Hts c).
Qed.

Lemma fourCounters_creditAll k l : forall ts,
  fourCounters ts -> fourCounters (creditAll k l ts).
Proof.
  unfold creditAll. induction l as [|e l IH]; intros ts Hts; simpl; [exact Hts|].
  apply IH. apply fourCounters_alter; [reflexivity | exact Hts].
Qed.

Lemma recordStanding_four ts it : fourCounters ts -> fourCounters (recordStanding ts it).
Proof.
  intros Hts. destruct it as [pos team]. unfold recordStanding.
  assert (H1 : fourCounters (alter (countPosition pos) (e_code team) ts))
    by (apply fourCounters_alter; [apply length_countPosition | exact Hts]).
  destruct (_ || _); [|exact H1].
  apply fourCounters_alter; [reflexivity | exact H1].
Qed.

Lemma recordStanding_position ts pos team c i :
  fourCounters ts -> (i < 4)%nat -> is_Some (ts !! c) ->
  posCounter i (recordStanding ts (pos, team)) c
  = posCounter i ts c + (if (pos =? i)%nat then countCode c [team] else 0).
Proof.
  intros Hts Hi [s Hs]. unfold recordStanding.
  assert (Halter : posCounter i (alter (countPosition pos) (e_code team) ts) c
                   = posCounter i ts c
                     + (if (pos =? i)%nat then countCode c [team] else 0)).
  { unfold posCounter. rewrite lookup_alter, countCode_cons, countCode_nil.
    destruct (String.eqb_spec (e_code team) c) as [->|Hne].
    - rewrite decide_True by reflexivity. rewrite Hs. simpl.
      rewrite position_countPosition by (try exact Hi; now apply (Hts c)).
      destruct (pos =? i)%nat; lia.
    - rewrite decide_False by exact Hne. destruct (pos =? i)%nat; lia. }
  destruct (_ || _); [rewrite posCounter_credit|]; exact Halter.
Qed.

Lemma recordStandings_positions l : forall i0 ts,
  fourCounters ts ->
  let ts' := fold_left recordStanding (combine (seq i0 (length l)) l) ts in
  fourCounters ts'
  /\ forall c i,
       (i < 4)%nat -> is_Some (ts !! c) ->
       posCounter i ts' c
       = posCounter i ts c
         + (if (i0 <=? i)%nat then countCode c (option_list (l !! (i - i0)%nat)) else 0).
Proof.
  induction l as [|e l IH]; intros i0 ts Hts; cbn [length seq combine fold_left].
  - split; [exact Hts|]. intros c i _ _. rewrite lookup_nil. simpl.
    rewrite countCode_nil. destruct (i0 <=? i)%nat; lia.
  - destruct (IH (S i0) (recordStanding ts (i0, e)) (recordStanding_four ts (i0, e) Hts))
      as [Hfour Hpos].
    split; [exact Hfour|]. intros c i Hi Hc.
    rewrite Hpos by (try exact Hi; now apply recordStanding_tracked).
    rewrite recordStanding_position by assumption.
    destruct (Nat.eqb_spec i0 i) as [->|Hne].
    + replace (S i <=? i)%nat with false by (symmetry; apply Nat.leb_gt; lia).
      rewrite Nat.leb_refl, Nat.sub_diag. simpl. lia.
    + destruct (Nat.leb_spec (S i0) i) as [Hle|Hgt].
      * replace (i0 <=? i)%nat with true by (symmetry; apply Nat.leb_le; lia).
        replace (i - i0)%nat with (S (i - S i0)) by lia. simpl. lia.
      * replace (i0 <=? i)%nat with false by (symmetry; apply Nat.leb_gt; lia). lia.
Qed.

(** One group, with its positions. *)
Lemma groupStep_positions st g :
  fourCounters (gs_teamStats st) ->
  exists standings,
    NoDup (map e_code standings)
    /\ (forall c, In c (map e_code standings) <-> In c (map Js.code (snd g)))
    /\ thirdPlaceTeams (groupStep random st g)
       = thirdPlaceTeams st
         ++ match standings !! 2%nat with
            | Some third => [withGroup (fst g) third]
            | None => []
            end
    /\ fourCounters (gs_teamStats (groupStep random st g))
    /\ (forall c, is_Some (gs_teamStats (groupStep random st g) !! c)
                  <-> is_Some (gs_teamStats st !! c))
    /\ (forall c,
           is_Some (gs_teamStats st !! c) ->
           counter CR32 (gs_teamStats (groupStep random st g)) c
           = counter CR32 (gs_teamStats st) c + countCode c (take 2 standings))
    /\ forall c i,
         (i < 4)%nat -> is_Some (gs_teamStats st !! c) ->
         posCounter i (gs_teamStats (groupStep random st g)) c
         = posCounter i (gs_teamStats st) c + countCode c (option_list (standings !! i)).
Proof.
  intros Hfour. destruct g as [groupName teams]. unfold groupStep.
  pose proof (simulateGroup_NoDup random teams (gs_next st)) as Hnd.
  pose proof (simulateGroup_codes random teams (gs_next st)) as Hcodes.
  destruct (simulateGroup random teams (gs_next st)) as [standings n']. simpl in *.
  exists standings. split; [exact Hnd|]. split.
  { intros c. rewrite <- initGroupStats_In. split; apply Permutation_in;
      [exact Hcodes | symmetry; exact Hcodes]. }
  split.
  { destruct (standings !! 2%nat); [reflexivity | now rewrite app_nil_r]. }
  destruct (recordStandings_fold standings 0 (gs_teamStats st)) as [Htr Hcount].
  destruct (recordStandings_positions standings 0 (gs_teamStats st) Hfour) as [Hfour' Hpos].
  split; [exact Hfour'|]. split; [exact Htr|]. split.
  - intros c Hc. pose proof (Hcount CR32 c Hc) as H.
    rewrite decide_True in H by reflexivity. exact H.
  - intros c i Hi Hc. pose proof (Hpos c i Hi Hc) as H.
    cbn [Nat.leb] in H. rewrite Nat.sub_0_r in H. exact H.
Qed.
End TournamentPositions.

Section TournamentPlaces.
Variable random : nat -> R.
Import BracketSimulator.

Lemma countCode_withGroup c g e : countCode c [withGroup g e] = countCode c [e].
Proof. now rewrite !countCode_cons. Qed.

Lemma four_places c (l : list Entrant) :
  (length l <= 4)%nat ->
  countCode c (option_list (l !! 0%nat)) + countCode c (option_list (l !! 1%nat))
  + countCode c (option_list (l !! 2%nat)) + countCode c (option_list (l !! 3%nat))
  = countCode c l.
Proof.
  destruct l as [|x0 [|x1 [|x2 [|x3 [|x4 l]]]]]; simpl; intros Hlen; try lia;
    repeat rewrite countCode_cons; rewrite ?countCode_nil; lia.
Qed.

Lemma countCode_member c (l : list Entrant) :
  NoDup (map e_code l) ->
  countCode c l = if existsb (String.eqb c) (map e_code l) then 1 else 0.
Proof.
  intros Hnd. pose proof (countCode_NoDup c l Hnd) as Hle.
  pose proof (countCode_nonneg c l) as Hge.
  destruct (existsb (String.eqb c) (map e_code l)) eqn:Hex.
  - apply existsb_eqb_In in Hex.
    assert (1 <= countCode c l); [|lia].
    clear -Hex. induction l as [|e l IH]; [destruct Hex|].
    rewrite countCode_cons. pose proof (countCode_nonneg c l).
    destruct (String.eqb_spec (e_code e) c); [lia|].
    destruct Hex as [?|Hin]; [congruence|]. specialize (IH Hin). lia.
  - destruct (Z.eq_dec (countCode c l) 0) as [Hz|Hnz]; [exact Hz|].
    assert (Hin : In c (map e_code l)) by (apply countCode_In; lia).
    apply existsb_eqb_In in Hin. congruence.
Qed.

Lemma existsb_same (c : string) (l l' : list string) :
  (forall x, In x l <-> In x l') ->
  existsb (String.eqb c) l = existsb (String.eqb c) l'.
Proof.
  intros Hsame. destruct (existsb (String.eqb c) l) eqn:H1;
    destruct (existsb (String.eqb c) l') eqn:H2; try reflexivity.
  - apply existsb_eqb_In, Hsame, existsb_eqb_In in H1. congruence.
  - apply existsb_eqb_In, Hsame, existsb_eqb_In in H2. congruence.
Qed.

(** The whole group stage, with its positions. *)
Lemma groupStage_positions allTeams : forall st,
  fourCounters (gs_teamStats st) ->
  exists L2 L3,
    thirdPlaceTeams (fold_left (groupStep random) allTeams st) = thirdPlaceTeams st ++ L3
    /\ fourCounters (gs_teamStats (fold_left (groupStep random) allTeams st))
    /\ (forall c, is_Some (gs_teamStats (fold_left (groupStep random) allTeams st) !! c)
                  <-> is_Some (gs_teamStats st !! c))
    /\ forall c,
         is_Some (gs_teamStats st !! c) ->
         counter CR32 (gs_teamStats (fold_left (groupStep random) allTeams st)) c
         = counter CR32 (gs_teamStats st) c + countCode c L2
         /\ exists d0 d1 d2 d3,
              (0 <= d0 /\ 0 <= d1 /\ 0 <= d2 /\ 0 <= d3)
              /\ d0 + d1 = countCode c L2 /\ d2 = countCode c L3
              /\ (Forall (fun g => (length (snd g) <= 4)%nat) allTeams ->
                  d0 + d1 + d2 + d3 = groupsListing c allTeams)
              /\ posCounter 0 (gs_teamStats (fold_left (groupStep random) allTeams st)) c
                 = posCounter 0 (gs_teamStats st) c + d0
              /\ posCounter 1 (gs_teamStats (fold_left (groupStep random) allTeams st)) c
                 = posCounter 1 (gs_teamStats st) c + d1
              /\ posCounter 2 (gs_teamStats (fold_left (groupStep random) allTeams st)) c
                 = posCounter 2 (gs_teamStats st) c + d2
              /\ posCounter 3 (gs_teamStats (fold_left (groupStep random) allTeams st)) c
                 = posCounter 3 (gs_teamStats st) c + d3.
Proof.
  induction allTeams as [|g allTeams IH]; intros st Hfour; cbn [fold_left].
  - exists [], []. rewrite app_nil_r. split; [reflexivity|]. split; [exact Hfour|].
    split; [reflexivity|]. intros c _. rewrite countCode_nil. split; [lia|].
    exists 0, 0, 0, 0. unfold groupsListing. simpl. repeat split; lia.
  - destruct (groupStep_positions random st g Hfour)
      as (standings & Hnd & Hsame & Hthird & Hfour1 & Htr1 & Hr32 & Hpos).
    destruct (IH (groupStep random st g) Hfour1) as (L2 & L3 & Hthird' & Hfour' & Htr' & Hrest).
    exists (take 2 standings ++ L2).
    exists (match standings !! 2%nat with
            | Some third => [withGroup (fst g) third]
            | None => []
            end ++ L3).
    split; [now rewrite Hthird', Hthird, app_assoc|]. split; [exact Hfour'|]. split.
    { intros c. now rewrite Htr', Htr1. }
    intros c Hc. assert (Hc1 : is_Some (gs_teamStats (groupStep random st g) !! c))
      by now apply Htr1.
    destruct (Hrest c Hc1) as (Hr32' & d0 & d1 & d2 & d3 & Hnn & H01 & H2 & Hsum
                               & Hp0 & Hp1 & Hp2 & Hp3).
    split; [rewrite Hr32', (Hr32 c Hc), countCode_app; lia|].
    exists (countCode c (option_list (standings !! 0%nat)) + d0),
      (countCode c (option_list (standings !! 1%nat)) + d1),
      (countCode c (option_list (standings !! 2%nat)) + d2),
      (countCode c (option_list (standings !! 3%nat)) + d3).
    pose proof (countCode_nonneg c (option_list (standings !! 0%nat))).
    pose proof (countCode_nonneg c (option_list (standings !! 1%nat))).
    pose proof (countCode_nonneg c (option_list (standings !! 2%nat))).
    pose proof (countCode_nonneg c (option_list (standings !! 3%nat))).
    split; [lia|]. split.
    { rewrite countCode_app, <- first_two. lia. }
    split.
    { rewrite countCode_app, H2. f_equal.
      destruct (standings !! 2%nat) as [third|]; simpl; [|reflexivity].
      symmetry. apply countCode_withGroup. }
    split.
    { intros Hsmall. inversion Hsmall as [|? ? Hg Hsmall']; subst.
      specialize (Hsum Hsmall').
      assert (Hlen : (length standings <= 4)%nat).
      { rewrite <- (length_map e_code). etransitivity; [|exact Hg].
        rewrite <- (length_map Js.code (snd g)).
        apply submseteq_length, NoDup_submseteq; [exact Hnd|].
        intros x Hx. apply list_elem_of_In, Hsame. now apply list_elem_of_In. }
      pose proof (four_places c standings Hlen) as Hfourp.
      rewrite (countCode_member c standings Hnd) in Hfourp.
      rewrite (existsb_same c _ (map Js.code (snd g)) Hsame) in Hfourp.
      unfold groupsListing in *. cbn [List.filter].
      destruct (existsb (String.eqb c) (map Js.code (snd g))); cbn [length]; lia. }
    rewrite Hp0, Hp1, Hp2, Hp3, !Hpos by (try lia; exact Hc). repeat split; lia.
Qed.

Lemma countCode_sub c (Q L : list Entrant) :
  (forall x, countCode x Q <= countCode x L) -> 0 <= countCode c Q <= countCode c L.
Proof. intros H. split; [apply countCode_nonneg | apply H]. Qed.

Lemma playRound_stats k ms prev :
  exists credited,
    rd_teamStats (playRound random k ms prev) = creditAll k credited (rd_teamStats prev).
Proof.
  unfold playRound.
  destruct (roundFold_spec random k (winners prev) ms
              {| winners := ∅; rd_teamStats := rd_teamStats prev; rd_next := rd_next prev |})
    as (credited & Hts & _). eauto.
Qed.

(** One iteration, with its positions. *)
Lemma iteration_positions allTeams ko ts n ts' n' :
  fourCounters ts ->
  iteration random allTeams ko (Some (ts, n)) = Some (ts', n') ->
  fourCounters ts'
  /\ (forall c, is_Some (ts' !! c) <-> is_Some (ts !! c))
  /\ forall c,
       is_Some (ts !! c) ->
       exists d0 d1 d2 d3 r,
         (0 <= d0 /\ 0 <= d1 /\ 0 <= d2 /\ 0 <= d3)
         /\ d0 + d1 <= r <= d0 + d1 + d2
         /\ (Forall (fun g => (length (snd g) <= 4)%nat) allTeams ->
             d0 + d1 + d2 + d3 = groupsListing c allTeams)
         /\ counter CR32 ts' c = counter CR32 ts c + r
         /\ posCounter 0 ts' c = posCounter 0 ts c + d0
         /\ posCounter 1 ts' c = posCounter 1 ts c + d1
         /\ posCounter 2 ts' c = posCounter 2 ts c + d2
         /\ posCounter 3 ts' c = posCounter 3 ts c + d3.
Proof.
  intros Hfour. unfold iteration.
  destruct (groupStage_positions allTeams (groupStageStart ts n) Hfour)
    as (L2 & L3 & Hthirds & Hfour1 & Htr & Hrest).
  unfold groupStageStart in *.
  match type of Hthirds with thirdPlaceTeams ?s = _ => remember s as st eqn:Hst in * end.
  clear Hst. cbn [groupStandings thirdPlaceTeams gs_teamStats gs_next app] in *.
  rewrite Hthirds.
  destruct (fold_left (r32Step random (groupStandings st)) (r32 ko) _)
    as [[Q' r32W]|] eqn:Hfold; [|discriminate].
  destruct (final ko !! 0%nat) as [fm|]; [|discriminate].
  cbv zeta. intros [= <- <-].
  destruct (r32Fold_spec random _ _ _ _ _ _ Hfold) as (c16 & Hts16 & _ & _).
  cbn [rd_teamStats] in Hts16.
  destruct (playRound_stats CQF (r16 ko) r32W) as (cqf & Htsqf).
  set (r16W := playRound random CQF (r16 ko) r32W) in *.
  destruct (playRound_stats CSF (qf ko) r16W) as (csf & Htssf).
  set (qfW := playRound random CSF (qf ko) r16W) in *.
  destruct (playRound_stats CFinal (sf ko) qfW) as (cfin & Htsfin).
  set (sfW := playRound random CFinal (sf ko) qfW) in *.
  destruct (playRound_stats CWin [fm] sfW) as (cwin & Htswin).
  rewrite Htswin, Htsfin, Htssf, Htsqf, Hts16.
  split; [now repeat apply fourCounters_creditAll|]. split.
  { intros c. rewrite !creditAll_tracked. apply Htr. }
  intros c Hc. assert (Hc' : is_Some (gs_teamStats st !! c)) by now apply Htr.
  destruct (Hrest c Hc) as (Hr32 & d0 & d1 & d2 & d3 & Hnn & H01 & H2 & Hsum
                            & Hp0 & Hp1 & Hp2 & Hp3).
  exists d0, d1, d2, d3, (countCode c L2 + countCode c (qualifiers L3)).
  pose proof (qualifiers_count c L3). pose proof (countCode_nonneg c (qualifiers L3)).
  split; [exact Hnn|]. split; [lia|]. split; [exact Hsum|].
  rewrite !posCounter_creditAll.
  rewrite !counter_creditAll_tracked by (rewrite ?creditAll_tracked; exact Hc').
  rewrite Hr32. repeat split; try assumption.
  repeat case_decide; try congruence; lia.
Qed.
End TournamentPlaces.

Section TournamentRun.
Variable random : nat -> R.
Import BracketSimulator.

Lemma placedOut_step k m (small : Prop) ts ts' c d0 d1 d2 d3 r :
  (0 <= d0 /\ 0 <= d1 /\ 0 <= d2 /\ 0 <= d3) ->
  d0 + d1 <= r <= d0 + d1 + d2 ->
  (small -> d0 + d1 + d2 + d3 = m) ->
  counter CR32 ts' c = counter CR32 ts c + r ->
  posCounter 0 ts' c = posCounter 0 ts c + d0 ->
  posCounter 1 ts' c = posCounter 1 ts c + d1 ->
  posCounter 2 ts' c = posCounter 2 ts c + d2 ->
  posCounter 3 ts' c = posCounter 3 ts c + d3 ->
  placedOut k m small ts c -> placedOut (k + 1) m small ts' c.
Proof.
  intros Hnn Hr Hsum Hc32 H0 H1 H2 H3 [Hpos Hlo Hhi Htot].
  pose proof (Hpos 0%nat ltac:(lia)). pose proof (Hpos 1%nat ltac:(lia)).
  pose proof (Hpos 2%nat ltac:(lia)). pose proof (Hpos 3%nat ltac:(lia)).
  split.
  - intros i Hi. destruct i as [|[|[|[|i]]]]; [lia..|lia].
  - lia.
  - lia.
  - intros Hsmall. specialize (Hsum Hsmall). specialize (Htot Hsmall). lia.
Qed.

Lemma run_placedOut allTeams ko ts0 n0 :
  fourCounters ts0 ->
  forall simulations ts n,
    Nat.iter simulations (iteration random allTeams ko) (Some (ts0, n0)) = Some (ts, n) ->
    fourCounters ts
    /\ (forall c, is_Some (ts !! c) <-> is_Some (ts0 !! c))
    /\ forall c,
         is_Some (ts0 !! c) ->
         placedOut 0 (groupsListing c allTeams)
                   (Forall (fun g => (length (snd g) <= 4)%nat) allTeams) ts0 c ->
         placedOut (Z.of_nat simulations) (groupsListing c allTeams)
                   (Forall (fun g => (length (snd g) <= 4)%nat) allTeams) ts c.
Proof.
  intros Hfour0. induction simulations as [|s IH]; intros ts n.
  - simpl. intros [= <- <-]. split; [exact Hfour0|]. split; [reflexivity|]. auto.
  - rewrite Nat.iter_succ.
    destruct (Nat.iter s (iteration random allTeams ko) (Some (ts0, n0)))
      as [[ts1 n1]|]; [|discriminate].
    intros Hstep. destruct (IH ts1 n1 eq_refl) as (Hfour1 & Htr1 & Hplaced1).
    destruct (iteration_positions random _ _ _ _ _ _ Hfour1 Hstep) as (Hfour & Htr & Hdelta).
    split; [exact Hfour|]. split; [intros c; now rewrite Htr, Htr1|].
    intros c Hc Hinit.
    destruct (Hdelta c (proj2 (Htr1 c) Hc))
      as (d0 & d1 & d2 & d3 & r & Hnn & Hr & Hsum & Hc32 & H0 & H1 & H2 & H3).
    rewrite Nat2Z.inj_succ, <- Z.add_1_r.
    eapply placedOut_step; eauto.
Qed.

(** The statistics before the first iteration have four zero counters. *)
Lemma initTeamStats_fresh allTeams c s :
  initTeamStats allTeams !! c = Some s -> positions s = [0; 0; 0; 0] /\ r32Count s = 0.
Proof.
  unfold initTeamStats.
  assert (Hteams : forall l (ts : gmap string TeamStats),
             (forall c s, ts !! c = Some s -> positions s = [0; 0; 0; 0] /\ r32Count s = 0) ->
             forall c s, fold_left initTeam l ts !! c = Some s ->
                         positions s = [0; 0; 0; 0] /\ r32Count s = 0).
  { induction l as [|t l IH]; intros ts Hts; simpl; [exact Hts|].
    apply IH. intros c' s'. unfold initTeam.
    destruct (ts !! Js.code t); [apply Hts|].
    destruct (decide (Js.code t = c')) as [<-|Hne].
    - rewrite lookup_insert_eq. intros [= <-]. auto.
    - rewrite lookup_insert_ne by exact Hne. apply Hts. }
  assert (Hgroups : forall (l : list (string * list Js.Team)) (ts : gmap string TeamStats),
             (forall c s, ts !! c = Some s -> positions s = [0; 0; 0; 0] /\ r32Count s = 0) ->
             forall c s,
               fold_left (fun ts (g : string * list Js.Team) =>
                            fold_left initTeam (snd g) ts) l ts !! c = Some s ->
               positions s = [0; 0; 0; 0] /\ r32Count s = 0).
  { induction l as [|g l IH]; intros ts Hts; simpl; [exact Hts|].
    apply IH. now apply Hteams. }
  apply Hgroups. intros c' s'. rewrite lookup_empty. discriminate.
Qed.

Lemma initTeamStats_placedOut allTeams m small c :
  placedOut 0 m small (initTeamStats allTeams) c.
Proof.
  assert (Hz : (forall i, posCounter i (initTeamStats allTeams) c = 0)
               /\ counter CR32 (initTeamStats allTeams) c = 0).
  { unfold posCounter, counter.
    destruct (initTeamStats allTeams !! c) as [s|] eqn:Hs; simpl; [|auto].
    destruct (initTeamStats_fresh allTeams c s Hs) as [Hp Hr]. split; [|exact Hr].
    intros i. unfold position. rewrite Hp. now destruct i as [|[|[|[|i]]]]. }
  destruct Hz as [Hp Hr]. split; intros; rewrite ?Hp, ?Hr; lia.
Qed.

Lemma initTeamStats_four allTeams : fourCounters (initTeamStats allTeams).
Proof.
  intros c s Hs. destruct (initTeamStats_fresh allTeams c s Hs) as [-> _]. reflexivity.
Qed.

Lemma groupsListing_absent c (allTeams : list (string * list Js.Team)) :
  ~ In c (allCodes allTeams) -> groupsListing c allTeams = 0.
Proof.
  unfold groupsListing, allCodes. induction allTeams as [|g l IH]; [reflexivity|].
  cbn [map concat List.filter]. rewrite in_app_iff. intros Hc.
  destruct (existsb (String.eqb c) (map Js.code (snd g))) eqn:Hex.
  - apply existsb_eqb_In in Hex. tauto.
  - apply IH. tauto.
Qed.

Lemma groupsListing_one c (allTeams : list (string * list Js.Team)) :
  NoDup (allCodes allTeams) -> In c (allCodes allTeams) -> groupsListing c allTeams = 1.
Proof.
  induction allTeams as [|g l IH]; [intros _ []|].
  unfold allCodes. cbn [map concat]. fold (allCodes l).
  intros (Hg & Hcross & Hl)%NoDup_app. rewrite in_app_iff. intros Hc.
  unfold groupsListing. cbn [List.filter].
  destruct (existsb (String.eqb c) (map Js.code (snd g))) eqn:Hex.
  - apply existsb_eqb_In in Hex. cbn [length]. fold (groupsListing c l).
    rewrite Nat2Z.inj_succ. unfold groupsListing in *.
    assert (Hz : groupsListing c l = 0).
    { apply groupsListing_absent. intros Hin.
      apply (Hcross c); now apply list_elem_of_In. }
    unfold groupsListing in Hz. lia.
  - destruct Hc as [Hc|Hc]; [apply existsb_eqb_In in Hc; congruence|].
    now apply IH.
Qed.

(** The statistics behind a row of the result. *)
Lemma row_placedOut groupData ratings expectedElos teamNames simulations n0 results
  g rows row :
  simulateTournament random groupData ratings expectedElos teamNames simulations n0
  = Some results ->
  In (g, rows) results -> In row rows ->
  let allTeams := buildTeams groupData ratings expectedElos teamNames in
  exists team s ts,
    row = toRow ts simulations team
    /\ ts !! Js.code team = Some s
    /\ In (Js.code team) (allCodes allTeams)
    /\ placedOut (Z.of_nat simulations) (groupsListing (Js.code team) allTeams)
                 (Forall (fun g => (length (snd g) <= 4)%nat) allTeams) ts (Js.code team).
Proof.
  intros Hrun Hg Hrow allTeams. unfold simulateTournament in Hrun. fold allTeams in Hrun.
  destruct (Nat.iter simulations _ _) as [[ts n]|] eqn:Hiter; [|discriminate].
  injection Hrun as <-.
  apply in_map_iff in Hg as (grp & [= <- <-] & Hgrp).
  apply sort_In in Hrow. apply in_map_iff in Hrow as (t & <- & Ht).
  destruct (run_placedOut allTeams _ _ _ (initTeamStats_four allTeams) _ _ _ Hiter)
    as (_ & Htr & Hplaced).
  assert (Hin : In (Js.code t) (allCodes allTeams)).
  { unfold allCodes. apply in_concat. exists (map Js.code (snd grp)).
    split; [|now apply in_map]. apply in_map_iff. exists grp. auto. }
  assert (Htracked : is_Some (initTeamStats allTeams !! Js.code t))
    by now apply initTeamStats_tracked.
  destruct (proj2 (Htr (Js.code t)) Htracked) as [s Hs].
  exists t, s, ts. split; [reflexivity|]. split; [exact Hs|]. split; [exact Hin|].
  apply Hplaced; [exact Htracked | apply initTeamStats_placedOut].
Qed.
End TournamentRun.

Lemma toRow_positions ts simulations team s :
  ts !! Js.code team = Some s ->
  let row := BracketSimulator.toRow ts simulations team in
  BracketSimulator.pos1Prob row = (IZR (posCounter 0 ts (Js.code team)) / INR simulations)%R
  /\ BracketSimulator.pos2Prob row
     = (IZR (posCounter 1 ts (Js.code team)) / INR simulations)%R
  /\ BracketSimulator.pos3Prob row
     = (IZR (posCounter 2 ts (Js.code team)) / INR simulations)%R
  /\ BracketSimulator.pos4Prob row
     = (IZR (posCounter 3 ts (Js.code team)) / INR simulations)%R
  /\ BracketSimulator.r32Prob row
     = (IZR (counter BracketSimulator.CR32 ts (Js.code team)) / INR simulations)%R.
Proof.
  intros Hs. unfold BracketSimulator.toRow, posCounter, counter. rewrite Hs. simpl.
  repeat split; reflexivity.
Qed.

(** X21: In every row of a tournament run with at least one simulation, no
    position probability is negative and the Round-of-32 probability lies
    between the chance of finishing first or second and the chance of
    finishing in the first three: a team reaches the Round of 32 whenever
    it is in the first two of its group, and otherwise only as a third. *)
Theorem round_of_32_lies_between_the_group_positions :
  forall random groupData ratings expectedElos teamNames simulations n0 results,
    (1 <= simulations)%nat ->
    BracketSimulator.simulateTournament random groupData ratings expectedElos teamNames
      simulations n0 = Some results ->
    forall g rows row,
      In (g, rows) results -> In row rows ->
      (0 <= BracketSimulator.pos1Prob row)%R /\ (0 <= BracketSimulator.pos2Prob row)%R
      /\ (0 <= BracketSimulator.pos3Prob row)%R /\ (0 <= BracketSimulator.pos4Prob row)%R
      /\ (BracketSimulator.pos1Prob row + BracketSimulator.pos2Prob row
          <= BracketSimulator.r32Prob row)%R
      /\ (BracketSimulator.r32Prob row
          <= BracketSimulator.pos1Prob row + BracketSimulator.pos2Prob row
             + BracketSimulator.pos3Prob row)%R.
Proof.
  intros random gd ratings eElos names sims n0 results Hs Hrun g rows row Hg Hrow.
  destruct (row_placedOut random gd ratings eElos names sims n0 results g rows row
              Hrun Hg Hrow) as (team & s & ts & -> & Hts & _ & [Hpos Hlo Hhi _]).
  destruct (toRow_positions ts sims team s Hts) as (-> & -> & -> & -> & ->).
  pose proof (Hpos 0%nat ltac:(lia)) as H0. pose proof (Hpos 1%nat ltac:(lia)) as H1.
  pose proof (Hpos 2%nat ltac:(lia)) as H2. pose proof (Hpos 3%nat ltac:(lia)) as H3.
  apply IZR_le in H0, H1, H2, H3, Hlo, Hhi. repeat rewrite plus_IZR in Hlo. repeat rewrite plus_IZR in Hhi.
  assert (Hsims : (0 < INR sims)%R) by (apply lt_0_INR; lia).
  assert (Hinv : (0 < / INR sims)%R) by now apply Rinv_0_lt_compat.
  assert (Hmono : forall a b : R, (a <= b -> a * / INR sims <= b * / INR sims)%R).
  { intros a b Hab. apply Rmult_le_compat_r; lra. }
  unfold Rdiv. rewrite <- !Rmult_plus_distr_r.
  repeat split; try (apply Hmono; assumption);
    (rewrite <- (Rmult_0_l (/ INR sims)); apply Hmono; assumption).
Qed.

Lemma round_of_32_witness :
  exists results,
    BracketSimulator.simulateTournament zeroRandom smallTournament ∅ ∅ ∅ 1 0 = Some results
    /\ forall g rows row,
         In (g, rows) results -> In row rows ->
         (0 <= BracketSimulator.pos1Prob row)%R /\ (0 <= BracketSimulator.pos2Prob row)%R
         /\ (0 <= BracketSimulator.pos3Prob row)%R /\ (0 <= BracketSimulator.pos4Prob row)%R
         /\ (BracketSimulator.pos1Prob row + BracketSimulator.pos2Prob row
             <= BracketSimulator.r32Prob row)%R
         /\ (BracketSimulator.r32Prob row
             <= BracketSimulator.pos1Prob row + BracketSimulator.pos2Prob row
                + BracketSimulator.pos3Prob row)%R.
Proof.
  destruct (BracketSimulator.simulateTournament zeroRandom smallTournament ∅ ∅ ∅ 1 0)
    as [results|] eqn:Hrun.
  - exists results. split; [reflexivity|].
    apply (round_of_32_lies_between_the_group_positions zeroRandom smallTournament
             ∅ ∅ ∅ 1 0 results); [lia | exact Hrun].
  - exfalso. revert Hrun.
    unfold BracketSimulator.simulateTournament, BracketSimulator.iteration,
      BracketSimulator.playRound, BracketSimulator.roundStep, BracketSimulator.r32Step,
      BracketSimulator.playKnockout.
    rewrite first_team_wins. vm_compute. discriminate.
Defined.

(** X22: When the team codes of all groups are pairwise distinct and no group
    has more than four teams, the four position probabilities of every row
    of a tournament run (with at least one simulation) add up to 1. *)
Theorem tournament_positions_are_a_distribution :
  forall random groupData ratings expectedElos teamNames simulations n0 results,
    NoDup (concat (map snd (BracketSimulator.groups groupData))) ->
    Forall (fun g => (length (snd g) <= 4)%nat) (BracketSimulator.groups groupData) ->
    (1 <= simulations)%nat ->
    BracketSimulator.simulateTournament random groupData ratings expectedElos teamNames
      simulations n0 = Some results ->
    forall g rows row,
      In (g, rows) results -> In row rows ->
      (BracketSimulator.pos1Prob row + BracketSimulator.pos2Prob row
       + BracketSimulator.pos3Prob row + BracketSimulator.pos4Prob row = 1)%R.
Proof.
  intros random gd ratings eElos names sims n0 results Hnd Hsmall Hs Hrun g rows row Hg Hrow.
  destruct (row_placedOut random gd ratings eElos names sims n0 results g rows row
              Hrun Hg Hrow) as (team & s & ts & -> & Hts & Hin & [_ _ _ Htot]).
  destruct (toRow_positions ts sims team s Hts) as (-> & -> & -> & -> & _).
  rewrite groupsListing_one in Htot;
    [|now rewrite allCodes_buildTeams | exact Hin].
  assert (Hsmall' : Forall (fun g : string * list Js.Team => (length (snd g) <= 4)%nat)
                           (BracketSimulator.buildTeams gd ratings eElos names)).
  { unfold BracketSimulator.buildTeams. apply Forall_map.
    eapply Forall_impl; [exact Hsmall|].
    intros grp Hgrp. cbn. now rewrite length_map. }
  specialize (Htot Hsmall'). rewrite Z.mul_1_r in Htot.
  apply (f_equal IZR) in Htot. repeat rewrite plus_IZR in Htot. rewrite <- INR_IZR_INZ in Htot.
  assert (Hsims : (0 < INR sims)%R) by (apply lt_0_INR; lia).
  unfold Rdiv. rewrite <- !Rmult_plus_distr_r, Htot. apply Rinv_r. lra.
Qed.

Lemma tournament_positions_witness :
  exists results,
    BracketSimulator.simulateTournament zeroRandom smallTournament ∅ ∅ ∅ 1 0 = Some results
    /\ forall g rows row,
         In (g, rows) results -> In row rows ->
         (BracketSimulator.pos1Prob row + BracketSimulator.pos2Prob row
          + BracketSimulator.pos3Prob row + BracketSimulator.pos4Prob row = 1)%R.
Proof.
  destruct (BracketSimulator.simulateTournament zeroRandom smallTournament ∅ ∅ ∅ 1 0)
    as [results|] eqn:Hrun.
  - exists results. split; [reflexivity|].
    apply (tournament_positions_are_a_distribution zeroRandom smallTournament
             ∅ ∅ ∅ 1 0 results).
    + apply (bool_decide_unpack _); vm_compute; exact I.
    + apply (bool_decide_unpack _); vm_compute; exact I.
    + lia.
    + exact Hrun.
  - exfalso. revert Hrun.
    unfold BracketSimulator.simulateTournament, BracketSimulator.iteration,
      BracketSimulator.playRound, BracketSimulator.roundStep, BracketSimulator.r32Step,
      BracketSimulator.playKnockout.
    rewrite first_team_wins. vm_compute. discriminate.
Defined.

(** ** Locks and the teams that a match shows *)

(** X23: [isTeamLockedUpstream] and [getMatchTeams]: when a team is locked as
    the winner of a match that directly feeds a later match (numbered above
    16, fed by at most two matches), the later match shows that team as one
    of its two teams. *)
Theorem locked_upstream_team_is_shown_in_the_match :
  forall sosData fuel teamCode m knockout ov prevs t1 t2,
    App.findMatch (App.match_id m) knockout = Some m ->
    16 < App.match_id m ->
    App.prevMatches m = Some prevs -> (length prevs <= 2)%nat ->
    App.isTeamLockedUpstream teamCode (App.match_id m) knockout ov = true ->
    App.getMatchTeams sosData fuel m knockout ov = Some (t1, t2) ->
    exists t, (t1 = Some t \/ t2 = Some t) /\ App.bt_code t = teamCode.
Proof.
  intros sosData fuel c m ko ov prevs t1 t2 Hfind Hid Hprev Hlen Hlock Hshow.
  unfold App.isTeamLockedUpstream in Hlock. rewrite Hfind in Hlock. simpl in Hlock.
  rewrite Hprev in Hlock. apply existsb_exists in Hlock as (p & Hp & Hov).
  destruct (ov !! p) as [o|] eqn:Ho; [|discriminate]. apply String.eqb_eq in Hov.
  unfold App.getMatchTeams in Hshow.
  destruct (Z.leb_spec (App.match_id m) 16) as [|_]; [lia|].
  rewrite Hprev in Hshow. destruct fuel as [|f].
  { destruct prevs as [|a prevs]; [destruct Hp|]. discriminate. }
  destruct prevs as [|a [|b [|? ?]]]; simpl in Hlen; try lia.
  - destruct Hp.
  - destruct Hp as [->|[]]. simpl in Hshow. rewrite Ho in Hshow. simpl in Hshow.
    injection Hshow as <- <-. exists o. auto.
  - destruct Hp as [->|[->|[]]].
    + simpl in Hshow. rewrite Ho in Hshow. simpl in Hshow.
      destruct (match ov !! b with Some _ => _ | None => _ end) as [w2|];
        [|discriminate].
      injection Hshow as <- <-. exists o. auto.
    + cbn [lookup list_lookup from_option] in Hshow.
      destruct (App.getMatchWinner sosData (S f) ov ko a) as [w1|]; [|discriminate].
      simpl in Hshow. rewrite Ho in Hshow. simpl in Hshow.
      injection Hshow as <- <-. exists o. auto.
Qed.

Lemma locked_upstream_witness :
  let m17 := {| App.match_id := 17; App.team1 := None; App.team2 := None;
                App.prevMatches := Some [1; 2] |} in
  exists t1 t2,
    App.getMatchTeams demoData 2 m17 demoKnockout croatiaThrough = Some (t1, t2)
    /\ exists t, (t1 = Some t \/ t2 = Some t) /\ App.bt_code t = "CRO".
Proof.
  intros m17.
  exists (Some (App.favourite (demoTeam "ARG" "1A") (demoTeam "BEL" "1B"))),
         (Some (demoLock "CRO")).
  assert (Hrun : App.getMatchTeams demoData 2 m17 demoKnockout croatiaThrough
                 = Some (Some (App.favourite (demoTeam "ARG" "1A") (demoTeam "BEL" "1B")),
                         Some (demoLock "CRO")))
    by (vm_compute; reflexivity).
  split; [exact Hrun|].
  apply (locked_upstream_team_is_shown_in_the_match demoData 2 "CRO" m17 demoKnockout
           croatiaThrough [1; 2] _ _); [reflexivity | reflexivity | reflexivity | simpl; lia
                                       | reflexivity | exact Hrun].
Defined.
